(** * Spateo morpho alignment pipeline: a shallow embedding

    Source: [spateo/alignment/morpho_alignment.py], functions
    [morpho_align] and [morpho_align_ref].

    Python objects that the pipeline mutates ([AnnData] samples) live in a
    store indexed by object identity; the caller's list of samples is a list
    of identities.  Opaque values kept in [.uns] (fitted deformation fields,
    iteration histories) carry their identity with them, so that "the same
    object" and "an equal copy" are told apart.  The numerical primitives of
    the sibling modules ([BA_align], [BA_transform],
    [BA_transform_and_assignment], [downsampling]) are parameters of the
    development; every call to one of them is recorded in a trace. *)

From Stdlib Require Import ZArith String List Lia.
From Stdlib Require OrdersEx.
From stdpp Require Import base gmap strings list fin_maps.

Open Scope Z_scope.
Open Scope nat_scope.
Open Scope string_scope.
Open Scope list_scope.

(** ** Dense matrices, as NumPy stores them: a shape and row-major data.

    The label matrix is a [float64] array that only ever holds [0.0] and
    [1.0]; its entries are represented by the integers [0] and [1]. *)

Record Matrix := mkMatrix {
  nrows : nat;
  ncols : nat;
  mrows : list (list Z)
}.

(** [np.zeros((a, b))] *)
Definition np_zeros2 (a b : nat) : Matrix :=
  mkMatrix a b (replicate a (replicate b 0%Z)).

(** [M[:, index] = v] for a vector [v] with one entry per row. *)
Definition set_column (M : Matrix) (index : nat) (v : list Z) : Matrix :=
  mkMatrix (nrows M) (ncols M)
           (zip_with (fun r x => <[index := x]> r) (mrows M) v).

(** [M.T] *)
Definition transpose (M : Matrix) : Matrix :=
  mkMatrix (ncols M) (nrows M)
           (map (fun j => map (fun r => nth j r 0%Z) (mrows M)) (seq 0 (ncols M))).

(** [M[j, k]] *)
Definition entry (M : Matrix) (j k : nat) : option Z :=
  mrows M !! j ≫= fun r => r !! k.

Definition shape (M : Matrix) : nat * nat := (nrows M, ncols M).

(** ** Category codes (lines 76-82) *)

(** Insertion into a strictly increasing list of strings, dropping
    duplicates; strings are ordered by code point as NumPy orders them. *)
Fixpoint insert_unique (s : string) (l : list string) : list string :=
  match l with
  | [] => [s]
  | x :: t =>
      match String.compare s x with
      | Lt => s :: x :: t
      | Eq => x :: t
      | Gt => x :: insert_unique s t
      end
  end.

(** [np.union1d(x, y)]: the sorted, duplicate-free union. *)
Definition union1d (x y : list string) : list string :=
  foldr insert_unique [] (x ++ y).

(** [enumerate(l)] *)
Definition enumerate {A} (l : list A) : list (Z * A) :=
  zip (map Z.of_nat (seq 0 (length l))) l.

(** [codes[cat_values == cat] = code]; a missing value (NaN) equals no
    category. *)
Definition assign_where (values : list (option string)) (cat : string)
    (code : Z) (codes : list Z) : list Z :=
  zip_with (fun v c => if decide (v = Some cat) then code else c) values codes.

(** Lines 77-82: both code arrays start as zeros and are filled category
    by category; the literal category ["unknown"] gets the code [-1]. *)
Definition label_codes (categories : list string)
    (valuesA valuesB : list (option string)) : list Z * list Z :=
  fold_left
    (fun (acc : list Z * list Z) (ec : Z * string) =>
       let code := if String.eqb (snd ec) "unknown" then (-1)%Z else fst ec in
       (assign_where valuesA (snd ec) code (fst acc),
        assign_where valuesB (snd ec) code (snd acc)))
    (enumerate categories)
    (replicate (length valuesA) 0%Z, replicate (length valuesB) 0%Z).

(** [catACode != c], as the 0/1 vector NumPy stores into a float column. *)
Definition not_equal_to (codes : list Z) (c : Z) : list Z :=
  map (fun x => if Z.eqb x c then 0%Z else 1%Z) codes.

(** Lines 83-86.  [i] is the index of the pair in the chain: the source
    reads [catBCode[i]] inside the loop over [index].  [None] stands for the
    [IndexError] NumPy raises when [i] is out of bounds for [catBCode]. *)
Fixpoint fill_columns (i : nat) (catACode catBCode : list Z)
    (indices : list nat) (M : Matrix) : option Matrix :=
  match indices with
  | [] => Some M
  | index :: rest =>
      match catBCode !! i with
      | None => None
      | Some c =>
          fill_columns i catACode catBCode rest
                       (set_column M index (not_equal_to catACode c))
      end
  end.

Definition LabelSimMat (i : nat) (catACode catBCode : list Z) : option Matrix :=
  let M := np_zeros2 (length catACode) (length catBCode) in
  transpose <$> fill_columns i catACode catBCode (seq 0 (length catBCode)) M.

(** ** The object store and the effects of the pipeline *)

Section Pipeline.

(** Values the pipeline only passes along: coordinate arrays ([Coords]),
    the expression data of a sample ([Expr]: [.X], layers, genes), opaque
    Python objects stored in [.uns] ([PyObj]), assignment matrices ([Pi]),
    variance estimates ([Sigma2]), the hyper-parameters handed unchanged to
    the primitives ([Opts]: layer, genes, mode, dissimilarity, max_iter,
    dtype, device, verbose, kwargs) and the errors the primitives raise. *)
Context {Coords Expr PyObj Pi Sigma2 Opts ExtErr : Type}.

(** An object held in [.uns], with its identity: two references denote the
    same Python object exactly when their [oid] agree. *)
Record PyRef := mkPyRef { oid : nat; oval : PyObj }.

(** A column of [.obs]: categorical (categories and per-point values, [None]
    for a missing value) or of any other dtype. *)
Inductive ObsCol :=
| CatCol (categories : list string) (values : list (option string))
| PlainCol (values : list string).

Record AnnData := mkAnnData {
  X : Expr;
  obs : gmap string ObsCol;
  obsm : gmap string Coords;
  uns : gmap string PyRef
}.

Definition with_obsm (a : AnnData) (k : string) (c : Coords) : AnnData :=
  mkAnnData (X a) (obs a) (<[k := c]> (obsm a)) (uns a).

Definition with_uns (a : AnnData) (k : string) (r : PyRef) : AnnData :=
  mkAnnData (X a) (obs a) (obsm a) (<[k := r]> (uns a)).

Definition with_uns_opt (a : AnnData) (k : option string) (r : PyRef) : AnnData :=
  match k with Some k => with_uns a k r | None => a end.

Inductive Exn :=
| KeyError (key : option string)
| IndexError
| AttributeError
| External (e : ExtErr)
| DanglingRef.

(** What a fit of [BA_align] computes. *)
Record RegisterOut := mkRegisterOut {
  reg_coords : Coords;
  reg_P : Pi;
  reg_sigma2 : Sigma2;
  reg_field : PyObj;
  reg_history : PyObj
}.

(** [BA_transform] returns three arrays: the transformed points, the raw
    output of the field and the rigid-only points. *)
Record TransformOut := mkTransformOut {
  tr_nonrigid : Coords;
  tr_raw : Coords;
  tr_rigid : Coords
}.

(** One entry per call of an external primitive, with what it was given and
    what it answered. *)
Inductive Event :=
| EvRegister (sampleA sampleB : nat) (spatial_key : string)
             (added_similarity : option Matrix) (res : ExtErr + RegisterOut)
| EvTransform (vecfld : PyRef) (quary_points : Coords) (res : ExtErr + TransformOut)
| EvTransformAssign (sampleB sampleA : nat) (vecfld : PyRef)
                    (res : ExtErr + Pi * Coords)
| EvDownsampling (samples : list nat)
| EvEmptyCache.

Record World := mkWorld {
  store : gmap nat AnnData;
  next_id : nat;
  trace : list Event
}.

Inductive Res (A : Type) :=
| Ok (a : A) (w : World)
| Raise (e : Exn) (w : World).
Arguments Ok {A} a w.
Arguments Raise {A} e w.

Definition M (A : Type) : Type := World -> Res A.

(** Did the run return (rather than raise)? *)
Definition returned {A} (r : Res A) : bool :=
  match r with
  | Ok _ _ => true
  | Raise _ _ => false
  end.

Definition ret {A} (a : A) : M A := fun w => Ok a w.
Definition raise {A} (e : Exn) : M A := fun w => Raise e w.
Definition bind {A B} (m : M A) (f : A -> M B) : M B :=
  fun w => match m w with
           | Ok a w' => f a w'
           | Raise e w' => Raise e w'
           end.

Notation "x <- m ;; k" := (bind m (fun x => k))
  (at level 60, m at next level, right associativity).
Notation "m ;;; k" := (bind m (fun _ => k))
  (at level 60, right associativity).

(** [for x in l: body x] *)
Fixpoint for_each {A} (l : list A) (body : A -> M unit) : M unit :=
  match l with
  | [] => ret tt
  | x :: t => body x ;;; for_each t body
  end.

(** [[f(x) for x in l]] *)
Fixpoint map_M {A B} (f : A -> M B) (l : list A) : M (list B) :=
  match l with
  | [] => ret []
  | x :: t => y <- f x ;; ys <- map_M f t ;; ret (y :: ys)
  end.

(** A loop whose body updates the local variables [S]. *)
Fixpoint for_loop {S} (l : list nat) (body : nat -> S -> M S) (s : S) : M S :=
  match l with
  | [] => ret s
  | i :: t => s' <- body i s ;; for_loop t body s'
  end.

(** Modelled from the spec: [_iteration] of [spateo/alignment/utils.py] is
    missing from the sources; the spec has the pair index run over
    [0 .. N-2], in order.  For [n] below zero the range is empty, as is
    [seq 0 (N - 1)] with the truncated subtraction of [nat]. *)
Definition _iteration (n : nat) : list nat := seq 0 n.

Definition deref (l : nat) : M AnnData :=
  fun w => match store w !! l with
           | Some a => Ok a w
           | None => Raise DanglingRef w
           end.

Definition assign (l : nat) (a : AnnData) : M unit :=
  fun w => Ok tt (mkWorld (<[l := a]> (store w)) (next_id w) (trace w)).

Definition fresh : M nat :=
  fun w => Ok (next_id w) (mkWorld (store w) (S (next_id w)) (trace w)).

Definition log (ev : Event) : M unit :=
  fun w => Ok tt (mkWorld (store w) (next_id w) (trace w ++ [ev])).

(** [l[i]] on a Python list, for [i >= 0]. *)
Definition list_get {A} (l : list A) (i : nat) : M A :=
  match l !! i with
  | Some x => ret x
  | None => raise IndexError
  end.

(** [m.obsm[k]] *)
Definition obsm_get (m : nat) (k : string) : M Coords :=
  a <- deref m ;;
  match obsm a !! k with
  | Some c => ret c
  | None => raise (KeyError (Some k))
  end.

(** [m.obsm[k] = c] *)
Definition obsm_set (m : nat) (k : string) (c : Coords) : M unit :=
  a <- deref m ;; assign m (with_obsm a k c).

(** [m.uns[k]]; nothing is ever stored under the key [None]. *)
Definition uns_get (m : nat) (k : option string) : M PyRef :=
  a <- deref m ;;
  match k ≫= fun k => uns a !! k with
  | Some r => ret r
  | None => raise (KeyError k)
  end.

(** [m.uns[k] = r] *)
Definition uns_set (m : nat) (k : string) (r : PyRef) : M unit :=
  a <- deref m ;; assign m (with_uns a k r).

(** [m.obs[k]] *)
Definition obs_get (m : nat) (k : string) : M ObsCol :=
  a <- deref m ;;
  match obs a !! k with
  | Some c => ret c
  | None => raise (KeyError (Some k))
  end.

(** [col.cat.categories], with the values of the column: the [.cat]
    accessor exists on categorical columns only. *)
Definition cat_accessor (col : ObsCol) : M (list string * list (option string)) :=
  match col with
  | CatCol cs vs => ret (cs, vs)
  | PlainCol _ => raise AttributeError
  end.

(** [AnnData.copy()] (anndata): a new object; the arrays of [.obsm] and the
    columns of [.obs] are copied by value and [.uns] is deep-copied, each
    object in it getting a new identity (the same new one for the same old
    one, as [deepcopy] keeps sharing inside what it copies). *)
Definition oid_bound (u : gmap string PyRef) : nat :=
  map_fold (fun _ r m => Nat.max (S (oid r)) m) 0 u.

Definition copy_value (base : nat) (a : AnnData) : AnnData :=
  mkAnnData (X a) (obs a) (obsm a)
            ((fun r => mkPyRef (base + oid r) (oval r)) <$> uns a).

Definition copy (m : nat) : M nat :=
  fun w => match store w !! m with
           | None => Raise DanglingRef w
           | Some a =>
               let n := next_id w in
               Ok n (mkWorld (<[n := copy_value (S n) a]> (store w))
                             (S n + oid_bound (uns a))
                             (trace w))
           end.

(** *** The external primitives *)

Variable Register :
  Opts -> string -> AnnData -> AnnData -> option Matrix -> ExtErr + RegisterOut.
Variable Transform : PyObj -> Coords -> ExtErr + TransformOut.
Variable TransformAndAssign :
  Opts -> AnnData -> AnnData -> PyObj -> string -> ExtErr + Pi * Coords.
Variable Downsample :
  option nat -> string -> string -> list AnnData -> ExtErr + list AnnData.

(** Modelled from the spec: [BA_align] of [spateo/alignment/methods] is
    missing from the sources.  Its fit is the parameter [Register], computed
    from the two samples, the slot [spatial_key] names, the hyper-parameters
    and the extra similarity term.  Called with [inplace=True] it leaves its
    outputs on sample B: the updated coordinates under [key_added], the
    fitted deformation field (a new object) under [vecfld_key_added] and the
    iteration history under [iter_key_added], the last two only when the key
    is not [None]; it returns the assignment matrix and the variance
    estimate. *)
Definition BA_align (opts : Opts) (sampleA sampleB : nat)
    (spatial_key key_added : string)
    (iter_key_added vecfld_key_added : option string)
    (added_similarity : option Matrix) : M (Pi * Sigma2) :=
  A <- deref sampleA ;;
  B <- deref sampleB ;;
  let res := Register opts spatial_key A B added_similarity in
  log (EvRegister sampleA sampleB spatial_key added_similarity res) ;;;
  match res with
  | inl e => raise (External e)
  | inr out =>
      fid <- fresh ;;
      hid <- fresh ;;
      assign sampleB
        (with_uns_opt
           (with_uns_opt (with_obsm B key_added (reg_coords out))
                         vecfld_key_added (mkPyRef fid (reg_field out)))
           iter_key_added (mkPyRef hid (reg_history out))) ;;;
      ret (reg_P out, reg_sigma2 out)
  end.

(** Modelled from the spec: [BA_transform] of [spateo/alignment/transform]
    is missing from the sources; it applies a fitted field to query points
    and changes no sample. *)
Definition BA_transform (vecfld : PyRef) (quary_points : Coords) : M TransformOut :=
  let res := Transform (oval vecfld) quary_points in
  log (EvTransform vecfld quary_points res) ;;;
  match res with
  | inl e => raise (External e)
  | inr out => ret out
  end.

(** Modelled from the spec: [BA_transform_and_assignment] of
    [spateo/alignment/transform] is missing from the sources; it reads the
    two samples [[B, A]] and the field and returns an assignment matrix and
    the transformed points of B. *)
Definition BA_transform_and_assignment (opts : Opts) (sampleB sampleA : nat)
    (vecfld : PyRef) (spatial_key : string) : M (Pi * Coords) :=
  B <- deref sampleB ;;
  A <- deref sampleA ;;
  let res := TransformAndAssign opts B A (oval vecfld) spatial_key in
  log (EvTransformAssign sampleB sampleA vecfld res) ;;;
  match res with
  | inl e => raise (External e)
  | inr out => ret out
  end.

(** [x = AnnData(...)]: a new object holding [a]. *)
Definition new_object (a : AnnData) : M nat :=
  n <- fresh ;; assign n a ;;; ret n.

(** Modelled from the spec: [downsampling] of [spateo/alignment/utils] is
    missing from the sources; it returns one reduced sample, a new object,
    per sample it is given. *)
Definition downsampling (models : list nat) (n_sampling : option nat)
    (sampling_method spatial_key : string) : M (list nat) :=
  vals <- map_M deref models ;;
  log (EvDownsampling models) ;;;
  match Downsample n_sampling sampling_method spatial_key vals with
  | inl e => raise (External e)
  | inr reduced => map_M new_object reduced
  end.

(** Modelled from the spec: [empty_cache] of [spateo/alignment/methods] is
    missing from the sources; a resource-cleanup hook with no effect on the
    samples. *)
Definition empty_cache : M unit := log EvEmptyCache.

(** ** [morpho_align] (lines 16-118) *)

(** [m.obsm[key] = m.obsm[spatial_key]] *)
Definition seed_slot (key spatial_key : string) (m : nat) : M unit :=
  c <- obsm_get m spatial_key ;; obsm_set m key c.

(** Lines 57-64: four loops over the list the caller passed. *)
Definition seed_models (models : list nat) (spatial_key key_added : string) : M unit :=
  for_each models (seed_slot key_added spatial_key) ;;;
  for_each models (seed_slot "Rigid_3d_align_spatial" spatial_key) ;;;
  for_each models (seed_slot "Coarse_alignment" spatial_key) ;;;
  for_each models (seed_slot "optimal_RnA" spatial_key).

(** Lines 74-86. *)
Definition label_similarity (i modelA modelB : nat) (label_key : string) : M Matrix :=
  catA <- obs_get modelA label_key ;;
  catB <- obs_get modelB label_key ;;
  cA <- cat_accessor catA ;;
  cB <- cat_accessor catB ;;
  let UnionCategories := union1d (fst cA) (fst cB) in
  let codes := label_codes UnionCategories (snd cA) (snd cB) in
  match LabelSimMat i (fst codes) (snd codes) with
  | Some M => ret M
  | None => raise IndexError
  end.

(** The local result lists of [morpho_align]. *)
Record Results := mkResults {
  pis : list Pi;
  sigma2s : list Sigma2
}.

(** Lines 70-116: the body of the pair loop. *)
Definition align_pair (opts : Opts) (spatial_key key_added : string)
    (iter_key_added vecfld_key_added label_key : option string)
    (align_models : list nat) (i : nat) (acc : Results) : M Results :=
  modelA <- list_get align_models i ;;
  modelB <- list_get align_models (i + 1) ;;
  sim <- match label_key with
         | Some lk => S <- label_similarity i modelA modelB lk ;; ret (Some S)
         | None => ret None
         end ;;
  r <- BA_align opts modelA modelB "optimal_RnA" key_added
                iter_key_added vecfld_key_added sim ;;
  vecfld <- uns_get modelB vecfld_key_added ;;
  quary_points <- obsm_get modelB spatial_key ;;
  out <- BA_transform vecfld quary_points ;;
  obsm_set modelB "Rigid_align_spatial" (tr_rigid out) ;;;
  empty_cache ;;;
  ret (mkResults (pis acc ++ [fst r]) (sigma2s acc ++ [snd r])).

(** The first [n] iterations of the pair loop (lines 69-116), starting from
    empty result lists; the source runs [len(align_models) - 1] of them. *)
Definition align_chain (opts : Opts) (spatial_key key_added : string)
    (iter_key_added vecfld_key_added label_key : option string)
    (align_models : list nat) (n : nat) : M Results :=
  for_loop (_iteration n)
           (align_pair opts spatial_key key_added iter_key_added
                       vecfld_key_added label_key align_models)
           (mkResults [] []).

Definition morpho_align (models : list nat) (opts : Opts)
    (spatial_key key_added : string)
    (iter_key_added vecfld_key_added label_key : option string)
  : M (list nat * list Pi * list Sigma2) :=
  seed_models models spatial_key key_added ;;;
  align_models <- map_M copy models ;;
  r <- align_chain opts spatial_key key_added iter_key_added
                   vecfld_key_added label_key align_models
                   (length align_models - 1) ;;
  ret (align_models, pis r, sigma2s r).

(** ** [morpho_align_ref] (lines 121-238) *)

(** The local variables the pair loop of [morpho_align_ref] updates. *)
Record RefResults := mkRefResults {
  r_align_models_ref : list nat;
  r_pis : list Pi;
  r_pis_ref : list Pi;
  r_sigma2s : list Sigma2
}.

(** Lines 216-234: the two ways back to the full-resolution sample. *)
Definition back_project (opts : Opts) (spatial_key key_added : string)
    (vecfld_key_added : option string) (return_full_assignment : bool)
    (modelA modelB modelB_ref : nat) (P : Pi) : M Pi :=
  if return_full_assignment then
    vecfld <- uns_get modelB_ref vecfld_key_added ;;
    out <- BA_transform_and_assignment opts modelB modelA vecfld spatial_key ;;
    obsm_set modelB key_added (snd out) ;;;
    ret (fst out)
  else
    vecfld <- uns_get modelB_ref vecfld_key_added ;;
    quary_points <- obsm_get modelB spatial_key ;;
    out <- BA_transform vecfld quary_points ;;
    obsm_set modelB key_added (tr_nonrigid out) ;;;
    obsm_set modelB "Rigid_align_spatial" (tr_rigid out) ;;;
    ret P.

(** Lines 189-236: the body of the pair loop. *)
Definition align_ref_pair (opts : Opts) (spatial_key key_added : string)
    (iter_key_added vecfld_key_added : option string)
    (return_full_assignment : bool)
    (align_models : list nat) (i : nat) (acc : RefResults) : M RefResults :=
  modelA_ref <- list_get (r_align_models_ref acc) i ;;
  modelB_ref <- list_get (r_align_models_ref acc) (i + 1) ;;
  r <- BA_align opts modelA_ref modelB_ref key_added key_added
                iter_key_added vecfld_key_added None ;;
  let align_models_ref := <[i + 1 := modelB_ref]> (r_align_models_ref acc) in
  modelA <- list_get align_models i ;;
  modelB <- list_get align_models (i + 1) ;;
  shared <- uns_get modelB_ref vecfld_key_added ;;
  match vecfld_key_added with
  | Some k => uns_set modelB k shared
  | None => raise (KeyError None)
  end ;;;
  P <- back_project opts spatial_key key_added vecfld_key_added
                    return_full_assignment modelA modelB modelB_ref (fst r) ;;
  ret (mkRefResults align_models_ref (r_pis acc ++ [P])
                    (r_pis_ref acc ++ [fst r]) (r_sigma2s acc ++ [snd r])).

(** Lines 182-186: the copies and the seeding before the pair loop. *)
Definition ref_setup (models models_ref : list nat)
    (spatial_key key_added : string) : M (list nat * list nat) :=
  align_models <- map_M copy models ;;
  align_models_ref <- map_M copy models_ref ;;
  for_each align_models_ref (seed_slot key_added spatial_key) ;;;
  first <- list_get align_models 0 ;;
  seed_slot key_added spatial_key first ;;;
  ret (align_models, align_models_ref).

(** Lines 172-179. *)
Definition reference_models (models : list nat) (models_ref : option (list nat))
    (n_sampling : option nat) (sampling_method spatial_key : string) : M (list nat) :=
  match models_ref with
  | None =>
      models_sampling <- map_M copy models ;;
      downsampling models_sampling n_sampling sampling_method spatial_key
  | Some given => ret given
  end.

(** The first [n] iterations of the pair loop (lines 188-236); the source
    runs [len(align_models) - 1] of them. *)
Definition ref_chain (opts : Opts) (spatial_key key_added : string)
    (iter_key_added vecfld_key_added : option string)
    (return_full_assignment : bool)
    (align_models align_models_ref : list nat) (n : nat) : M RefResults :=
  for_loop (_iteration n)
           (align_ref_pair opts spatial_key key_added iter_key_added
                           vecfld_key_added return_full_assignment align_models)
           (mkRefResults align_models_ref [] [] []).

Definition morpho_align_ref (models : list nat) (models_ref : option (list nat))
    (n_sampling : option nat) (sampling_method : string) (opts : Opts)
    (spatial_key key_added : string)
    (iter_key_added vecfld_key_added : option string)
    (return_full_assignment : bool)
  : M (list nat * list nat * list Pi * list Pi * list Sigma2) :=
  models_ref <- reference_models models models_ref n_sampling sampling_method
                                 spatial_key ;;
  lists <- ref_setup models models_ref spatial_key key_added ;;
  r <- ref_chain opts spatial_key key_added iter_key_added vecfld_key_added
                 return_full_assignment (fst lists) (snd lists)
                 (length (fst lists) - 1) ;;
  ret (fst lists, r_align_models_ref r, r_pis r, r_pis_ref r, r_sigma2s r).

(** * Vocabulary of the specifications *)

(** The sample B as [BA_align] leaves it, the field and the history
    getting the identities [n] and [n + 1]. *)
Definition registered (B : AnnData) (key_added : string)
    (iter_key_added vecfld_key_added : option string)
    (n : nat) (out : RegisterOut) : AnnData :=
  with_uns_opt
    (with_uns_opt (with_obsm B key_added (reg_coords out))
                  vecfld_key_added (mkPyRef n (reg_field out)))
    iter_key_added (mkPyRef (S n) (reg_history out)).

(** [wp m Q E w]: run from [w], [m] either returns a value and a world that
    satisfy [Q] or raises an exception in a world that satisfies [E]. *)
Definition wp {A} (m : M A) (Q : A -> World -> Prop) (E : Exn -> World -> Prop)
    (w : World) : Prop :=
  match m w with
  | Ok a w' => Q a w'
  | Raise e w' => E e w'
  end.

(** The calls of [BA_align] recorded in a trace, oldest first. *)
Definition registrations (tr : list Event) : list (nat * nat * (ExtErr + RegisterOut)) :=
  omap (fun ev => match ev with
                  | EvRegister a b _ _ res => Some (a, b, res)
                  | _ => None
                  end) tr.

(** The calls of [BA_transform] recorded in a trace. *)
Definition transforms (tr : list Event) : list (PyRef * Coords * (ExtErr + TransformOut)) :=
  omap (fun ev => match ev with
                  | EvTransform f q res => Some (f, q, res)
                  | _ => None
                  end) tr.

(** The calls of [BA_transform_and_assignment] recorded in a trace. *)
Definition assignments (tr : list Event) : list (nat * nat * PyRef * (ExtErr + Pi * Coords)) :=
  omap (fun ev => match ev with
                  | EvTransformAssign b a f res => Some (b, a, f, res)
                  | _ => None
                  end) tr.

(** Every object of the store was allocated: its identity is below the
    allocation counter. *)
Definition wf (w : World) : Prop :=
  forall l, is_Some (store w !! l) -> l < next_id w.

(** The four slots lines 57-64 write. *)
Definition seeded_slots (key_added : string) : list string :=
  [key_added; "Rigid_3d_align_spatial"; "Coarse_alignment"; "optimal_RnA"].

(** What a completed iteration [i] did, from world [w] to world [w']. *)
Definition pair_done (opts : Opts) (sk ka : string) (ik vk lk : option string)
    (ams : list nat) (i : nat) (acc : Results) (w : World)
    (acc' : Results) (w' : World) : Prop :=
  exists a b A B sim out fld q tout,
    ams !! i = Some a /\ ams !! (i + 1) = Some b /\
    store w !! a = Some A /\ store w !! b = Some B /\
    match lk with
    | None => sim = None
    | Some l =>
        exists csA vsA csB vsB S,
          obs A !! l = Some (CatCol csA vsA) /\ obs B !! l = Some (CatCol csB vsB) /\
          LabelSimMat i (fst (label_codes (union1d csA csB) vsA vsB))
                        (snd (label_codes (union1d csA csB) vsA vsB)) = Some S /\
          sim = Some S
    end /\
    Register opts "optimal_RnA" A B sim = inr out /\
    (vk ≫= fun k => uns (registered B ka ik vk (next_id w) out) !! k) = Some fld /\
    obsm (registered B ka ik vk (next_id w) out) !! sk = Some q /\
    Transform (oval fld) q = inr tout /\
    w' = mkWorld (<[b := with_obsm (registered B ka ik vk (next_id w) out)
                                   "Rigid_align_spatial" (tr_rigid tout)]> (store w))
                 (S (S (next_id w)))
                 (trace w ++ [EvRegister a b "optimal_RnA" sim (inr out);
                              EvTransform fld q (inr tout); EvEmptyCache]) /\
    acc' = mkResults (pis acc ++ [reg_P out]) (sigma2s acc ++ [reg_sigma2 out]).

(** What an iteration that raised may have done: the store is as it was
    or has sample B registered, and at most one call of [BA_align] was
    made. *)
Definition pair_failed (w w' : World) : Prop :=
  exists evs, trace w' = trace w ++ evs /\ length (registrations evs) <= 1.

(** How seeding may change a world: no object appears or disappears, nothing
    is logged, and every slot of every sample keeps its value or takes the
    value the sample's [spatial_key] slot had at the start. *)
Definition seed_rel (sk : string) (w0 w1 : World) : Prop :=
  next_id w1 = next_id w0 /\ trace w1 = trace w0 /\
  forall l,
    match store w0 !! l, store w1 !! l with
    | Some A0, Some A1 =>
        X A1 = X A0 /\ obs A1 = obs A0 /\ uns A1 = uns A0 /\
        forall k, obsm A1 !! k = obsm A0 !! k \/
                  (obsm A1 !! k = obsm A0 !! sk /\ is_Some (obsm A0 !! sk))
    | None, None => True
    | _, _ => False
    end.

(** Slot [key] of sample [m] holds in [w1] the raw coordinates [m] had in
    [w0]. *)
Definition slot_seeded (sk key : string) (m : nat) (w0 w1 : World) : Prop :=
  exists A0 A1 raw,
    store w0 !! m = Some A0 /\ store w1 !! m = Some A1 /\
    obsm A0 !! sk = Some raw /\ obsm A1 !! key = Some raw.

(** Objects below [n] are in [w'] what they were in [w]. *)
Definition frame (n : nat) (w w' : World) : Prop :=
  next_id w <= next_id w' /\ forall l, l < n -> store w' !! l = store w !! l.

(** [ams] are the copies of [models], made from world [w] on. *)
Definition copies_of (models : list nat) (w : World) (ams : list nat) (w' : World) : Prop :=
  length ams = length models /\
  trace w' = trace w /\
  frame (next_id w) w w' /\
  (wf w -> wf w') /\
  (forall j k c d, j < k -> ams !! j = Some c -> ams !! k = Some d -> c < d) /\
  forall k c, ams !! k = Some c ->
    next_id w <= c < next_id w' /\
    exists m A base, models !! k = Some m /\
                     store w' !! c = Some (copy_value base A) /\
                     (m < next_id w -> store w !! m = Some A).

(** What one completed pair left behind. *)
Record PairLog := mkPairLog {
  pl_a : nat;
  pl_b : nat;
  pl_sim : option Matrix;
  pl_out : RegisterOut;
  pl_fld : PyRef;
  pl_query : Coords;
  pl_tout : TransformOut;
  pl_id : nat
}.

(** The state after [t] completed iterations, started in world [w0] on the
    copies [ams]. *)
Definition chain_done (sk ka : string) (ik vk lk : option string) (ams : list nat)
    (w0 : World) (t : nat) (acc : Results) (w : World) : Prop :=
  exists (logs : list PairLog) (evs : list Event),
    length logs = t /\
    pis acc = map (fun lg => reg_P (pl_out lg)) logs /\
    sigma2s acc = map (fun lg => reg_sigma2 (pl_out lg)) logs /\
    trace w = trace w0 ++ evs /\
    registrations evs = map (fun lg => (pl_a lg, pl_b lg, inr (pl_out lg))) logs /\
    transforms evs = map (fun lg => (pl_fld lg, pl_query lg, inr (pl_tout lg))) logs /\
    next_id w0 <= next_id w /\
    (forall l, (forall j, j < t -> ams !! S j <> Some l) ->
               store w !! l = store w0 !! l) /\
    forall j lg, logs !! j = Some lg ->
      ams !! j = Some (pl_a lg) /\ ams !! S j = Some (pl_b lg) /\
      (lk = None -> pl_sim lg = None) /\
      exists C,
        store w0 !! pl_b lg = Some C /\
        store w !! pl_b lg =
          Some (with_obsm (registered C ka ik vk (pl_id lg) (pl_out lg))
                          "Rigid_align_spatial" (tr_rigid (pl_tout lg))) /\
        (vk ≫= fun k => uns (registered C ka ik vk (pl_id lg) (pl_out lg)) !! k)
          = Some (pl_fld lg) /\
        obsm (registered C ka ik vk (pl_id lg) (pl_out lg)) !! sk
          = Some (pl_query lg) /\
        Transform (oval (pl_fld lg)) (pl_query lg) = inr (pl_tout lg).

(** A run that raised made at most [n] calls of [BA_align]. *)
Definition chain_failed (w0 : World) (n : nat) (w : World) : Prop :=
  exists evs, trace w = trace w0 ++ evs /\ length (registrations evs) <= n.

(** What the back-projection of lines 216-234 did for the full-resolution
    pair [(a, b)], where [B] is sample B carrying the shared field [fld]
    and [w2] is the world it ran in: the event it logged, the assignment
    matrix kept, and sample B afterwards. *)
Definition back_projected (opts : Opts) (sk ka : string) (full : bool)
    (a b : nat) (B : AnnData) (fld : PyRef) (P0 : Pi) (w2 : World)
    (ev : Event) (P : Pi) (B' : AnnData) : Prop :=
  if full then
    exists A2 out2,
      store w2 !! a = Some A2 /\
      TransformAndAssign opts B A2 (oval fld) sk = inr out2 /\
      ev = EvTransformAssign b a fld (inr out2) /\
      P = fst out2 /\
      B' = with_obsm B ka (snd out2)
  else
    exists q tout,
      obsm B !! sk = Some q /\
      Transform (oval fld) q = inr tout /\
      ev = EvTransform fld q (inr tout) /\
      P = P0 /\
      B' = with_obsm (with_obsm B ka (tr_nonrigid tout))
                     "Rigid_align_spatial" (tr_rigid tout).

(** What a completed iteration [i] did, from world [w] to world [w']. *)
Definition ref_pair_done (opts : Opts) (sk ka : string) (ik vk : option string)
    (full : bool) (ams : list nat) (i : nat) (acc : RefResults) (w : World)
    (acc' : RefResults) (w' : World) : Prop :=
  exists aref bref Aref Bref out a b B key fld ev P B',
    r_align_models_ref acc !! i = Some aref /\
    r_align_models_ref acc !! (i + 1) = Some bref /\
    store w !! aref = Some Aref /\ store w !! bref = Some Bref /\
    Register opts ka Aref Bref None = inr out /\
    ams !! i = Some a /\ ams !! (i + 1) = Some b /\
    vk = Some key /\
    uns (registered Bref ka ik vk (next_id w) out) !! key = Some fld /\
    <[bref := registered Bref ka ik vk (next_id w) out]> (store w) !! b = Some B /\
    back_projected opts sk ka full a b (with_uns B key fld) fld (reg_P out)
      (mkWorld (<[b := with_uns B key fld]>
                  (<[bref := registered Bref ka ik vk (next_id w) out]> (store w)))
               (S (S (next_id w)))
               (trace w ++ [EvRegister aref bref ka None (inr out)]))
      ev P B' /\
    w' = mkWorld (<[b := B']>
                    (<[bref := registered Bref ka ik vk (next_id w) out]> (store w)))
                 (S (S (next_id w)))
                 (trace w ++ [EvRegister aref bref ka None (inr out); ev]) /\
    acc' = mkRefResults (r_align_models_ref acc) (r_pis acc ++ [P])
                        (r_pis_ref acc ++ [reg_P out])
                        (r_sigma2s acc ++ [reg_sigma2 out]).

(** Whatever an iteration did, it wrote to objects of the two lists only. *)
Definition touched_only (ls : list nat) (w w' : World) : Prop :=
  next_id w <= next_id w' /\
  forall l, l ∉ ls -> store w' !! l = store w !! l.

(** Seeding a list of distinct samples: each gets the slot, nothing else
    changes. *)
Definition seeded_exactly (key sk : string) (ls : list nat) (w w' : World) : Prop :=
  next_id w' = next_id w /\ trace w' = trace w /\
  (forall l, l ∉ ls -> store w' !! l = store w !! l) /\
  forall c, c ∈ ls ->
    exists C raw, store w !! c = Some C /\ obsm C !! sk = Some raw /\
                  store w' !! c = Some (with_obsm C key raw).

(** The two lists of copies when the pair loop of [morpho_align_ref]
    starts. *)
Definition ref_ready (models models_ref : list nat) (sk ka : string)
    (w : World) (ams refs : list nat) (w1 : World) : Prop :=
  length ams = length models /\ length refs = length models_ref /\
  trace w1 = trace w /\
  frame (next_id w) w w1 /\
  (wf w -> wf w1) /\
  NoDup (ams ++ refs) /\
  (forall c, c ∈ ams ++ refs -> next_id w <= c < next_id w1) /\
  (forall k c, ams !! k = Some c ->
     exists m A base,
       models !! k = Some m /\ (m < next_id w -> store w !! m = Some A) /\
       if decide (k = 0)
       then exists raw, obsm A !! sk = Some raw /\
                        store w1 !! c = Some (with_obsm (copy_value base A) ka raw)
       else store w1 !! c = Some (copy_value base A)) /\
  (forall k c, refs !! k = Some c ->
     exists m A base raw,
       models_ref !! k = Some m /\ (m < next_id w -> store w !! m = Some A) /\
       obsm A !! sk = Some raw /\
       store w1 !! c = Some (with_obsm (copy_value base A) ka raw)).

(** What one completed pair left behind. *)
Record RefLog := mkRefLog {
  rl_aref : nat;
  rl_bref : nat;
  rl_a : nat;
  rl_b : nat;
  rl_out : RegisterOut;
  rl_fld : PyRef;
  rl_ev : Event;
  rl_P : Pi;
  rl_id : nat
}.

Definition ref_events (ka : string) (lg : RefLog) : list Event :=
  [EvRegister (rl_aref lg) (rl_bref lg) ka None (inr (rl_out lg)); rl_ev lg].

(** Pair [j] is done and [lg] describes it: the samples it worked on, and
    what it left on sample [j+1] of both chains. *)
Definition ref_pair_logged (opts : Opts) (sk ka : string) (ik vk : option string)
    (full : bool) (ams refs : list nat) (w0 w : World) (j : nat) (lg : RefLog) : Prop :=
  refs !! j = Some (rl_aref lg) /\ refs !! S j = Some (rl_bref lg) /\
  ams !! j = Some (rl_a lg) /\ ams !! S j = Some (rl_b lg) /\
  exists Cref C key B' w2,
    store w0 !! rl_bref lg = Some Cref /\ store w0 !! rl_b lg = Some C /\
    vk = Some key /\
    uns (registered Cref ka ik vk (rl_id lg) (rl_out lg)) !! key = Some (rl_fld lg) /\
    store w !! rl_bref lg = Some (registered Cref ka ik vk (rl_id lg) (rl_out lg)) /\
    store w !! rl_b lg = Some B' /\
    back_projected opts sk ka full (rl_a lg) (rl_b lg)
      (with_uns C key (rl_fld lg)) (rl_fld lg) (reg_P (rl_out lg)) w2
      (rl_ev lg) (rl_P lg) B'.

(** The state after [t] completed iterations, started in world [w0] on the
    copies [ams] and [refs]. *)
Definition ref_chain_done (opts : Opts) (sk ka : string) (ik vk : option string)
    (full : bool) (ams refs : list nat) (w0 : World) (t : nat)
    (acc : RefResults) (w : World) : Prop :=
  exists logs : list RefLog,
    length logs = t /\
    r_align_models_ref acc = refs /\
    r_pis acc = map rl_P logs /\
    r_pis_ref acc = map (fun lg => reg_P (rl_out lg)) logs /\
    r_sigma2s acc = map (fun lg => reg_sigma2 (rl_out lg)) logs /\
    trace w = trace w0 ++ concat (map (ref_events ka) logs) /\
    next_id w0 <= next_id w /\
    (forall l, (forall j, j < t -> ams !! S j <> Some l /\ refs !! S j <> Some l) ->
               store w !! l = store w0 !! l) /\
    forall j lg, logs !! j = Some lg ->
                 ref_pair_logged opts sk ka ik vk full ams refs w0 w j lg.

(** How [reference_models] got the reference list [given]. *)
Definition refs_made (models : list nat) (models_ref : option (list nat))
    (n_sampling : option nat) (sampling_method sk : string)
    (w : World) (given : list nat) (w' : World) : Prop :=
  frame (next_id w) w w' /\ (wf w -> wf w') /\
  (exists pre, trace w' = trace w ++ pre /\ registrations pre = [] /\
               transforms pre = [] /\ assignments pre = []) /\
  match models_ref with
  | Some g => given = g /\ w' = w
  | None =>
      exists vals reduced,
        Downsample n_sampling sampling_method sk vals = inr reduced /\
        length vals = length models /\ length given = length reduced
  end.

(** The fields handed to the back-projection calls recorded in a trace. *)
Definition back_fields (tr : list Event) : list PyRef :=
  omap (fun ev => match ev with
                  | EvTransform f _ _ => Some f
                  | EvTransformAssign _ _ f _ => Some f
                  | _ => None
                  end) tr.

(** The back-projection event of a completed pair, by mode. *)
Definition back_event_of (full : bool) (lg : RefLog) : Prop :=
  if full then
    exists out2, rl_ev lg = EvTransformAssign (rl_b lg) (rl_a lg) (rl_fld lg) (inr out2) /\
                 rl_P lg = fst out2
  else
    exists q tout, rl_ev lg = EvTransform (rl_fld lg) q (inr tout) /\
                   rl_P lg = reg_P (rl_out lg).

(** Sample [m] is in the store and has the slot [sk]. *)
Definition has_slot (sk : string) (w : World) (m : nat) : Prop :=
  exists A, store w !! m = Some A /\ is_Some (obsm A !! sk).

(** ** Closed forms and footprints *)

(** The position of a category in a list of categories. *)
Fixpoint index_of (c : string) (l : list string) : option nat :=
  match l with
  | [] => None
  | x :: t => if decide (x = c) then Some 0 else S <$> index_of c t
  end.

(** The code lines 77-82 give a point whose label is [v]: its category's
    position in the sorted union, [-1] for the category ["unknown"], and
    the initial [0] when the label is missing or not a category. *)
Definition category_code (categories : list string) (v : option string) : Z :=
  match v with
  | None => 0%Z
  | Some c =>
      match index_of c categories with
      | Some n => if String.eqb c "unknown" then (-1)%Z else Z.of_nat n
      | None => 0%Z
      end
  end.

(** A list of strings in strictly increasing order. *)
Definition increasing (l : list string) : Prop :=
  forall i j x y, i < j -> l !! i = Some x -> l !! j = Some y ->
                  String.compare x y = Lt.

(** The world a run ends in, returned or raised. *)
Definition final_world {A} (r : Res A) : World :=
  match r with
  | Ok _ w => w
  | Raise _ w => w
  end.

(** Where seeding may write: on the samples of [models] only, in [.obsm]
    only, and there under the keys [keys] only; the slot [sk] keeps its
    value even when it is one of the keys. *)
Definition seed_footprint (models : list nat) (sk : string) (keys : list string)
    (w0 w1 : World) : Prop :=
  (forall l, l ∉ models -> store w1 !! l = store w0 !! l) /\
  forall l A0, store w0 !! l = Some A0 ->
    exists A1, store w1 !! l = Some A1 /\
               X A1 = X A0 /\ obs A1 = obs A0 /\ uns A1 = uns A0 /\
               obsm A1 !! sk = obsm A0 !! sk /\
               forall k, k ∉ keys -> obsm A1 !! k = obsm A0 !! k.

(** The calls one completed pair of [morpho_align] makes, in order. *)
Definition pair_events (lg : PairLog) : list Event :=
  [EvRegister (pl_a lg) (pl_b lg) "optimal_RnA" (pl_sim lg) (inr (pl_out lg));
   EvTransform (pl_fld lg) (pl_query lg) (inr (pl_tout lg));
   EvEmptyCache].

(** Objects only gain slots from [w] to [w']: each object of [w] is still
    there, with every [.obsm] and [.uns] key it had. *)
Definition grows (w w' : World) : Prop :=
  forall l A, store w !! l = Some A ->
    exists A', store w' !! l = Some A' /\
               (forall k, is_Some (obsm A !! k) -> is_Some (obsm A' !! k)) /\
               (forall k, is_Some (uns A !! k) -> is_Some (uns A' !! k)).

(** Sample [m] is in the store and has the entry [key] in [.uns]. *)
Definition has_field (key : string) (w : World) (m : nat) : Prop :=
  exists A, store w !! m = Some A /\ is_Some (uns A !! key).

(** The back-projection primitive of the chosen mode never fails. *)
Definition back_projection_total (return_full_assignment : bool) : Prop :=
  if return_full_assignment
  then forall o X Y f s, exists out, TransformAndAssign o X Y f s = inr out
  else forall f q, exists out, Transform f q = inr out.

(** A call of [BA_align] with the two samples as they were when it was
    made. *)
Record RegCall := mkRegCall {
  rc_a : nat;
  rc_b : nat;
  rc_A : AnnData;
  rc_B : AnnData;
  rc_out : RegisterOut
}.

Definition reg_of (c : RegCall) : nat * nat * (ExtErr + RegisterOut) :=
  (rc_a c, rc_b c, inr (rc_out c)).

(** The calls of [BA_align] along the reference chain [refs], started in
    world [w0]: call [j] is on reference samples [j] and [j+1]; its sample
    B is as it was in [w0]; its sample A is as it was in [w0] for the first
    call and afterwards carries, under [key_added], the coordinates the
    call before returned. *)
Definition chain_linked (opts : Opts) (ka : string) (refs : list nat) (w0 : World)
    (calls : list RegCall) : Prop :=
  forall j c, calls !! j = Some c ->
    refs !! j = Some (rc_a c) /\ refs !! S j = Some (rc_b c) /\
    Register opts ka (rc_A c) (rc_B c) None = inr (rc_out c) /\
    store w0 !! rc_b c = Some (rc_B c) /\
    match j with
    | 0 => store w0 !! rc_a c = Some (rc_A c)
    | S j' => exists c', calls !! j' = Some c' /\
                         obsm (rc_A c) !! ka = Some (reg_coords (rc_out c'))
    end.

(** * Reasoning about runs *)

Lemma wp_bind {A B} (m : M A) (f : A -> M B) Q E w :
  wp m (fun a w' => wp (f a) Q E w') E w -> wp (bind m f) Q E w.
Proof. unfold wp, bind. destruct (m w); auto. Qed.

Lemma wp_ret {A} (a : A) (Q : A -> World -> Prop) E w : Q a w -> wp (ret a) Q E w.
Proof. auto. Qed.

Lemma wp_raise {A} e (Q : A -> World -> Prop) (E : Exn -> World -> Prop) w :
  E e w -> wp (raise e) Q E w.
Proof. auto. Qed.

Lemma wp_mono {A} (m : M A) (Q Q' : A -> World -> Prop) (E E' : Exn -> World -> Prop) w :
  wp m Q E w ->
  (forall a w', Q a w' -> Q' a w') ->
  (forall e w', E e w' -> E' e w') ->
  wp m Q' E' w.
Proof. unfold wp. destruct (m w); auto. Qed.

Lemma wp_Ok {A} (m : M A) Q E w a w' : wp m Q E w -> m w = Ok a w' -> Q a w'.
Proof. unfold wp. intros H Hm. by rewrite Hm in H. Qed.

Lemma wp_Raise {A} (m : M A) Q E w e w' : wp m Q E w -> m w = Raise e w' -> E e w'.
Proof. unfold wp. intros H Hm. by rewrite Hm in H. Qed.

Lemma wp_intro {A} (m : M A) (Q : A -> World -> Prop) (E : Exn -> World -> Prop) w :
  (forall a w', m w = Ok a w' -> Q a w') ->
  (forall e w', m w = Raise e w' -> E e w') ->
  wp m Q E w.
Proof. unfold wp. destruct (m w); auto. Qed.

Lemma wp_and {A} (m : M A) (Q1 Q2 : A -> World -> Prop) (E1 E2 : Exn -> World -> Prop) w :
  wp m Q1 E1 w -> wp m Q2 E2 w ->
  wp m (fun a w' => Q1 a w' /\ Q2 a w') (fun e w' => E1 e w' /\ E2 e w') w.
Proof. unfold wp. destruct (m w); auto. Qed.

Lemma bind_Ok {A B} (m : M A) (f : A -> M B) w b w' :
  bind m f w = Ok b w' -> exists a w1, m w = Ok a w1 /\ f a w1 = Ok b w'.
Proof. unfold bind. destruct (m w) eqn:Hm; [eauto | discriminate]. Qed.

(** *** Loops *)

Lemma for_each_wp {A} (I : list A -> World -> Prop) (E : Exn -> World -> Prop)
    (body : A -> M unit) (l : list A) w :
  I [] w ->
  (forall pre x w1, (exists post, l = pre ++ x :: post) -> I pre w1 ->
     wp (body x) (fun _ w2 => I (pre ++ [x]) w2) E w1) ->
  wp (for_each l body) (fun _ w' => I l w') E w.
Proof.
  intros H0 Hbody.
  cut (forall post pre w1, l = pre ++ post -> I pre w1 ->
         wp (for_each post body) (fun _ w' => I l w') E w1).
  { intros Hcut. apply (Hcut l [] w); auto. }
  induction post as [|x post IH]; intros pre w1 Hl HI; simpl.
  - rewrite app_nil_r in Hl. subst. by apply wp_ret.
  - apply wp_bind. eapply wp_mono; [apply (Hbody pre x w1); eauto | | auto].
    intros [] w2 HI2. apply (IH (pre ++ [x])); [|done].
    by rewrite <- app_assoc.
Qed.

Lemma map_M_wp {A B} (I : list A -> list B -> World -> Prop)
    (E : Exn -> World -> Prop) (f : A -> M B) (l : list A) w :
  I [] [] w ->
  (forall pre ys x w1, (exists post, l = pre ++ x :: post) -> I pre ys w1 ->
     wp (f x) (fun y w2 => I (pre ++ [x]) (ys ++ [y]) w2) E w1) ->
  wp (map_M f l) (fun ys w' => I l ys w') E w.
Proof.
  intros H0 Hbody.
  cut (forall post pre ys w1, l = pre ++ post -> I pre ys w1 ->
         wp (map_M f post) (fun zs w' => I l (ys ++ zs) w') E w1).
  { intros Hcut. apply (Hcut l [] [] w); auto. }
  induction post as [|x post IH]; intros pre ys w1 Hl HI; simpl.
  - rewrite app_nil_r in Hl. subst. apply wp_ret. by rewrite app_nil_r.
  - apply wp_bind. eapply wp_mono; [apply (Hbody pre ys x w1); eauto | | auto].
    intros y w2 HI2. simpl. apply wp_bind.
    eapply wp_mono; [apply (IH (pre ++ [x]) (ys ++ [y])); [|done] | | auto].
    + by rewrite <- app_assoc.
    + intros zs w3 HI3. apply wp_ret. cbv beta in HI3.
      by rewrite <- app_assoc in HI3.
Qed.

Lemma for_loop_wp {S} (I : nat -> S -> World -> Prop) (E : Exn -> World -> Prop)
    (body : nat -> S -> M S) (n : nat) s w :
  I 0 s w ->
  (forall i s1 w1, i < n -> I i s1 w1 ->
     wp (body i s1) (fun s2 w2 => I (Datatypes.S i) s2 w2) E w1) ->
  wp (for_loop (_iteration n) body s) (fun s' w' => I n s' w') E w.
Proof.
  intros H0 Hbody. unfold _iteration.
  cut (forall k i s1 w1, i + k = n -> I i s1 w1 ->
         wp (for_loop (seq i k) body s1) (fun s' w' => I n s' w') E w1).
  { intros Hcut. apply (Hcut n 0 s w); auto. }
  induction k as [|k IH]; intros i s1 w1 Hn HI; simpl.
  - apply wp_ret. by replace n with i by lia.
  - apply wp_bind. eapply wp_mono; [apply (Hbody i s1 w1); [lia|done] | | auto].
    intros s2 w2 HI2. apply IH; [lia|done].
Qed.

(** The first [t] iterations of a loop are a loop of their own. *)
Lemma for_loop_split {S} (body : nat -> S -> M S) (t k : nat) s w :
  for_loop (_iteration (t + k)) body s w =
  match for_loop (_iteration t) body s w with
  | Ok s1 w1 => for_loop (seq t k) body s1 w1
  | Raise e w1 => Raise e w1
  end.
Proof.
  unfold _iteration. rewrite seq_app. simpl.
  generalize (seq t k) as post. generalize (seq 0 t) as pre.
  intros pre. revert s w. induction pre as [|i pre IH]; intros s w post; simpl.
  - done.
  - unfold bind. destruct (body i s w); [apply IH | done].
Qed.

(** * The label matrix (lines 83-86) *)

Example label_codes_ex :
  label_codes (union1d ["b"; "a"] ["unknown"; "b"])
              [Some "a"; Some "b"; None] [Some "unknown"; Some "b"]
  = ([0; 1; 0]%Z, [-1; 1]%Z).
Proof. reflexivity. Qed.

Example LabelSimMat_ex :
  LabelSimMat 0 [0; 1; 0]%Z [1; 0]%Z
  = Some (mkMatrix 2 3 [[1; 0; 1]; [1; 0; 1]]%Z).
Proof. reflexivity. Qed.

Lemma fill_columns_Some i (A B : list Z) c idx M :
  B !! i = Some c ->
  fill_columns i A B idx M =
  Some (foldl (fun M index => set_column M index (not_equal_to A c)) M idx).
Proof.
  intros Hc. revert M. induction idx as [|index idx IH]; intros M; simpl.
  - done.
  - rewrite Hc. apply IH.
Qed.

Lemma fill_columns_None i (A B : list Z) idx M :
  B !! i = None -> idx <> [] -> fill_columns i A B idx M = None.
Proof. intros Hc Hidx. destruct idx; [done|]. simpl. by rewrite Hc. Qed.

Lemma insert_filled (t rest : nat) (x : Z) :
  <[t := x]> (replicate t x ++ replicate (S rest) 0%Z)
  = replicate (S t) x ++ replicate rest 0%Z.
Proof.
  induction t as [|t IH]; simpl; [done|]. f_equal. apply IH.
Qed.

Lemma set_column_filled (v : list Z) (t rest : nat) :
  zip_with (fun r x => <[t := x]> r)
           (map (fun x => replicate t x ++ replicate (S rest) 0%Z) v) v
  = map (fun x => replicate (S t) x ++ replicate rest 0%Z) v.
Proof.
  induction v as [|x v IH]; [done|].
  cbn [map zip_with]. rewrite IH. f_equal. apply (insert_filled t rest x).
Qed.

Lemma fold_columns_rows (v : list Z) (t rest : nat) :
  mrows (foldl (fun M index => set_column M index v)
               (np_zeros2 (length v) (t + rest)) (seq 0 t))
  = map (fun x => replicate t x ++ replicate rest 0%Z) v.
Proof.
  revert rest. induction t as [|t IH]; intros rest.
  - simpl. induction v as [|x v IHv]; simpl; [done|]. by f_equal.
  - rewrite seq_S, foldl_app. simpl.
    replace (S (t + rest)) with (t + S rest) by lia.
    rewrite IH. apply set_column_filled.
Qed.

Lemma fold_columns_shape (v : list Z) idx M :
  shape (foldl (fun M index => set_column M index v) M idx) = shape M.
Proof. revert M. induction idx as [|i idx IH]; intros M; simpl; [done|]. by rewrite IH. Qed.

(** What the loop of lines 84-86 leaves after the transposition, when
    [catBCode[i]] exists. *)
Lemma LabelSimMat_value i (A B : list Z) c :
  B !! i = Some c ->
  LabelSimMat i A B =
  Some (mkMatrix (length B) (length A)
                 (replicate (length B) (not_equal_to A c))).
Proof.
  intros Hc. unfold LabelSimMat. rewrite (fill_columns_Some _ _ _ c) by done.
  simpl. f_equal. unfold transpose.
  pose proof (fold_columns_shape (not_equal_to A c) (seq 0 (length B))
                (np_zeros2 (length A) (length B))) as Hshape.
  unfold shape in Hshape. simpl in Hshape. injection Hshape as Hr Hcl.
  rewrite Hr, Hcl. f_equal.
  pose proof (fold_columns_rows (not_equal_to A c) (length B) 0) as Hrows.
  rewrite Nat.add_0_r in Hrows. unfold not_equal_to in Hrows at 2.
  rewrite length_map in Hrows. rewrite Hrows. clear.
  apply list_eq. intros j.
  destruct (decide (j < length B)) as [Hj|Hj].
  - rewrite lookup_replicate_2 by done.
    rewrite list_lookup_fmap, lookup_seq_lt by done. simpl. f_equal.
    rewrite map_map.
    transitivity (map id (not_equal_to A c)); [|apply map_id].
    apply map_ext_in. intros x _.
    rewrite app_nil_r. by rewrite nth_lookup, lookup_replicate_2.
  - rewrite (proj1 (lookup_replicate_None _ _ _)) by lia.
    rewrite list_lookup_fmap, lookup_seq_ge by lia. done.
Qed.

(** The matrix has shape [b x a]. *)
Lemma LabelSimMat_shape i (A B : list Z) M :
  LabelSimMat i A B = Some M -> shape M = (length B, length A).
Proof.
  destruct (B !! i) as [c|] eqn:Hc.
  - rewrite (LabelSimMat_value i A B c Hc). by intros [= <-].
  - unfold LabelSimMat. destruct B as [|b B]; [by intros [= <-]|].
    rewrite fill_columns_None; [done|done|]. simpl. done.
Qed.

(** Its entries are 0 or 1. *)
Lemma LabelSimMat_binary i (A B : list Z) M j k x :
  LabelSimMat i A B = Some M -> entry M j k = Some x -> x = 0%Z \/ x = 1%Z.
Proof.
  destruct (B !! i) as [c|] eqn:Hc.
  - rewrite (LabelSimMat_value i A B c Hc). intros [= <-]. unfold entry. simpl.
    intros Hx. destruct (replicate (length B) (not_equal_to A c) !! j) as [r|] eqn:Hr;
      [|done]. simpl in Hx.
    apply lookup_replicate in Hr as [-> _]. unfold not_equal_to in Hx.
    rewrite list_lookup_fmap in Hx. destruct (A !! k); simplify_eq/=.
    case_match; auto.
  - unfold LabelSimMat. destruct B as [|b B].
    + intros [= <-]. unfold entry. simpl. by destruct j.
    + rewrite fill_columns_None; [done|done|]. simpl. done.
Qed.

Lemma LabelSimMat_entry i (A B : list Z) c j k ca :
  B !! i = Some c -> j < length B -> A !! k = Some ca ->
  exists M, LabelSimMat i A B = Some M /\
            entry M j k = Some (if Z.eqb ca c then 0%Z else 1%Z).
Proof.
  intros Hc Hj Hk. eexists. split; [by apply LabelSimMat_value|].
  unfold entry. simpl. rewrite lookup_replicate_2 by done. simpl.
  unfold not_equal_to. by rewrite list_lookup_fmap, Hk.
Qed.

(** * The store operations *)

Lemma wp_deref l (Q : AnnData -> World -> Prop) E w :
  (forall A, store w !! l = Some A -> Q A w) ->
  (store w !! l = None -> E DanglingRef w) ->
  wp (deref l) Q E w.
Proof. unfold wp, deref. destruct (store w !! l); auto. Qed.

Lemma wp_assign l a (Q : unit -> World -> Prop) E w :
  Q tt (mkWorld (<[l := a]> (store w)) (next_id w) (trace w)) ->
  wp (assign l a) Q E w.
Proof. auto. Qed.

Lemma wp_fresh (Q : nat -> World -> Prop) E w :
  Q (next_id w) (mkWorld (store w) (S (next_id w)) (trace w)) ->
  wp fresh Q E w.
Proof. auto. Qed.

Lemma wp_log ev (Q : unit -> World -> Prop) E w :
  Q tt (mkWorld (store w) (next_id w) (trace w ++ [ev])) ->
  wp (log ev) Q E w.
Proof. auto. Qed.

Lemma wp_list_get {A} (l : list A) i (Q : A -> World -> Prop) E w :
  (forall x, l !! i = Some x -> Q x w) ->
  (l !! i = None -> E IndexError w) ->
  wp (list_get l i) Q E w.
Proof. unfold wp, list_get. destruct (l !! i); simpl; auto. Qed.

Lemma wp_obsm_get m k (Q : Coords -> World -> Prop) E w :
  (forall A c, store w !! m = Some A -> obsm A !! k = Some c -> Q c w) ->
  (forall e, E e w) ->
  wp (obsm_get m k) Q E w.
Proof.
  intros HQ HE. unfold obsm_get. apply wp_bind, wp_deref; [|auto].
  intros A HA. destruct (obsm A !! k) eqn:Hk; [apply wp_ret; eauto | apply wp_raise; auto].
Qed.

Lemma wp_obsm_set m k c (Q : unit -> World -> Prop) E w :
  (forall A, store w !! m = Some A ->
     Q tt (mkWorld (<[m := with_obsm A k c]> (store w)) (next_id w) (trace w))) ->
  (forall e, E e w) ->
  wp (obsm_set m k c) Q E w.
Proof.
  intros HQ HE. unfold obsm_set. apply wp_bind, wp_deref; [|auto].
  intros A HA. apply wp_assign. auto.
Qed.

Lemma wp_uns_get m k (Q : PyRef -> World -> Prop) E w :
  (forall A key r, store w !! m = Some A -> k = Some key -> uns A !! key = Some r ->
     Q r w) ->
  (forall e, E e w) ->
  wp (uns_get m k) Q E w.
Proof.
  intros HQ HE. unfold uns_get. apply wp_bind, wp_deref; [|auto].
  intros A HA. destruct k as [key|]; simpl; [|apply wp_raise; auto].
  destruct (uns A !! key) eqn:Hk; [apply wp_ret; eauto | apply wp_raise; auto].
Qed.

Lemma wp_uns_set m k r (Q : unit -> World -> Prop) E w :
  (forall A, store w !! m = Some A ->
     Q tt (mkWorld (<[m := with_uns A k r]> (store w)) (next_id w) (trace w))) ->
  (forall e, E e w) ->
  wp (uns_set m k r) Q E w.
Proof.
  intros HQ HE. unfold uns_set. apply wp_bind, wp_deref; [|auto].
  intros A HA. apply wp_assign. auto.
Qed.

Lemma wp_obs_get m k (Q : ObsCol -> World -> Prop) E w :
  (forall A col, store w !! m = Some A -> obs A !! k = Some col -> Q col w) ->
  (forall e, E e w) ->
  wp (obs_get m k) Q E w.
Proof.
  intros HQ HE. unfold obs_get. apply wp_bind, wp_deref; [|auto].
  intros A HA. destruct (obs A !! k) eqn:Hk; [apply wp_ret; eauto | apply wp_raise; auto].
Qed.

Lemma wp_cat_accessor col (Q : list string * list (option string) -> World -> Prop) E w :
  (forall cs vs, col = CatCol cs vs -> Q (cs, vs) w) ->
  (forall e, E e w) ->
  wp (cat_accessor col) Q E w.
Proof. intros HQ HE. destruct col; [apply wp_ret; eauto | apply wp_raise; auto]. Qed.

Lemma wp_copy m (Q : nat -> World -> Prop) E w :
  (forall A, store w !! m = Some A ->
     Q (next_id w)
       (mkWorld (<[next_id w := copy_value (S (next_id w)) A]> (store w))
                (S (next_id w) + oid_bound (uns A)) (trace w))) ->
  (forall e, E e w) ->
  wp (copy m) Q E w.
Proof. intros HQ HE. unfold wp, copy. destruct (store w !! m); auto. Qed.

Lemma wp_seed_slot key sk m (Q : unit -> World -> Prop) E w :
  (forall A c, store w !! m = Some A -> obsm A !! sk = Some c ->
     Q tt (mkWorld (<[m := with_obsm A key c]> (store w)) (next_id w) (trace w))) ->
  (forall e, E e w) ->
  wp (seed_slot key sk m) Q E w.
Proof.
  intros HQ HE. unfold seed_slot. apply wp_bind, wp_obsm_get; [|auto].
  intros A c HA Hc. apply wp_obsm_set; [|auto].
  intros A' HA'. simplify_eq. auto.
Qed.

Lemma wp_BA_align opts a b sk ka ik vk sim (Q : Pi * Sigma2 -> World -> Prop) E w :
  (forall A B out, store w !! a = Some A -> store w !! b = Some B ->
     Register opts sk A B sim = inr out ->
     Q (reg_P out, reg_sigma2 out)
       (mkWorld (<[b := registered B ka ik vk (next_id w) out]> (store w))
                (S (S (next_id w)))
                (trace w ++ [EvRegister a b sk sim (inr out)]))) ->
  (forall e, E e w) ->
  (forall e err, E e (mkWorld (store w) (next_id w)
                              (trace w ++ [EvRegister a b sk sim (inl err)]))) ->
  wp (BA_align opts a b sk ka ik vk sim) Q E w.
Proof.
  intros HQ HE HE'. unfold BA_align. apply wp_bind, wp_deref; [|auto].
  intros A HA. apply wp_bind, wp_deref; [|auto].
  intros B HB. apply wp_bind, wp_log.
  destruct (Register opts sk A B sim) as [err|out] eqn:HR.
  - apply wp_raise. auto.
  - apply wp_bind, wp_fresh. apply wp_bind, wp_fresh. apply wp_bind, wp_assign.
    apply wp_ret. simpl. apply (HQ A B out); auto.
Qed.

Lemma wp_BA_transform fld q (Q : TransformOut -> World -> Prop) E w :
  (forall out, Transform (oval fld) q = inr out ->
     Q out (mkWorld (store w) (next_id w) (trace w ++ [EvTransform fld q (inr out)]))) ->
  (forall e err, E e (mkWorld (store w) (next_id w)
                              (trace w ++ [EvTransform fld q (inl err)]))) ->
  wp (BA_transform fld q) Q E w.
Proof.
  intros HQ HE. unfold BA_transform. apply wp_bind, wp_log.
  destruct (Transform (oval fld) q) as [err|out] eqn:HT.
  - apply wp_raise. auto.
  - apply wp_ret. auto.
Qed.

Lemma wp_BA_transform_and_assignment opts b a fld sk
    (Q : Pi * Coords -> World -> Prop) E w :
  (forall B A out, store w !! b = Some B -> store w !! a = Some A ->
     TransformAndAssign opts B A (oval fld) sk = inr out ->
     Q out (mkWorld (store w) (next_id w)
                    (trace w ++ [EvTransformAssign b a fld (inr out)]))) ->
  (forall e, E e w) ->
  (forall e err, E e (mkWorld (store w) (next_id w)
                              (trace w ++ [EvTransformAssign b a fld (inl err)]))) ->
  wp (BA_transform_and_assignment opts b a fld sk) Q E w.
Proof.
  intros HQ HE HE'. unfold BA_transform_and_assignment.
  apply wp_bind, wp_deref; [|auto]. intros B HB.
  apply wp_bind, wp_deref; [|auto]. intros A HA.
  apply wp_bind, wp_log.
  destruct (TransformAndAssign opts B A (oval fld) sk) as [err|out] eqn:HT.
  - apply wp_raise. auto.
  - apply wp_ret. eauto.
Qed.

Lemma wp_empty_cache (Q : unit -> World -> Prop) E w :
  Q tt (mkWorld (store w) (next_id w) (trace w ++ [EvEmptyCache])) ->
  wp empty_cache Q E w.
Proof. auto. Qed.

(** [label_similarity] only reads. *)
Lemma wp_label_similarity i a b lk (Q : Matrix -> World -> Prop) E w :
  (forall A B csA vsA csB vsB S,
     store w !! a = Some A -> store w !! b = Some B ->
     obs A !! lk = Some (CatCol csA vsA) -> obs B !! lk = Some (CatCol csB vsB) ->
     LabelSimMat i (fst (label_codes (union1d csA csB) vsA vsB))
                   (snd (label_codes (union1d csA csB) vsA vsB)) = Some S ->
     Q S w) ->
  (forall e, E e w) ->
  wp (label_similarity i a b lk) Q E w.
Proof.
  intros HQ HE. unfold label_similarity.
  apply wp_bind, wp_obs_get; [|auto]. intros A colA HA HcA.
  apply wp_bind, wp_obs_get; [|auto]. intros B colB HB HcB.
  apply wp_bind, wp_cat_accessor; [|auto]. intros csA vsA ->.
  apply wp_bind, wp_cat_accessor; [|auto]. intros csB vsB ->.
  simpl. destruct (LabelSimMat _ _ _) eqn:HS; [apply wp_ret; eauto | apply wp_raise; auto].
Qed.

(** * One iteration of the pair loop of [morpho_align] *)

Lemma pair_failed_refl w : pair_failed w w.
Proof. exists []. rewrite app_nil_r. split; [done | simpl; lia]. Qed.

Lemma pair_failed_events w st n evs :
  length (registrations evs) <= 1 ->
  pair_failed w (mkWorld st n (trace w ++ evs)).
Proof. intros H. by exists evs. Qed.

Lemma align_pair_spec opts sk ka ik vk lk ams i acc w :
  wp (align_pair opts sk ka ik vk lk ams i acc)
     (pair_done opts sk ka ik vk lk ams i acc w)
     (fun _ w' => pair_failed w w') w.
Proof.
  unfold align_pair.
  apply wp_bind, wp_list_get; [|intros; apply pair_failed_refl]. intros a Ha.
  apply wp_bind, wp_list_get; [|intros; apply pair_failed_refl]. intros b Hb.
  apply wp_bind.
  apply (wp_mono _
    (fun sim w1 => w1 = w /\
       match lk with
       | None => sim = None
       | Some l =>
           exists A B csA vsA csB vsB S,
             store w !! a = Some A /\ store w !! b = Some B /\
             obs A !! l = Some (CatCol csA vsA) /\ obs B !! l = Some (CatCol csB vsB) /\
             LabelSimMat i (fst (label_codes (union1d csA csB) vsA vsB))
                           (snd (label_codes (union1d csA csB) vsA vsB)) = Some S /\
             sim = Some S
       end)
    _ (fun _ w1 => w1 = w) (fun _ w' => pair_failed w w')).
  { destruct lk as [l|].
    - apply wp_bind, wp_label_similarity; [|done].
      intros A B csA vsA csB vsB S HA HB HcA HcB HS. apply wp_ret.
      split; [done|]. by exists A, B, csA, vsA, csB, vsB, S.
    - by apply wp_ret. }
  2:{ intros _ w1 ->. apply pair_failed_refl. }
  intros sim w1 [-> Hsim].
  apply wp_bind, wp_BA_align.
  2:{ intros. apply pair_failed_refl. }
  2:{ intros. by apply pair_failed_events. }
  intros A B out HA HB HR.
  apply wp_bind, wp_uns_get.
  2:{ intros. by apply pair_failed_events. }
  simpl. intros B1 key fld HB1 -> Hfld. rewrite lookup_insert_eq in HB1.
  injection HB1 as <-.
  apply wp_bind, wp_obsm_get.
  2:{ intros. by apply pair_failed_events. }
  simpl. intros B1 q HB1 Hq. rewrite lookup_insert_eq in HB1. injection HB1 as <-.
  apply wp_bind, wp_BA_transform.
  2:{ intros. simpl. rewrite <- app_assoc. by apply pair_failed_events. }
  simpl. intros tout HT.
  apply wp_bind, wp_obsm_set.
  2:{ intros. simpl. rewrite <- app_assoc. by apply pair_failed_events. }
  simpl. intros B1 HB1. rewrite lookup_insert_eq in HB1. injection HB1 as <-.
  apply wp_bind, wp_empty_cache. apply wp_ret. simpl.
  exists a, b, A, B, sim, out, fld, q, tout.
  repeat split; try done.
  - destruct lk as [l|]; [|done].
    destruct Hsim as (A' & B' & csA & vsA & csB & vsB & S & HA' & HB' & ? & ? & ? & ?).
    simplify_eq. by exists csA, vsA, csB, vsB, S.
  - rewrite insert_insert_eq. by rewrite <- !app_assoc.
Qed.

(** * Seeding (lines 57-64) *)

Lemma seed_rel_refl sk w : seed_rel sk w w.
Proof.
  repeat split; try done. intros l. destruct (store w !! l); [|done].
  repeat split; auto.
Qed.

Lemma seed_rel_raw sk w0 w1 l A0 A1 :
  seed_rel sk w0 w1 -> store w0 !! l = Some A0 -> store w1 !! l = Some A1 ->
  obsm A1 !! sk = obsm A0 !! sk.
Proof.
  intros (_ & _ & H) H0 H1. specialize (H l). rewrite H0, H1 in H.
  destruct H as (_ & _ & _ & H). destruct (H sk) as [?|[? _]]; done.
Qed.

Lemma seed_rel_trans sk w0 w1 w2 :
  seed_rel sk w0 w1 -> seed_rel sk w1 w2 -> seed_rel sk w0 w2.
Proof.
  intros H01 H12. pose proof H01 as (Hn1 & Ht1 & H1). pose proof H12 as (Hn2 & Ht2 & H2).
  split; [congruence|]. split; [congruence|]. intros l.
  specialize (H1 l). specialize (H2 l).
  destruct (store w0 !! l) as [A0|] eqn:E0, (store w1 !! l) as [A1|] eqn:E1,
           (store w2 !! l) as [A2|] eqn:E2; try done.
  destruct H1 as (? & ? & ? & Hk1). destruct H2 as (? & ? & ? & Hk2).
  repeat split; try congruence. intros k.
  pose proof (seed_rel_raw sk w0 w1 l A0 A1 H01 E0 E1) as Hraw.
  destruct (Hk2 k) as [Hs|[Hs Hi]].
  - rewrite Hs. apply Hk1.
  - right. rewrite Hs, Hraw. split; [done|]. by rewrite <- Hraw.
Qed.

Lemma seed_rel_step sk key m A c w :
  store w !! m = Some A -> obsm A !! sk = Some c ->
  seed_rel sk w (mkWorld (<[m := with_obsm A key c]> (store w)) (next_id w) (trace w)).
Proof.
  intros HA Hc. repeat split; try done. intros l. simpl.
  destruct (decide (m = l)) as [->|Hne].
  - rewrite lookup_insert_eq, HA. repeat split; try done. intros k. simpl.
    destruct (decide (key = k)) as [->|Hk].
    + right. rewrite lookup_insert_eq. by rewrite Hc.
    + left. by rewrite lookup_insert_ne.
  - rewrite lookup_insert_ne by done. destruct (store w !! l); [|done].
    repeat split; auto.
Qed.

Lemma slot_seeded_keep sk key m w0 w1 w2 :
  seed_rel sk w0 w1 -> seed_rel sk w1 w2 ->
  slot_seeded sk key m w0 w1 -> slot_seeded sk key m w0 w2.
Proof.
  intros H01 H12 (A0 & A1 & raw & E0 & E1 & Hraw & Hkey).
  pose proof H12 as (_ & _ & H2). specialize (H2 m). rewrite E1 in H2.
  destruct (store w2 !! m) as [A2|] eqn:E2; [|done].
  exists A0, A2, raw. repeat split; try done.
  destruct H2 as (_ & _ & _ & Hk). destruct (Hk key) as [Hs|[Hs _]].
  - by rewrite Hs.
  - rewrite Hs, (seed_rel_raw sk w0 w1 m A0 A1); done.
Qed.

Lemma seed_loop_spec key sk models w :
  wp (for_each models (seed_slot key sk))
     (fun _ w' => seed_rel sk w w' /\
                  forall m, m ∈ models -> slot_seeded sk key m w w')
     (fun _ w' => seed_rel sk w w') w.
Proof.
  eapply wp_mono.
  - apply (for_each_wp
             (fun pre w1 => seed_rel sk w w1 /\
                            forall m, m ∈ pre -> slot_seeded sk key m w w1)
             (fun _ w' => seed_rel sk w w')).
    + split; [apply seed_rel_refl|]. intros m Hm. by apply elem_of_nil in Hm.
    + intros pre x w1 _ [Hrel Hpre]. apply wp_seed_slot; [|done].
      intros A c HA Hc.
      pose proof (seed_rel_step sk key x A c w1 HA Hc) as Hstep.
      split; [by eapply seed_rel_trans|].
      intros m Hm. apply elem_of_app in Hm as [Hm|Hm].
      * eapply slot_seeded_keep; eauto.
      * apply list_elem_of_singleton in Hm as ->.
        pose proof Hrel as (_ & _ & Hl). specialize (Hl x). rewrite HA in Hl.
        destruct (store w !! x) as [A0|] eqn:E0; [|done].
        exists A0, (with_obsm A key c), c. simpl.
        rewrite !lookup_insert_eq. repeat split; try done.
        by rewrite <- (seed_rel_raw sk w w1 x A0 A).
  - simpl. auto.
  - auto.
Qed.

Lemma seed_models_spec models sk ka w :
  wp (seed_models models sk ka)
     (fun _ w' => seed_rel sk w w' /\
                  forall m key, m ∈ models -> key ∈ seeded_slots ka ->
                                slot_seeded sk key m w w')
     (fun _ w' => seed_rel sk w w') w.
Proof.
  unfold seed_models.
  apply wp_bind. eapply wp_mono; [apply seed_loop_spec| |auto].
  intros [] w1 [R1 S1]. simpl.
  apply wp_bind. eapply wp_mono; [apply seed_loop_spec| |].
  2:{ intros e w' R. simpl in R. by eapply seed_rel_trans. }
  intros [] w2 [R2 S2]. simpl.
  apply wp_bind. eapply wp_mono; [apply seed_loop_spec| |].
  2:{ intros e w' R. simpl in R. eauto using seed_rel_trans. }
  intros [] w3 [R3 S3]. simpl.
  eapply wp_mono; [apply seed_loop_spec| |].
  2:{ intros e w' R. simpl in R. eauto using seed_rel_trans. }
  intros [] w4 [R4 S4]. simpl.
  assert (R02 : seed_rel sk w w2) by eauto using seed_rel_trans.
  assert (R03 : seed_rel sk w w3) by eauto using seed_rel_trans.
  assert (R04 : seed_rel sk w w4) by eauto using seed_rel_trans.
  assert (R14 : seed_rel sk w1 w4) by eauto using seed_rel_trans.
  assert (R24 : seed_rel sk w2 w4) by eauto using seed_rel_trans.
  split; [done|]. intros m key Hm Hkey.
  assert (forall wa wb, seed_rel sk w wa -> seed_rel sk wa wb ->
            slot_seeded sk key m wa wb -> slot_seeded sk key m w wb) as Hshift.
  { intros wa wb Ra Rb (Aa & Ab & raw & Ea & Eb & Hraw & Hk).
    pose proof Ra as (_ & _ & Hl). specialize (Hl m). rewrite Ea in Hl.
    destruct (store w !! m) as [A0|] eqn:E0; [|done].
    exists A0, Ab, raw. repeat split; try done.
    by rewrite <- (seed_rel_raw sk w wa m A0 Aa). }
  unfold seeded_slots in Hkey.
  repeat (apply elem_of_cons in Hkey as [->|Hkey]).
  - eapply slot_seeded_keep; [| |by apply S1]; done.
  - eapply slot_seeded_keep; [| |apply (Hshift w1 w2); auto]; done.
  - eapply slot_seeded_keep; [| |apply (Hshift w2 w3); auto]; done.
  - apply (Hshift w3 w4); auto.
  - by apply elem_of_nil in Hkey.
Qed.

(** * Copying the list of samples (line 67, lines 182-183) *)

Lemma frame_refl n w : frame n w w.
Proof. split; auto. Qed.

Lemma frame_trans n w0 w1 w2 : frame n w0 w1 -> frame n w1 w2 -> frame n w0 w2.
Proof.
  intros [Hn1 H1] [Hn2 H2]. split; [lia|]. intros l Hl. rewrite H2, H1; auto.
Qed.

Lemma frame_weaken n n' w w' : n' <= n -> frame n w w' -> frame n' w w'.
Proof. intros Hle [Hn H]. split; [done|]. intros l Hl. apply H. lia. Qed.

Lemma copies_step pre ys x A w w1 :
  copies_of pre w ys w1 -> store w1 !! x = Some A ->
  copies_of (pre ++ [x]) w (ys ++ [next_id w1])
    (mkWorld (<[next_id w1 := copy_value (S (next_id w1)) A]> (store w1))
             (S (next_id w1) + oid_bound (uns A)) (trace w1)).
Proof.
  intros (Hlen & Htr & [Hn Hfr] & Hwf & Hinc & Hcs) HA.
  split; [rewrite !length_app; simpl; lia|].
  split; [done|].
  split.
  { split; [simpl; lia|]. intros l Hl. simpl.
    rewrite lookup_insert_ne by lia. by apply Hfr. }
  split.
  { intros Hw l. specialize (Hwf Hw). simpl.
    destruct (decide (next_id w1 = l)) as [<-|Hne]; [lia|].
    rewrite lookup_insert_ne by done. intros Hl. apply Hwf in Hl. lia. }
  split.
  { intros j k c d Hjk Hj Hk.
    apply lookup_snoc_Some in Hk as [[Hk1 Hk2]|[Hk1 Hk2]].
    - rewrite lookup_app_l in Hj by lia. eauto.
    - rewrite lookup_app_l in Hj by lia. destruct (Hcs j c Hj) as [? _]. lia. }
  intros k c Hk.
  apply lookup_snoc_Some in Hk as [[Hk1 Hk2]|[Hk1 Hk2]].
  - destruct (Hcs k c Hk2) as [Hc (m & A' & base & Hm & Hst & Hold)].
    split; [simpl; lia|]. exists m, A', base.
    split; [rewrite lookup_app_l by lia; done|].
    split; [|done]. simpl. rewrite lookup_insert_ne by lia. done.
  - subst c. split; [simpl; lia|]. exists x, A, (S (next_id w1)).
    split; [rewrite lookup_app_r by lia; by replace (k - length pre) with 0 by lia|].
    split; [simpl; by rewrite lookup_insert_eq|].
    intros Hx. by rewrite <- Hfr.
Qed.

Lemma copies_spec models w :
  wp (map_M copy models) (fun ams w' => copies_of models w ams w')
     (fun _ w' => trace w' = trace w /\ frame (next_id w) w w') w.
Proof.
  eapply wp_mono.
  - apply (map_M_wp (fun pre ys w1 => copies_of pre w ys w1)
                    (fun _ w' => trace w' = trace w /\ frame (next_id w) w w')).
    + split; [done|]. split; [done|]. split; [apply frame_refl|].
      split; [done|]. split; intros; by simplify_list_eq.
    + intros pre ys x w1 _ Hc.
      apply wp_copy.
      * intros A HA. by apply copies_step.
      * intros _. by destruct Hc as (_ & ? & ? & _).
  - auto.
  - auto.
Qed.

(** * The pair loop of [morpho_align] *)

Lemma registrations_app tr1 tr2 :
  registrations (tr1 ++ tr2) = registrations tr1 ++ registrations tr2.
Proof. apply omap_app. Qed.

Lemma transforms_app tr1 tr2 :
  transforms (tr1 ++ tr2) = transforms tr1 ++ transforms tr2.
Proof. apply omap_app. Qed.

Lemma assignments_app tr1 tr2 :
  assignments (tr1 ++ tr2) = assignments tr1 ++ assignments tr2.
Proof. apply omap_app. Qed.

Lemma chain_step opts sk ka ik vk lk ams w0 t acc w acc' w' :
  NoDup ams ->
  chain_done sk ka ik vk lk ams w0 t acc w ->
  pair_done opts sk ka ik vk lk ams t acc w acc' w' ->
  chain_done sk ka ik vk lk ams w0 (S t) acc' w'.
Proof.
  intros Hnd (logs & evs & Hlen & Hp & Hs & Htr & Hreg & Htf & Hn & Hfr & Hlogs).
  intros (a & b & A & B & sim & out & fld & q & tout &
          Ha & Hb & HA & HB & Hsim & HR & Hfld & Hq & HT & -> & ->).
  replace (t + 1) with (S t) in Hb by lia.
  assert (Hfresh : forall j, j < t -> ams !! S j <> Some b).
  { intros j Hj Hjb. pose proof (NoDup_lookup _ _ _ _ Hnd Hjb Hb). lia. }
  assert (HB0 : store w0 !! b = Some B) by (rewrite <- Hfr; done).
  exists (logs ++ [mkPairLog a b sim out fld q tout (next_id w)]),
         (evs ++ [EvRegister a b "optimal_RnA" sim (inr out);
                  EvTransform fld q (inr tout); EvEmptyCache]).
  simpl. rewrite !map_app, registrations_app, transforms_app, Hreg, Htf, Hp, Hs, Htr.
  simpl. rewrite length_app, Hlen, <- !app_assoc. simpl.
  split; [lia|]. do 5 (split; [done|]). split; [lia|]. split.
  { intros l Hl. rewrite lookup_insert_ne.
    - apply Hfr. intros j Hj. apply Hl. lia.
    - intros ->. by apply (Hl t); [lia|]. }
  intros j lg Hj. apply lookup_snoc_Some in Hj as [[Hj1 Hj2]|[Hj1 Hj2]].
  - destruct (Hlogs j lg Hj2) as (Haj & Hbj & Hsj & C & HC & HCw & Hrest).
    split; [done|]. split; [done|]. split; [done|]. exists C.
    split; [done|]. split; [|done].
    rewrite lookup_insert_ne; [done|].
    intros Heq. apply (Hfresh j); [lia|]. by rewrite Heq.
  - subst lg. simpl. rewrite Hj1, Hlen. split; [done|]. split; [done|].
    split; [by destruct lk; [|auto]|]. exists B.
    rewrite lookup_insert_eq. done.
Qed.

Lemma chain_done_start sk ka ik vk lk ams w0 :
  chain_done sk ka ik vk lk ams w0 0 (mkResults [] []) w0.
Proof.
  exists [], []. simpl. rewrite app_nil_r. repeat split; done.
Qed.

Lemma align_chain_spec opts sk ka ik vk lk ams n w0 :
  NoDup ams ->
  wp (align_chain opts sk ka ik vk lk ams n)
     (fun r w' => chain_done sk ka ik vk lk ams w0 n r w')
     (fun _ w' => chain_failed w0 n w') w0.
Proof.
  intros Hnd. unfold align_chain. apply for_loop_wp.
  - apply chain_done_start.
  - intros i s1 w1 Hi Hinv.
    eapply wp_mono; [apply align_pair_spec | |].
    + intros s2 w2 Hdone. by eapply chain_step.
    + intros e w2 (evs' & Htr' & Hle). simpl in *.
      destruct Hinv as (logs & evs & Hlen & _ & _ & Htr & Hreg & _).
      exists (evs ++ evs'). rewrite Htr', Htr, <- app_assoc. split; [done|].
      rewrite registrations_app, length_app, Hreg, length_map. lia.
Qed.

(** * [morpho_align] as a whole *)

Lemma copies_NoDup models w ams w' : copies_of models w ams w' -> NoDup ams.
Proof.
  intros (_ & _ & _ & _ & Hinc & _). apply NoDup_alt. intros j k c Hj Hk.
  destruct (Nat.lt_trichotomy j k) as [Hlt|[Heq|Hgt]]; [|done|].
  - pose proof (Hinc j k c c Hlt Hj Hk). lia.
  - pose proof (Hinc k j c c Hgt Hk Hj). lia.
Qed.

(** A run that returns went through seeding, copying and the pair loop. *)
Lemma morpho_align_Ok models opts sk ka ik vk lk w ams ps ss w' :
  morpho_align models opts sk ka ik vk lk w = Ok (ams, ps, ss) w' ->
  exists w1 w2 r,
    seed_models models sk ka w = Ok tt w1 /\
    map_M copy models w1 = Ok ams w2 /\
    align_chain opts sk ka ik vk lk ams (length ams - 1) w2 = Ok r w' /\
    ps = pis r /\ ss = sigma2s r.
Proof.
  unfold morpho_align. intros H.
  apply bind_Ok in H as ([] & w1 & Hseed & H).
  apply bind_Ok in H as (ams' & w2 & Hcopy & H).
  apply bind_Ok in H as (r & w3 & Hchain & H).
  unfold ret in H. simplify_eq. by exists w1, w2, r.
Qed.

(** The state of the copies when the pair loop starts. *)
Lemma seeded_copies models sk ka w w1 ams w2 :
  wf w ->
  seed_models models sk ka w = Ok tt w1 ->
  map_M copy models w1 = Ok ams w2 ->
  trace w2 = trace w /\ NoDup ams /\ length ams = length models /\
  (forall k c, ams !! k = Some c -> next_id w <= c) /\
  frame (next_id w) w1 w2 /\
  forall k m, models !! k = Some m ->
    exists A raw A1 c base,
      store w !! m = Some A /\ obsm A !! sk = Some raw /\
      store w1 !! m = Some A1 /\ store w2 !! m = Some A1 /\
      obs A1 = obs A /\ X A1 = X A /\ uns A1 = uns A /\
      ams !! k = Some c /\ store w2 !! c = Some (copy_value base A1) /\
      obsm A1 !! sk = Some raw /\
      forall key, key ∈ seeded_slots ka -> obsm A1 !! key = Some raw.
Proof.
  intros Hwf Hseed Hcopy.
  pose proof (wp_Ok _ _ _ _ _ _ (seed_models_spec models sk ka w) Hseed) as [Hrel Hslots].
  pose proof (wp_Ok _ _ _ _ _ _ (copies_spec models w1) Hcopy) as Hc.
  pose proof (copies_NoDup _ _ _ _ Hc) as Hnd.
  destruct Hc as (Hlen & Htr & Hfr & _ & _ & Hcs).
  pose proof Hrel as (Hn & Htr1 & Hst).
  split; [congruence|]. split; [done|]. split; [done|].
  split. { intros k c Hk. destruct (Hcs k c Hk) as [? _]. lia. }
  split. { by rewrite <- Hn. }
  intros k m Hm.
  assert (Hin : m ∈ models) by (by eapply list_elem_of_lookup_2).
  destruct (Hslots m ka Hin) as (A & A1 & raw & HA & HA1 & Hraw & _).
  { unfold seeded_slots. apply elem_of_cons. by left. }
  assert (Hlt : m < next_id w1).
  { rewrite Hn. apply Hwf. by rewrite HA. }
  destruct (lookup_lt_is_Some_2 ams k) as [c Hc].
  { rewrite Hlen. by eapply lookup_lt_Some. }
  destruct (Hcs k c Hc) as [_ (m' & A' & base & Hm' & Hst' & Hold)].
  rewrite Hm in Hm'. injection Hm' as <-. specialize (Hold Hlt).
  rewrite HA1 in Hold. injection Hold as <-.
  specialize (Hst m). rewrite HA, HA1 in Hst. destruct Hst as (HX & Hobs & Huns & _).
  exists A, raw, A1, c, base. repeat split; try done.
  - destruct Hfr as [_ Hfr]. by rewrite Hfr.
  - by rewrite (seed_rel_raw sk w w1 m A A1).
  - intros key Hkey.
    destruct (Hslots m key Hin Hkey) as (A0 & A1' & raw' & HA0 & HA1' & Hraw' & Hk).
    by simplify_eq.
Qed.

Lemma seed_once key sk m A raw w :
  store w !! m = Some A -> obsm A !! sk = Some raw ->
  seed_slot key sk m w =
  Ok tt (mkWorld (<[m := with_obsm A key raw]> (store w)) (next_id w) (trace w)).
Proof.
  intros HA Hraw. unfold seed_slot, obsm_get, obsm_set, bind, deref, assign.
  rewrite HA, Hraw. unfold ret. by rewrite HA.
Qed.

Lemma with_obsm_raw A sk key raw :
  obsm A !! sk = Some raw -> obsm (with_obsm A key raw) !! sk = Some raw.
Proof.
  intros H. simpl. destruct (decide (key = sk)) as [->|Hne].
  - apply lookup_insert_eq.
  - by rewrite lookup_insert_ne.
Qed.

(** The run on a single sample, step by step. *)
Lemma morpho_align_single m A raw opts sk ka ik vk lk w :
  store w !! m = Some A -> obsm A !! sk = Some raw ->
  let seeded :=
    with_obsm (with_obsm (with_obsm (with_obsm A ka raw)
                 "Rigid_3d_align_spatial" raw) "Coarse_alignment" raw)
              "optimal_RnA" raw in
  morpho_align [m] opts sk ka ik vk lk w =
  Ok ([next_id w], [], [])
     (mkWorld (<[next_id w := copy_value (S (next_id w)) seeded]>
                 (<[m := seeded]>
                    (<[m := with_obsm (with_obsm (with_obsm A ka raw)
                               "Rigid_3d_align_spatial" raw) "Coarse_alignment" raw]>
                       (<[m := with_obsm (with_obsm A ka raw)
                                  "Rigid_3d_align_spatial" raw]>
                          (<[m := with_obsm A ka raw]> (store w))))))
              (S (next_id w) + oid_bound (uns A)) (trace w)).
Proof.
  intros HA Hraw seeded.
  unfold morpho_align, seed_models, align_chain. simpl. unfold bind.
  rewrite (seed_once ka sk m A raw w HA Hraw).
  cbv beta iota delta [ret].
  erewrite seed_once;
    [|simpl; apply lookup_insert_eq|by repeat apply with_obsm_raw].
  cbv beta iota delta [ret].
  erewrite seed_once;
    [|simpl; apply lookup_insert_eq|by repeat apply with_obsm_raw].
  cbv beta iota delta [ret].
  erewrite seed_once;
    [|simpl; apply lookup_insert_eq|by repeat apply with_obsm_raw].
  cbv beta iota delta [ret].
  unfold copy. simpl. rewrite lookup_insert_eq. reflexivity.
Qed.

(** C5.  When the pair loop of [morpho_align] is about to start (seeding and
    copying are done and no primitive has been called), every sample the
    caller passed and every copy holds, in each of the four seeded slots
    ([key_added], "Rigid_3d_align_spatial", "Coarse_alignment",
    "optimal_RnA"), exactly the coordinates its [spatial_key] slot had when
    the call was made. *)
Theorem C5_seeded_slots_equal_raw models sk ka w w1 ams w2 :
  wf w ->
  seed_models models sk ka w = Ok tt w1 ->
  map_M copy models w1 = Ok ams w2 ->
  trace w2 = trace w /\
  forall k m, models !! k = Some m ->
    exists A raw A1 c C,
      store w !! m = Some A /\ obsm A !! sk = Some raw /\
      store w2 !! m = Some A1 /\ ams !! k = Some c /\ store w2 !! c = Some C /\
      forall key, key ∈ seeded_slots ka ->
                  obsm A1 !! key = Some raw /\ obsm C !! key = Some raw.
Proof.
  intros Hwf Hseed Hcopy.
  destruct (seeded_copies models sk ka w w1 ams w2 Hwf Hseed Hcopy)
    as (Htr & _ & _ & _ & _ & Hall).
  split; [done|]. intros k m Hm.
  destruct (Hall k m Hm) as (A & raw & A1 & c & base & HA & Hraw & _ & HA1 & _ & _ & _ &
                             Hc & HC & _ & Hkeys).
  exists A, raw, A1, c, (copy_value base A1). repeat split; auto.
Qed.

Lemma obsm_registered B ka ik vk n out :
  obsm (registered B ka ik vk n out) = <[ka := reg_coords out]> (obsm B).
Proof. unfold registered. by destruct ik, vk. Qed.

Lemma obs_registered B ka ik vk n out : obs (registered B ka ik vk n out) = obs B.
Proof. unfold registered. by destruct ik, vk. Qed.


Lemma chain_done_obs sk ka ik vk lk ams w0 t acc w :
  NoDup ams ->
  chain_done sk ka ik vk lk ams w0 t acc w ->
  forall k c C, ams !! k = Some c -> store w0 !! c = Some C ->
    exists B, store w !! c = Some B /\ obs B = obs C.
Proof.
  intros Hnd (logs & evs & Hlen & _ & _ & _ & _ & _ & _ & Hfr & Hlogs) k c C Hc HC.
  assert (Hcase : (exists j lg, logs !! j = Some lg /\ k = S j) \/
                  (forall j, j < t -> ams !! S j <> Some c)).
  { destruct k as [|j].
    - right. intros j _ Hj. pose proof (NoDup_lookup _ _ _ _ Hnd Hc Hj). lia.
    - destruct (decide (j < t)) as [Hj|Hj].
      + left. destruct (lookup_lt_is_Some_2 logs j) as [lg Hlg]; [lia|]. eauto.
      + right. intros j' Hj' Hjc. pose proof (NoDup_lookup _ _ _ _ Hnd Hc Hjc). lia. }
  destruct Hcase as [(j & lg & Hlg & ->)|Hun].
  - destruct (Hlogs j lg Hlg) as (_ & Hb & _ & C' & HC' & HCw & _).
    rewrite Hc in Hb. injection Hb as ->. rewrite HC in HC'. injection HC' as <-.
    eexists. split; [exact HCw|]. simpl. apply obs_registered.
  - exists C. split; [|done]. by rewrite Hfr.
Qed.

Lemma align_pair_missing_label opts sk ka ik vk lk ams i acc w a b A B :
  ams !! i = Some a -> ams !! (i + 1) = Some b ->
  store w !! a = Some A -> store w !! b = Some B ->
  (forall cs vs, obs A !! lk <> Some (CatCol cs vs)) \/
  (forall cs vs, obs B !! lk <> Some (CatCol cs vs)) ->
  wp (align_pair opts sk ka ik vk (Some lk) ams i acc)
     (fun _ _ => False) (fun _ w' => w' = w) w.
Proof.
  intros Ha Hb HA HB Hmiss. unfold align_pair.
  apply wp_bind, wp_list_get; [|done]. intros a' Ha'.
  apply wp_bind, wp_list_get; [|done]. intros b' Hb'.
  apply wp_bind, wp_bind, wp_label_similarity; [|done].
  intros A' B' csA vsA csB vsB S HA' HB' HcA HcB _. simplify_eq.
  destruct Hmiss as [Hmiss|Hmiss]; exfalso; eapply Hmiss; eauto.
Qed.

(** C8.  With a label key, if sample [i] or sample [i+1] of the list has no
    categorical column of that name, [morpho_align] raises, and [BA_align]
    has been called for the [i] earlier pairs at most: pair [i] is never
    registered. *)
Theorem C8_missing_label_fails models opts sk ka ik vk lk w i m A :
  wf w ->
  S i < length models ->
  models !! i = Some m \/ models !! S i = Some m ->
  store w !! m = Some A ->
  (forall cs vs, obs A !! lk <> Some (CatCol cs vs)) ->
  exists e w',
    morpho_align models opts sk ka ik vk (Some lk) w = Raise e w' /\
    length (registrations (trace w')) <= length (registrations (trace w)) + i.
Proof.
  intros Hwf Hi Hm HA Hmiss.
  cut (wp (morpho_align models opts sk ka ik vk (Some lk))
          (fun _ _ => False)
          (fun _ w' => length (registrations (trace w'))
                       <= length (registrations (trace w)) + i) w).
  { unfold wp. destruct (morpho_align _ _ _ _ _ _ _ w) as [r w'|e w']; [done|eauto]. }
  unfold morpho_align.
  apply wp_intro.
  2:{ intros e w' Hrun. unfold bind in Hrun.
      destruct (seed_models models sk ka w) as [[] w1|e1 w1] eqn:Hseed.
      2:{ injection Hrun as <- <-.
          pose proof (wp_Raise _ _ _ _ _ _ (seed_models_spec models sk ka w) Hseed)
            as (_ & -> & _). lia. }
      pose proof (wp_Ok _ _ _ _ _ _ (seed_models_spec models sk ka w) Hseed)
        as [(_ & Htr1 & _) _].
      destruct (map_M copy models w1) as [ams w2|e2 w2] eqn:Hcopy.
      2:{ injection Hrun as <- <-.
          pose proof (wp_Raise _ _ _ _ _ _ (copies_spec models w1) Hcopy) as [-> _].
          rewrite Htr1. lia. }
      destruct (seeded_copies models sk ka w w1 ams w2 Hwf Hseed Hcopy)
        as (Htr & Hnd & Hlen & _ & _ & Hall).
      destruct (align_chain opts sk ka ik vk (Some lk) ams (length ams - 1) w2)
        as [r w3|e3 w3] eqn:Hchain; [done|]. injection Hrun as <- <-.
      unfold align_chain in Hchain.
      replace (length ams - 1) with (i + S (length ams - 2 - i)) in Hchain by lia.
      rewrite for_loop_split in Hchain.
      pose proof (align_chain_spec opts sk ka ik vk (Some lk) ams i w2 Hnd) as Hpre.
      unfold wp, align_chain in Hpre.
      destruct (for_loop (_iteration i) _ _ w2) as [ri wi|ei wi].
      2:{ injection Hchain as <- <-. destruct Hpre as (evs & -> & Hle).
          rewrite registrations_app, length_app, Htr. lia. }
      simpl in Hchain. unfold bind in Hchain.
      assert (Hai : is_Some (ams !! i)) by (apply lookup_lt_is_Some_2; lia).
      assert (Hbi : is_Some (ams !! (i + 1))) by (apply lookup_lt_is_Some_2; lia).
      destruct Hai as [a Ha], Hbi as [b Hb].
      assert (Hmi : is_Some (models !! i)) by (apply lookup_lt_is_Some_2; lia).
      assert (Hmi' : is_Some (models !! S i)) by (apply lookup_lt_is_Some_2; lia).
      destruct Hmi as [ma Hma], Hmi' as [mb Hmb].
      destruct (Hall i ma Hma)
        as (Aa & _ & Aa1 & ca & basea & HAa & _ & _ & _ & Hobsa & _ & _ & Hca & Hsta & _).
      destruct (Hall (S i) mb Hmb)
        as (Ab & _ & Ab1 & cb & baseb & HAb & _ & _ & _ & Hobsb & _ & _ & Hcb & Hstb & _).
      replace (i + 1) with (S i) in Hb by lia. simplify_eq.
      destruct (chain_done_obs _ _ _ _ _ _ _ _ _ _ Hnd Hpre i a _ Ha Hsta)
        as (Ba & HBa & HobsBa).
      destruct (chain_done_obs _ _ _ _ _ _ _ _ _ _ Hnd Hpre (S i) b _ Hb Hstb)
        as (Bb & HBb & HobsBb).
      simpl in HobsBa, HobsBb.
      assert (Hpair : wp (align_pair opts sk ka ik vk (Some lk) ams i ri)
                         (fun _ _ => False) (fun _ w' => w' = wi) wi).
      { apply (align_pair_missing_label _ _ _ _ _ _ _ _ _ _ a b Ba Bb); auto.
        - by replace (i + 1) with (S i) by lia.
        - destruct Hm as [Hm|Hm]; simplify_eq.
          + left. intros cs vs. rewrite HobsBa, Hobsa. apply Hmiss.
          + right. intros cs vs. rewrite HobsBb, Hobsb. apply Hmiss. }
      unfold wp in Hpair.
      destruct (align_pair opts sk ka ik vk (Some lk) ams i ri wi) as [?|? ?]; [done|].
      injection Hchain as <- <-. subst.
      destruct Hpre as (logs & evs & Hlen' & _ & _ & -> & Hreg & _).
      rewrite registrations_app, length_app, Hreg, length_map, Htr. lia. }
  intros [[ams ps] ss] w' Hrun.
  apply morpho_align_Ok in Hrun as (w1 & w2 & r & Hseed & Hcopy & Hchain & -> & ->).
  destruct (seeded_copies models sk ka w w1 ams w2 Hwf Hseed Hcopy)
    as (Htr & Hnd & Hlen & _ & _ & Hall).
  unfold align_chain in Hchain.
  replace (length ams - 1) with (i + S (length ams - 2 - i)) in Hchain by lia.
  rewrite for_loop_split in Hchain.
  pose proof (align_chain_spec opts sk ka ik vk (Some lk) ams i w2 Hnd) as Hpre.
  unfold wp, align_chain in Hpre.
  destruct (for_loop (_iteration i) _ _ w2) as [ri wi|ei wi]; [|done].
  simpl in Hchain. unfold bind in Hchain.
  assert (Hai : is_Some (ams !! i)) by (apply lookup_lt_is_Some_2; lia).
  assert (Hbi : is_Some (ams !! (i + 1))) by (apply lookup_lt_is_Some_2; lia).
  destruct Hai as [a Ha], Hbi as [b Hb].
  assert (Hmi : is_Some (models !! i)) by (apply lookup_lt_is_Some_2; lia).
  assert (Hmi' : is_Some (models !! S i)) by (apply lookup_lt_is_Some_2; lia).
  destruct Hmi as [ma Hma], Hmi' as [mb Hmb].
  destruct (Hall i ma Hma)
    as (Aa & _ & Aa1 & ca & basea & HAa & _ & _ & _ & Hobsa & _ & _ & Hca & Hsta & _).
  destruct (Hall (S i) mb Hmb)
    as (Ab & _ & Ab1 & cb & baseb & HAb & _ & _ & _ & Hobsb & _ & _ & Hcb & Hstb & _).
  replace (i + 1) with (S i) in Hb by lia. simplify_eq.
  destruct (chain_done_obs _ _ _ _ _ _ _ _ _ _ Hnd Hpre i a _ Ha Hsta)
    as (Ba & HBa & HobsBa).
  destruct (chain_done_obs _ _ _ _ _ _ _ _ _ _ Hnd Hpre (S i) b _ Hb Hstb)
    as (Bb & HBb & HobsBb).
  simpl in HobsBa, HobsBb.
  assert (Hpair : wp (align_pair opts sk ka ik vk (Some lk) ams i ri)
                     (fun _ _ => False) (fun _ w' => w' = wi) wi).
  { apply (align_pair_missing_label _ _ _ _ _ _ _ _ _ _ a b Ba Bb); auto.
    - by replace (i + 1) with (S i) by lia.
    - destruct Hm as [Hm|Hm]; simplify_eq.
      + left. intros cs vs. rewrite HobsBa, Hobsa. apply Hmiss.
      + right. intros cs vs. rewrite HobsBb, Hobsb. apply Hmiss. }
  unfold wp in Hpair.
  destruct (align_pair opts sk ka ik vk (Some lk) ams i ri wi) as [?|? ?]; done.
Qed.

(** * One iteration of the pair loop of [morpho_align_ref] *)

Lemma touched_only_refl ls w : touched_only ls w w.
Proof. by split. Qed.

Lemma touched_only_trans ls w0 w1 w2 :
  touched_only ls w0 w1 -> touched_only ls w1 w2 -> touched_only ls w0 w2.
Proof.
  intros [Hn1 H1] [Hn2 H2]. split; [lia|]. intros l Hl. rewrite H2, H1; auto.
Qed.

Lemma touched_only_insert ls w st n tr l x :
  l ∈ ls -> touched_only ls w (mkWorld st n tr) ->
  touched_only ls w (mkWorld (<[l := x]> st) n tr).
Proof.
  intros Hl [Hn H]. split; [done|]. intros l' Hl'. simpl.
  rewrite lookup_insert_ne; [by apply H|]. intros ->. done.
Qed.

Lemma touched_only_world ls w n tr :
  next_id w <= n -> touched_only ls w (mkWorld (store w) n tr).
Proof. by split. Qed.

Ltac touched :=
  simpl;
  repeat (apply touched_only_insert;
          [apply elem_of_app; (left + right); eapply list_elem_of_lookup_2; eassumption|]);
  first [apply touched_only_refl | apply touched_only_world; simpl; lia].

Lemma align_ref_pair_spec opts sk ka ik vk full ams i acc w :
  wp (align_ref_pair opts sk ka ik vk full ams i acc)
     (ref_pair_done opts sk ka ik vk full ams i acc w)
     (fun _ w' => touched_only (ams ++ r_align_models_ref acc) w w') w.
Proof.
  unfold align_ref_pair.
  apply wp_bind, wp_list_get; [|intros; touched]. intros aref Haref.
  apply wp_bind, wp_list_get; [|intros; touched]. intros bref Hbref.
  apply wp_bind, wp_BA_align; [|intros; touched|intros; touched].
  intros Aref Bref out HAref HBref HR.
  apply wp_bind, wp_list_get; [|intros; touched]. intros a Ha.
  apply wp_bind, wp_list_get; [|intros; touched]. intros b Hb.
  apply wp_bind, wp_uns_get; [|intros; touched].
  simpl. intros Bref1 key fld HBref1 -> Hfld.
  rewrite lookup_insert_eq in HBref1. injection HBref1 as <-.
  apply wp_bind, wp_uns_set; [|intros; touched].
  simpl. intros B HB.
  set (st1 := <[bref := registered Bref ka ik (Some key) (next_id w) out]> (store w)) in *.
  assert (Hfld2 : forall Bx, <[b := with_uns B key fld]> st1 !! bref = Some Bx ->
                             uns Bx !! key = Some fld).
  { intros Bx HBx. destruct (decide (b = bref)) as [->|Hne].
    - rewrite lookup_insert_eq in HBx. injection HBx as <-. simpl.
      apply lookup_insert_eq.
    - rewrite lookup_insert_ne in HBx by done. unfold st1 in HBx.
      rewrite lookup_insert_eq in HBx. by injection HBx as <-. }
  assert (Hrefs : <[i + 1 := bref]> (r_align_models_ref acc) = r_align_models_ref acc)
    by (by apply list_insert_id).
  apply wp_bind. unfold back_project. destruct full.
  - apply wp_bind, wp_uns_get; [|intros; subst st1; touched].
    simpl. intros Bx key' fld' HBx [= <-] Hfld'.
    rewrite (Hfld2 Bx HBx) in Hfld'. injection Hfld' as <-.
    apply wp_bind, wp_BA_transform_and_assignment;
      [|intros; subst st1; touched|intros; subst st1; touched].
    simpl. intros B2 A2 out2 HB2 HA2 HT.
    rewrite lookup_insert_eq in HB2. injection HB2 as <-.
    apply wp_bind, wp_obsm_set; [|intros; subst st1; touched].
    simpl. intros B3 HB3. rewrite lookup_insert_eq in HB3. injection HB3 as <-.
    apply wp_ret, wp_ret. rewrite Hrefs.
    exists aref, bref, Aref, Bref, out, a, b, B, key, fld,
           (EvTransformAssign b a fld (inr out2)), (fst out2),
           (with_obsm (with_uns B key fld) ka (snd out2)).
    repeat split; try done.
    + simpl. by exists A2, out2.
    + rewrite insert_insert_eq. by rewrite <- app_assoc.
  - apply wp_bind, wp_uns_get; [|intros; subst st1; touched].
    simpl. intros Bx key' fld' HBx [= <-] Hfld'.
    rewrite (Hfld2 Bx HBx) in Hfld'. injection Hfld' as <-.
    apply wp_bind, wp_obsm_get; [|intros; subst st1; touched].
    simpl. intros B2 q HB2 Hq.
    rewrite lookup_insert_eq in HB2. injection HB2 as <-.
    apply wp_bind, wp_BA_transform; [|intros; subst st1; touched].
    simpl. intros tout HT.
    apply wp_bind, wp_obsm_set; [|intros; subst st1; touched].
    simpl. intros B3 HB3. rewrite lookup_insert_eq in HB3. injection HB3 as <-.
    apply wp_bind, wp_obsm_set; [|intros; subst st1; touched].
    simpl. intros B4 HB4. rewrite lookup_insert_eq in HB4. injection HB4 as <-.
    apply wp_ret, wp_ret. rewrite Hrefs.
    exists aref, bref, Aref, Bref, out, a, b, B, key, fld,
           (EvTransform fld q (inr tout)), (reg_P out),
           (with_obsm (with_obsm (with_uns B key fld) ka (tr_nonrigid tout))
                      "Rigid_align_spatial" (tr_rigid tout)).
    repeat split; try done.
    + simpl. by exists q, tout.
    + rewrite !insert_insert_eq. by rewrite <- app_assoc.
Qed.

(** * The set-up of [morpho_align_ref] (lines 172-186) *)

Lemma seed_loop_exact key sk ls w :
  NoDup ls ->
  wp (for_each ls (seed_slot key sk))
     (fun _ w' => seeded_exactly key sk ls w w')
     (fun _ w' => touched_only ls w w') w.
Proof.
  intros Hnd.
  apply (for_each_wp (fun pre w1 => seeded_exactly key sk pre w w1)
                     (fun _ w' => touched_only ls w w')).
  - repeat split; try done. intros c Hc. by apply elem_of_nil in Hc.
  - intros pre x w1 [post Hls] (Hn & Htr & Hout & Hin).
    assert (Hx : x ∉ pre).
    { rewrite Hls in Hnd. apply NoDup_app in Hnd as (_ & Hd & _).
      intros Hx. apply (Hd x Hx). by left. }
    apply wp_seed_slot.
    + intros A c HA Hc. split; [done|]. split; [done|]. split.
      * intros l Hl. simpl. apply not_elem_of_app in Hl as [Hl1 Hl2].
        rewrite lookup_insert_ne; [by apply Hout|].
        intros ->. apply Hl2. by left.
      * intros c' Hc'. simpl. apply elem_of_app in Hc' as [Hc'|Hc'].
        -- destruct (Hin c' Hc') as (C & raw & ? & ? & ?).
           exists C, raw. rewrite lookup_insert_ne; [done|]. by intros ->.
        -- apply list_elem_of_singleton in Hc' as ->.
           exists A, c. rewrite lookup_insert_eq. rewrite <- (Hout x Hx). done.
    + intros _. split; [lia|]. intros l Hl. apply Hout.
      intros Hl'. apply Hl. rewrite Hls. apply elem_of_app. by left.
Qed.

Lemma touched_frame ls n w w' :
  (forall l, l ∈ ls -> n <= l) -> touched_only ls w w' -> frame n w w'.
Proof.
  intros Hls [Hn H]. split; [done|]. intros l Hl. apply H.
  intros Hin. apply Hls in Hin. lia.
Qed.

Lemma ref_setup_spec models models_ref sk ka w :
  wp (ref_setup models models_ref sk ka)
     (fun r w1 => ref_ready models models_ref sk ka w (fst r) (snd r) w1)
     (fun _ w' => frame (next_id w) w w') w.
Proof.
  unfold ref_setup.
  apply wp_bind. eapply wp_mono; [apply copies_spec| |by intros e w' [_ ?]].
  intros ams wa Ha. simpl.
  pose proof Ha as (Hlena & Htra & Hfra & Hwfa & Hinca & Hcsa).
  apply wp_bind. eapply wp_mono; [apply copies_spec| |].
  2:{ intros e w' [_ Hf]. eapply frame_trans; [exact Hfra|].
      eapply frame_weaken; [|exact Hf]. by destruct Hfra. }
  intros refs wb Hb. simpl.
  pose proof Hb as (Hlenb & Htrb & Hfrb & Hwfb & Hincb & Hcsb).
  assert (Hfab : frame (next_id w) w wb).
  { eapply frame_trans; [exact Hfra|].
    eapply frame_weaken; [|exact Hfrb]. by destruct Hfra. }
  assert (Hnd : NoDup (ams ++ refs)).
  { apply NoDup_app. split; [by eapply copies_NoDup|]. split; [|by eapply copies_NoDup].
    intros c Hc1 Hc2.
    apply list_elem_of_lookup in Hc1 as [k1 Hk1].
    apply list_elem_of_lookup in Hc2 as [k2 Hk2].
    destruct (Hcsa k1 c Hk1) as [? _]. destruct (Hcsb k2 c Hk2) as [? _]. lia. }
  assert (Hrange : forall c, c ∈ ams ++ refs -> next_id w <= c < next_id wb).
  { intros c Hc. apply elem_of_app in Hc as [Hc|Hc];
      apply list_elem_of_lookup in Hc as [k Hk].
    - destruct (Hcsa k c Hk) as [? _]. destruct Hfrb. lia.
    - destruct (Hcsb k c Hk) as [? _]. destruct Hfra. lia. }
  assert (Hrefs_ge : forall l, l ∈ refs -> next_id w <= l).
  { intros l Hl. apply Hrange. apply elem_of_app. by right. }
  apply wp_bind. eapply wp_mono; [apply seed_loop_exact| |].
  { by apply NoDup_app in Hnd as (_ & _ & ?). }
  2:{ intros e w' Ht. eapply frame_trans; [exact Hfab|].
      by eapply touched_frame. }
  intros [] wc (Hnc & Htrc & Houtc & Hinc). simpl.
  apply wp_bind, wp_list_get.
  2:{ intros _. split; [destruct Hfab; lia|]. intros l Hl.
      rewrite Houtc; [by apply Hfab|]. intros Hin. apply Hrefs_ge in Hin. lia. }
  intros first Hfirst.
  assert (Hfirst_in : first ∈ ams) by (by eapply list_elem_of_lookup_2).
  assert (Hfirst_ref : first ∉ refs).
  { apply NoDup_app in Hnd as (_ & Hd & _). by apply Hd. }
  apply wp_bind, wp_seed_slot.
  2:{ intros _. split; [destruct Hfab; lia|]. intros l Hl.
      rewrite Houtc; [by apply Hfab|]. intros Hin. apply Hrefs_ge in Hin. lia. }
  intros A0 raw0 HA0 Hraw0. apply wp_ret. simpl.
  rewrite (Houtc first Hfirst_ref) in HA0.
  split; [done|]. split; [done|]. split; [simpl; congruence|]. split.
  { split; [simpl; destruct Hfab; lia|]. intros l Hl. simpl.
    rewrite lookup_insert_ne.
    - rewrite Houtc; [by apply Hfab|]. intros Hin. apply Hrefs_ge in Hin. lia.
    - intros ->. assert (next_id w <= l); [|lia].
      apply Hrange. apply elem_of_app. by left. }
  split.
  { intros Hw l. simpl. specialize (Hwfb (Hwfa Hw)). intros Hl. rewrite Hnc. apply Hwfb.
    destruct (decide (first = l)) as [<-|Hne].
    - by rewrite HA0.
    - rewrite lookup_insert_ne in Hl by done.
      destruct (decide (l ∈ refs)) as [Hin|Hnin].
      + destruct (Hinc l Hin) as (C & raw & HC & _). by rewrite HC.
      + by rewrite Houtc in Hl. }
  split; [done|]. split.
  { intros c Hc. simpl. rewrite Hnc. by apply Hrange. }
  split.
  - intros k c Hk. destruct (Hcsa k c Hk) as [_ (m & A & base & Hm & Hst & Hold)].
    exists m, A, base. split; [done|]. split; [done|].
    assert (Hc_in : c ∈ ams) by (by eapply list_elem_of_lookup_2).
    assert (Hc_ref : c ∉ refs).
    { apply NoDup_app in Hnd as (_ & Hd & _). by apply Hd. }
    assert (Hcb : store wb !! c = Some (copy_value base A)).
    { destruct Hfrb as [_ Hfrb]. rewrite Hfrb; [done|].
      destruct (Hcsa k c Hk) as [? _]. lia. }
    destruct (decide (k = 0)) as [->|Hk0].
    + rewrite Hfirst in Hk. injection Hk as ->.
      rewrite Hcb in HA0. injection HA0 as <-.
      exists raw0. split; [done|]. simpl. by rewrite lookup_insert_eq.
    + simpl. rewrite lookup_insert_ne.
      * by rewrite Houtc.
      * intros ->. apply Hk0. apply copies_NoDup in Ha.
        exact (NoDup_lookup _ _ _ _ Ha Hk Hfirst).
  - intros k c Hk. destruct (Hcsb k c Hk) as [Hcr (m & A & base & Hm & Hst & Hold)].
    assert (Hc_in : c ∈ refs) by (by eapply list_elem_of_lookup_2).
    destruct (Hinc c Hc_in) as (C & raw & HC & Hraw & HCc).
    rewrite Hst in HC. injection HC as <-.
    exists m, A, base, raw. split; [done|]. split.
    { intros Hlt. destruct Hfra as [Hna Hfra]. rewrite <- Hfra by done.
      apply Hold. lia. }
    split; [done|]. simpl. rewrite lookup_insert_ne; [done|].
    intros ->. done.
Qed.

(** * The pair loop of [morpho_align_ref] *)

Lemma NoDup_app_disjoint (l1 l2 : list nat) i j x y :
  NoDup (l1 ++ l2) -> l1 !! i = Some x -> l2 !! j = Some y -> x <> y.
Proof.
  intros Hnd Hi Hj ->. apply NoDup_app in Hnd as (_ & Hd & _).
  apply (Hd y); by eapply list_elem_of_lookup_2.
Qed.

Lemma ref_chain_step opts sk ka ik vk full ams refs w0 t acc w acc' w' :
  NoDup (ams ++ refs) ->
  ref_chain_done opts sk ka ik vk full ams refs w0 t acc w ->
  ref_pair_done opts sk ka ik vk full ams t acc w acc' w' ->
  ref_chain_done opts sk ka ik vk full ams refs w0 (S t) acc' w'.
Proof.
  intros Hnd (logs & Hlen & Hrefs & Hp & Hpr & Hs & Htr & Hn & Hfr & Hlogs).
  intros (aref & bref & Aref & Bref & out & a & b & B & key & fld & ev & P & B' &
          Haref & Hbref & HAref & HBref & HR & Ha & Hb & -> & Hfld & HB & Hback & -> & ->).
  rewrite Hrefs in Haref, Hbref.
  replace (t + 1) with (S t) in Hb, Hbref by lia.
  pose proof Hnd as Hnd'. apply NoDup_app in Hnd' as (Hnda & _ & Hndr).
  assert (Hbne : b <> bref) by (by eapply NoDup_app_disjoint).
  rewrite lookup_insert_ne in HB by done.
  assert (Hfresh_b : forall j, j < t -> ams !! S j <> Some b /\ refs !! S j <> Some b).
  { intros j Hj. split.
    - intros Hjb. pose proof (NoDup_lookup _ _ _ _ Hnda Hjb Hb). lia.
    - intros Hjb. by eapply (NoDup_app_disjoint ams refs (S t) (S j) b b). }
  assert (Hfresh_r : forall j, j < t -> ams !! S j <> Some bref /\ refs !! S j <> Some bref).
  { intros j Hj. split.
    - intros Hjb. by eapply (NoDup_app_disjoint ams refs (S j) (S t) bref bref).
    - intros Hjb. pose proof (NoDup_lookup _ _ _ _ Hndr Hjb Hbref). lia. }
  assert (HB0 : store w0 !! b = Some B) by (rewrite <- Hfr; done).
  assert (HBref0 : store w0 !! bref = Some Bref) by (rewrite <- Hfr; done).
  exists (logs ++ [mkRefLog aref bref a b out fld ev P (next_id w)]).
  simpl. rewrite !map_app, concat_app, Hp, Hpr, Hs, Htr, length_app, Hlen.
  cbn [map concat ref_events rl_aref rl_bref rl_out rl_ev rl_P length app].
  rewrite <- app_assoc.
  split; [lia|]. do 5 (split; [done|]). split; [lia|]. split.
  { intros l Hl. destruct (Hl t) as [Hl1 Hl2]; [lia|].
    rewrite !lookup_insert_ne by congruence.
    apply Hfr. intros j Hj. apply Hl. lia. }
  intros j lg Hj. apply lookup_snoc_Some in Hj as [[Hj1 Hj2]|[Hj1 Hj2]].
  - destruct (Hlogs j lg Hj2)
      as (H1 & H2 & H3 & H4 & Cref & C & key' & B'' & w2 & HCref & HC & Hk & Hf & Hsr & Hsb & Hbp).
    do 4 (split; [done|]). exists Cref, C, key', B'', w2.
    do 4 (split; [done|]). simpl.
    destruct (Hfresh_b j) as [Hb1 Hb2]; [lia|].
    destruct (Hfresh_r j) as [Hr1 Hr2]; [lia|].
    rewrite !lookup_insert_ne by congruence. done.
  - subst lg. unfold ref_pair_logged. simpl. rewrite Hj1, Hlen.
    do 4 (split; [done|]).
    eexists Bref, B, key, B', _. do 4 (split; [done|]).
    rewrite lookup_insert_ne by done. rewrite !lookup_insert_eq.
    split; [done|]. split; [done|]. exact Hback.
Qed.

Lemma ref_chain_spec opts sk ka ik vk full ams refs n w0 :
  NoDup (ams ++ refs) ->
  wp (ref_chain opts sk ka ik vk full ams refs n)
     (fun r w' => ref_chain_done opts sk ka ik vk full ams refs w0 n r w')
     (fun _ w' => touched_only (ams ++ refs) w0 w') w0.
Proof.
  intros Hnd. unfold ref_chain.
  eapply wp_mono;
    [apply (for_loop_wp
              (fun t r w' => ref_chain_done opts sk ka ik vk full ams refs w0 t r w' /\
                             touched_only (ams ++ refs) w0 w')
              (fun _ w' => touched_only (ams ++ refs) w0 w'))
    | by intros r w' [? _] | auto].
  - split; [|apply touched_only_refl].
    exists []. simpl. rewrite app_nil_r. repeat split; done.
  - intros i s1 w1 Hi [Hinv Ht].
    pose proof Hinv as (? & _ & Hrefs & _).
    eapply wp_mono; [apply align_ref_pair_spec | |].
    + intros s2 w2 Hdone. split; [by eapply ref_chain_step|].
      eapply touched_only_trans; [exact Ht|].
      destruct Hdone as (aref & bref & Aref & Bref & out & a & b & B & key & fld & ev &
                         P & B' & Haref & Hbref & _ & _ & _ & Ha & Hb & _ & _ & _ & _ & -> & _).
      rewrite Hrefs in Hbref. touched.
    + intros e w2 Ht2. simpl in Ht2. rewrite Hrefs in Ht2.
      by eapply touched_only_trans.
Qed.

(** * The reference list (lines 172-179) *)

Lemma deref_all_spec ms w :
  wp (map_M deref ms) (fun vals w' => w' = w /\ length vals = length ms)
     (fun _ w' => w' = w) w.
Proof.
  apply (map_M_wp (fun pre ys w1 => w1 = w /\ length ys = length pre)
                  (fun _ w' => w' = w)).
  - done.
  - intros pre ys x w1 _ [-> Hlen]. apply wp_deref; [|done].
    intros A _. split; [done|]. rewrite !length_app. simpl. lia.
Qed.

Lemma new_objects_spec reduced w :
  wp (map_M new_object reduced)
     (fun given w' =>
        length given = length reduced /\ trace w' = trace w /\
        frame (next_id w) w w' /\ (wf w -> wf w') /\
        forall c, c ∈ given -> c < next_id w')
     (fun _ _ => False) w.
Proof.
  eapply wp_mono;
    [apply (map_M_wp
              (fun pre ys w1 =>
                 length ys = length pre /\ trace w1 = trace w /\
                 frame (next_id w) w w1 /\ (wf w -> wf w1) /\
                 forall c, c ∈ ys -> c < next_id w1)
              (fun _ _ => False)) | auto | auto].
  - repeat split; try done. intros c Hc. by apply elem_of_nil in Hc.
  - intros pre ys x w1 _ (Hlen & Htr & [Hn Hfr] & Hwf & Hlt).
    unfold new_object. apply wp_bind, wp_fresh, wp_bind, wp_assign, wp_ret. simpl.
    split; [rewrite !length_app; simpl; lia|]. split; [done|]. split.
    { split; [simpl; lia|]. intros l Hl. simpl.
      rewrite lookup_insert_ne by lia. by apply Hfr. }
    split.
    { intros Hw l. simpl. specialize (Hwf Hw).
      destruct (decide (next_id w1 = l)) as [<-|Hne]; [lia|].
      rewrite lookup_insert_ne by done. intros Hl. apply Hwf in Hl. lia. }
    intros c Hc. simpl. apply elem_of_app in Hc as [Hc|Hc].
    + apply Hlt in Hc. lia.
    + apply list_elem_of_singleton in Hc as ->. lia.
Qed.

Lemma reference_models_spec models models_ref ns sm sk w :
  wp (reference_models models models_ref ns sm sk)
     (fun given w' => refs_made models models_ref ns sm sk w given w')
     (fun _ w' => frame (next_id w) w w') w.
Proof.
  unfold reference_models. destruct models_ref as [g|].
  - apply wp_ret. split; [apply frame_refl|]. split; [done|].
    split; [|done]. exists []. by rewrite app_nil_r.
  - apply wp_bind. eapply wp_mono; [apply copies_spec| |by intros e w' [_ ?]].
    intros ms w1 (Hlen & Htr & Hfr & Hwf & _). simpl.
    unfold downsampling.
    apply wp_bind. eapply wp_mono; [apply deref_all_spec| |by intros e w' ->].
    intros vals w2 [-> Hvals]. simpl.
    apply wp_bind, wp_log.
    destruct (Downsample ns sm sk vals) as [err|reduced] eqn:HD.
    { apply wp_raise. split; [simpl; by destruct Hfr|]. intros l Hl. simpl.
      by apply Hfr. }
    eapply wp_mono; [apply new_objects_spec| |done].
    intros given w3 (Hg & Htr3 & Hfr3 & Hwf3 & _). simpl in *.
    split.
    { eapply frame_trans; [exact Hfr|]. eapply frame_weaken; [|exact Hfr3].
      simpl. by destruct Hfr. }
    split.
    { intros Hw. apply Hwf3. intros l. simpl. by apply Hwf. }
    split.
    { exists [EvDownsampling ms]. rewrite Htr3, Htr. done. }
    exists vals, reduced. split; [done|]. split; [congruence|done].
Qed.

(** A run of [morpho_align_ref] that returns went through the three
    stages. *)
Lemma morpho_align_ref_Ok models models_ref ns sm opts sk ka ik vk full w
    ams refs ps psr ss w' :
  morpho_align_ref models models_ref ns sm opts sk ka ik vk full w
    = Ok (ams, refs, ps, psr, ss) w' ->
  exists given wd refs0 w1 r,
    reference_models models models_ref ns sm sk w = Ok given wd /\
    ref_setup models given sk ka wd = Ok (ams, refs0) w1 /\
    ref_chain opts sk ka ik vk full ams refs0 (length ams - 1) w1 = Ok r w' /\
    refs = r_align_models_ref r /\ ps = r_pis r /\ psr = r_pis_ref r /\
    ss = r_sigma2s r.
Proof.
  unfold morpho_align_ref. intros H.
  apply bind_Ok in H as (given & wd & Hg & H).
  apply bind_Ok in H as ([ams' refs0] & w1 & Hsetup & H).
  apply bind_Ok in H as (r & w2 & Hchain & H).
  unfold ret in H. simpl in *. simplify_eq. by exists given, wd, refs0, w1, r.
Qed.

(** [morpho_align_ref] leaves every object that existed before the call as
    it was, whether it returns or raises. *)
Lemma morpho_align_ref_frame models models_ref ns sm opts sk ka ik vk full w :
  wp (morpho_align_ref models models_ref ns sm opts sk ka ik vk full)
     (fun _ w' => frame (next_id w) w w')
     (fun _ w' => frame (next_id w) w w') w.
Proof.
  unfold morpho_align_ref.
  apply wp_bind. eapply wp_mono; [apply reference_models_spec| |auto].
  intros given wd (Hfd & _). simpl.
  assert (Hle : next_id w <= next_id wd) by (by destruct Hfd).
  apply wp_bind. eapply wp_mono; [apply ref_setup_spec| |].
  2:{ intros e w' Hf. eapply frame_trans; [exact Hfd|]. by eapply frame_weaken. }
  intros [ams refs] w1 (_ & _ & _ & Hf1 & _ & Hnd & Hrange & _). simpl in *.
  assert (Hf01 : frame (next_id w) w w1).
  { eapply frame_trans; [exact Hfd|]. by eapply frame_weaken. }
  assert (Hchain : forall w', touched_only (ams ++ refs) w1 w' -> frame (next_id w) w w').
  { intros w' Ht. eapply frame_trans; [exact Hf01|].
    eapply touched_frame; [|exact Ht]. intros l Hl. apply Hrange in Hl. lia. }
  apply wp_bind. eapply wp_mono; [by apply ref_chain_spec| |].
  2:{ intros e w' Ht. by apply Hchain. }
  intros r w2 Hdone. apply wp_ret.
  pose proof (ref_chain_spec opts sk ka ik vk full ams refs (length ams - 1) w1 Hnd) as Hspec.
  unfold wp in Hspec.
  destruct Hdone as (logs & Hlen & _ & _ & _ & _ & _ & Hn & Hfr & Hlogs).
  split; [destruct Hf01; lia|]. intros l Hl.
  destruct Hf01 as [_ Hf01]. rewrite <- Hf01 by done. apply Hfr.
  intros j Hj. split; intros Hin; apply list_elem_of_lookup_2 in Hin;
    (assert (next_id wd <= l); [apply Hrange, elem_of_app; auto|lia]).
Qed.


(** * What the trace of a run of [morpho_align_ref] shows *)

Lemma back_fields_app tr1 tr2 :
  back_fields (tr1 ++ tr2) = back_fields tr1 ++ back_fields tr2.
Proof. apply omap_app. Qed.

Lemma ref_logs_events opts sk ka ik vk full ams refs w0 w (logs : list RefLog) :
  (forall j lg, logs !! j = Some lg ->
                ref_pair_logged opts sk ka ik vk full ams refs w0 w j lg) ->
  Forall (back_event_of full) logs.
Proof.
  intros Hlogs. apply Forall_lookup. intros j lg Hlg.
  destruct (Hlogs j lg Hlg)
    as (_ & _ & _ & _ & Cref & C & key & B' & w2 & _ & _ & _ & _ & _ & _ & Hback).
  unfold back_projected in Hback. unfold back_event_of. destruct full.
  - destruct Hback as (A2 & out2 & _ & _ & ? & ? & _). eauto.
  - destruct Hback as (q & tout & _ & _ & ? & ? & _). eauto.
Qed.

Lemma ref_registrations ka full logs :
  Forall (back_event_of full) logs ->
  registrations (concat (map (ref_events ka) logs))
  = map (fun lg => (rl_aref lg, rl_bref lg, inr (rl_out lg))) logs.
Proof.
  induction 1 as [|lg logs Hlg _ IH]; [done|].
  cbn [map concat]. rewrite registrations_app, IH. unfold ref_events.
  unfold back_event_of in Hlg. destruct full.
  - destruct Hlg as (out2 & -> & _). done.
  - destruct Hlg as (q & tout & -> & _). done.
Qed.

Lemma ref_back_fields ka full logs :
  Forall (back_event_of full) logs ->
  back_fields (concat (map (ref_events ka) logs)) = map rl_fld logs.
Proof.
  induction 1 as [|lg logs Hlg _ IH]; [done|].
  cbn [map concat]. rewrite back_fields_app, IH. unfold ref_events.
  unfold back_event_of in Hlg. destruct full.
  - destruct Hlg as (out2 & -> & _). done.
  - destruct Hlg as (q & tout & -> & _). done.
Qed.

Lemma ref_assignments ka logs :
  Forall (back_event_of true) logs ->
  exists outs,
    length outs = length logs /\
    assignments (concat (map (ref_events ka) logs))
    = zip_with (fun lg out2 => (rl_b lg, rl_a lg, rl_fld lg, inr out2)) logs outs /\
    map rl_P logs = map fst outs.
Proof.
  induction 1 as [|lg logs Hlg _ (outs & Hlen & Has & HP)]; [by exists []|].
  destruct Hlg as (out2 & Hev & HPl). exists (out2 :: outs).
  split; [simpl; lia|]. split.
  - cbn [map concat]. rewrite assignments_app, Has. unfold ref_events.
    rewrite Hev. done.
  - simpl. by rewrite HPl, HP.
Qed.

Lemma ref_pis_transform logs :
  Forall (back_event_of false) logs ->
  map rl_P logs = map (fun lg => reg_P (rl_out lg)) logs.
Proof.
  induction 1 as [|lg logs Hlg _ IH]; [done|].
  destruct Hlg as (q & tout & _ & HPl). simpl. by rewrite HPl, IH.
Qed.

Lemma uns_registered_field B ka ik key n out :
  ik <> Some key ->
  uns (registered B ka ik (Some key) n out) !! key = Some (mkPyRef n (reg_field out)).
Proof.
  intros Hik. unfold registered. destruct ik as [k'|]; simpl.
  - rewrite lookup_insert_ne by congruence. apply lookup_insert_eq.
  - apply lookup_insert_eq.
Qed.

(** C7 (as the code has it).  When [morpho_align_ref] returns: the
    full-resolution chain has the length of [models] and the reference
    chain the length of the reference list, so the two are equally long
    when the caller's reference list is as long as [models] or when the
    list comes from a length-preserving downsampling; and for every pair
    [i], sample [i+1] of both chains holds under [vecfld_key_added] one and
    the same object, which is the field handed to the back-projection call
    of that pair and, unless the iteration history is stored under the same
    key, the field [BA_align] fitted on the reference pair. *)
Theorem C7_shared_field models models_ref ns sm opts sk ka ik vk full w
    ams refs ps psr ss w' :
  morpho_align_ref models models_ref ns sm opts sk ka ik vk full w
    = Ok (ams, refs, ps, psr, ss) w' ->
  length ams = length models /\
  (forall g, models_ref = Some g -> length refs = length g) /\
  (models_ref = None ->
   (forall vals reduced, Downsample ns sm sk vals = inr reduced ->
                         length reduced = length vals) ->
   length refs = length models) /\
  exists (flds : list PyRef) (calls : list (nat * nat * RegisterOut)),
    length flds = length ams - 1 /\ length calls = length ams - 1 /\
    back_fields (trace w') = back_fields (trace w) ++ flds /\
    registrations (trace w') =
      registrations (trace w) ++
      map (fun c => (fst (fst c), snd (fst c), inr (snd c))) calls /\
    forall i fld, flds !! i = Some fld ->
      exists aref bref out b B Bref key,
        calls !! i = Some (aref, bref, out) /\
        refs !! i = Some aref /\ refs !! S i = Some bref /\
        ams !! S i = Some b /\
        store w' !! b = Some B /\ store w' !! bref = Some Bref /\
        vk = Some key /\
        uns Bref !! key = Some fld /\ uns B !! key = Some fld /\
        (ik <> vk -> oval fld = reg_field out).
Proof.
  intros Hrun.
  apply morpho_align_ref_Ok in Hrun
    as (given & wd & refs0 & w1 & r & Hgiven & Hsetup & Hchain & -> & -> & -> & ->).
  pose proof (wp_Ok _ _ _ _ _ _ (reference_models_spec models models_ref ns sm sk w) Hgiven)
    as (_ & _ & (pre & Htrd & Hpre_r & Hpre_t & Hpre_a) & Hmade).
  pose proof (wp_Ok _ _ _ _ _ _ (ref_setup_spec models given sk ka wd) Hsetup)
    as (Hlena & Hlenr & Htr1 & _ & _ & Hnd & _).
  simpl in *.
  pose proof (wp_Ok _ _ _ _ _ _
    (ref_chain_spec opts sk ka ik vk full ams refs0 (length ams - 1) w1 Hnd) Hchain)
    as (logs & Hlen & Hrefs & _ & _ & _ & Htr & _ & _ & Hlogs).
  pose proof (ref_logs_events _ _ _ _ _ _ _ _ _ _ _ Hlogs) as Hev.
  rewrite Hrefs.
  split; [done|]. split.
  { intros g ->. destruct Hmade as [-> _]. done. }
  split.
  { intros -> HD. destruct Hmade as (vals & reduced & Hred & Hvals & Hg).
    rewrite Hlenr, Hg, (HD _ _ Hred). done. }
  assert (Hback_pre : back_fields pre = []).
  { clear -Hpre_t Hpre_a. induction pre as [|ev pre IH]; [done|].
    destruct ev; simpl in *; try done; auto. }
  exists (map rl_fld logs), (map (fun lg => (rl_aref lg, rl_bref lg, rl_out lg)) logs).
  rewrite !length_map. split; [done|]. split; [done|]. split.
  { rewrite Htr, Htr1, Htrd, !back_fields_app, Hback_pre, (ref_back_fields ka full) by done.
    by rewrite app_nil_r. }
  split.
  { rewrite Htr, Htr1, Htrd, !registrations_app, Hpre_r, (ref_registrations ka full) by done.
    by rewrite app_nil_r, map_map. }
  intros i fld Hi. rewrite list_lookup_fmap in Hi.
  destruct (logs !! i) as [lg|] eqn:Hlg; [|done]. simpl in Hi. injection Hi as <-.
  destruct (Hlogs i lg Hlg)
    as (Haref & Hbref & _ & Hb & Cref & C & key & B' & w2 & _ & _ & -> & Hf & Hsr & Hsb & Hback).
  eexists (rl_aref lg), (rl_bref lg), (rl_out lg), (rl_b lg), B', _, key.
  split; [by rewrite list_lookup_fmap, Hlg|].
  do 3 (split; [done|]). split; [done|]. split; [exact Hsr|]. split; [done|].
  split; [done|]. split.
  - unfold back_projected in Hback. destruct full.
    + destruct Hback as (A2 & out2 & _ & _ & _ & _ & ->). simpl. apply lookup_insert_eq.
    + destruct Hback as (q & tout & _ & _ & _ & _ & ->). simpl. apply lookup_insert_eq.
  - intros Hik. rewrite uns_registered_field in Hf by done.
    injection Hf as <-. done.
Qed.

(** C9.  In both aligners the result lists follow the pairs: the calls of
    [BA_align] made during a run that returns are, in order, those on
    (sample [k], sample [k+1]) for [k = 0 .. N-2], and entry [k] of the
    assignment-matrix list and of the variance list is what call [k]
    returned.  In [morpho_align_ref] this holds of [pis_ref] and [sigma2s]
    on the reference chain, while entry [k] of [pis] is the matrix
    [BA_transform_and_assignment] returned for the full-resolution pair
    [k], or entry [k] of [pis_ref] again when that call is not made. *)
Theorem C9_results_in_pair_order :
  (forall models opts sk ka ik vk lk w ams ps ss w',
     morpho_align models opts sk ka ik vk lk w = Ok (ams, ps, ss) w' ->
     exists calls : list (nat * nat * RegisterOut),
       registrations (trace w') =
         registrations (trace w) ++
         map (fun c => (fst (fst c), snd (fst c), inr (snd c))) calls /\
       length calls = length models - 1 /\
       ps = map (fun c => reg_P (snd c)) calls /\
       ss = map (fun c => reg_sigma2 (snd c)) calls /\
       forall k a b out, calls !! k = Some (a, b, out) ->
                         ams !! k = Some a /\ ams !! S k = Some b) /\
  (forall models models_ref ns sm opts sk ka ik vk full w ams refs ps psr ss w',
     morpho_align_ref models models_ref ns sm opts sk ka ik vk full w
       = Ok (ams, refs, ps, psr, ss) w' ->
     exists calls : list (nat * nat * RegisterOut),
       registrations (trace w') =
         registrations (trace w) ++
         map (fun c => (fst (fst c), snd (fst c), inr (snd c))) calls /\
       length calls = length models - 1 /\
       psr = map (fun c => reg_P (snd c)) calls /\
       ss = map (fun c => reg_sigma2 (snd c)) calls /\
       (forall k a b out, calls !! k = Some (a, b, out) ->
                          refs !! k = Some a /\ refs !! S k = Some b) /\
       length ps = length models - 1 /\
       if full then
         exists backs : list (nat * nat * PyRef * (Pi * Coords)),
           assignments (trace w') =
             assignments (trace w) ++
             map (fun c => (fst (fst (fst c)), snd (fst (fst c)), snd (fst c),
                            inr (snd c))) backs /\
           ps = map (fun c => fst (snd c)) backs /\
           forall k b a fld out2, backs !! k = Some (b, a, fld, out2) ->
                                  ams !! k = Some a /\ ams !! S k = Some b
       else ps = psr).
Proof.
  split.
  - intros models opts sk ka ik vk lk w ams ps ss w' Hrun.
    apply morpho_align_Ok in Hrun as (w1 & w2 & r & Hseed & Hcopy & Hchain & -> & ->).
    pose proof (wp_Ok _ _ _ _ _ _ (seed_models_spec models sk ka w) Hseed)
      as [(_ & Htr1 & _) _].
    pose proof (wp_Ok _ _ _ _ _ _ (copies_spec models w1) Hcopy) as Hc.
    pose proof (copies_NoDup _ _ _ _ Hc) as Hnd.
    destruct Hc as (Hlen' & Htr2 & _).
    pose proof (wp_Ok _ _ _ _ _ _
      (align_chain_spec opts sk ka ik vk lk ams (length ams - 1) w2 Hnd) Hchain)
      as (logs & evs & Hlen & Hp & Hs & Htr & Hreg & _ & _ & _ & Hlogs).
    exists (map (fun lg => (pl_a lg, pl_b lg, pl_out lg)) logs).
    rewrite length_map, !map_map. simpl.
    split; [by rewrite Htr, registrations_app, Hreg, Htr2, Htr1|].
    split; [lia|]. split; [done|]. split; [done|].
    intros k a b out Hk. rewrite list_lookup_fmap in Hk.
    destruct (logs !! k) as [lg|] eqn:Hlg; [|done]. simpl in Hk.
    injection Hk as <- <- <-.
    destruct (Hlogs k lg Hlg) as (? & ? & _). done.
  - intros models models_ref ns sm opts sk ka ik vk full w ams refs ps psr ss w' Hrun.
    apply morpho_align_ref_Ok in Hrun
      as (given & wd & refs0 & w1 & r & Hgiven & Hsetup & Hchain & -> & -> & -> & ->).
    pose proof (wp_Ok _ _ _ _ _ _
      (reference_models_spec models models_ref ns sm sk w) Hgiven)
      as (_ & _ & (pre & Htrd & Hpre_r & Hpre_t & Hpre_a) & _).
    pose proof (wp_Ok _ _ _ _ _ _ (ref_setup_spec models given sk ka wd) Hsetup)
      as (Hlena & Hlenr & Htr1 & _ & _ & Hnd & _).
    simpl in *.
    pose proof (wp_Ok _ _ _ _ _ _
      (ref_chain_spec opts sk ka ik vk full ams refs0 (length ams - 1) w1 Hnd) Hchain)
      as (logs & Hlen & Hrefs & Hp & Hpr & Hs & Htr & _ & _ & Hlogs).
    pose proof (ref_logs_events _ _ _ _ _ _ _ _ _ _ _ Hlogs) as Hev.
    rewrite Hrefs.
    exists (map (fun lg => (rl_aref lg, rl_bref lg, rl_out lg)) logs).
    rewrite length_map, !map_map. simpl.
    split.
    { rewrite Htr, Htr1, Htrd, !registrations_app, Hpre_r,
        (ref_registrations ka full) by done.
      by rewrite app_nil_r. }
    split; [lia|]. split; [done|]. split; [done|]. split.
    { intros k a b out Hk. rewrite list_lookup_fmap in Hk.
      destruct (logs !! k) as [lg|] eqn:Hlg; [|done]. simpl in Hk.
      injection Hk as <- <- <-.
      destruct (Hlogs k lg Hlg) as (? & ? & _). done. }
    split; [rewrite Hp, length_map; lia|].
    destruct full.
    + destruct (ref_assignments ka logs Hev) as (outs & Hlo & Has & HP).
      exists (zip_with (fun lg out2 => (rl_b lg, rl_a lg, rl_fld lg, out2)) logs outs).
      split; [|split].
      * rewrite Htr, Htr1, Htrd, !assignments_app, Hpre_a, Has, app_nil_r. f_equal.
        clear. revert outs. induction logs as [|lg logs IH]; intros [|o outs]; simpl;
          try done. by rewrite IH.
      * rewrite Hp, HP. clear -Hlo. revert outs Hlo.
        induction logs as [|lg logs IH]; intros [|o outs] Hlo; simpl in *; try done.
        f_equal. apply IH. lia.
      * intros k b a fld out2 Hk.
        apply lookup_zip_with_Some in Hk as (lg & o & Heq & Hlg & _).
        injection Heq as -> -> -> ->.
        destruct (Hlogs k lg Hlg) as (_ & _ & ? & ? & _). done.
    + rewrite Hp, Hpr. by apply ref_pis_transform.
Qed.

(** C1, where it fails.  [morpho_align] on the one sample
    [{obsm: {"spatial": c}}], called with the default keys: it returns, and
    the sample the caller passed (object 0) now has the slots
    "align_spatial", "Rigid_3d_align_spatial", "Coarse_alignment" and
    "optimal_RnA", which it did not have. *)
Theorem C1_morpho_align_writes_caller_sample (x : Expr) (c : Coords) (opts : Opts)
    (ik vk lk : option string) :
  let A := mkAnnData x ∅ {["spatial" := c]} ∅ in
  let w := mkWorld {[0 := A]} 1 [] in
  exists w' A',
    morpho_align [0] opts "spatial" "align_spatial" ik vk lk w = Ok ([1], [], []) w' /\
    store w !! 0 = Some A /\
    store w' !! 0 = Some A' /\
    A' <> A /\
    Forall (fun key => obsm A !! key = None /\ obsm A' !! key = Some c)
           (seeded_slots "align_spatial").
Proof.
  intros A w.
  assert (HA : store w !! 0 = Some A) by done.
  assert (Hraw : obsm A !! "spatial" = Some c) by done.
  pose proof (morpho_align_single 0 A c opts "spatial" "align_spatial" ik vk lk w HA Hraw)
    as Hrun.
  simpl in Hrun. eexists _, _. split; [exact Hrun|]. split; [done|]. split.
  { simpl. rewrite lookup_insert_ne by done. apply lookup_insert_eq. }
  assert (Hslots : Forall (fun key => obsm A !! key = None /\
      obsm (with_obsm (with_obsm (with_obsm (with_obsm A "align_spatial" c)
              "Rigid_3d_align_spatial" c) "Coarse_alignment" c) "optimal_RnA" c)
        !! key = Some c) (seeded_slots "align_spatial")).
  { unfold seeded_slots. repeat constructor. }
  split; [|exact Hslots].
  intros Heq. apply Forall_cons_1 in Hslots as [[Hn Hs] _].
  rewrite Heq in Hs. rewrite Hn in Hs. done.
Qed.

(** The other half of C1: [morpho_align_ref] changes no object that
    existed when it was called. *)
Lemma morpho_align_ref_keeps_inputs models models_ref ns sm opts sk ka ik vk full
    w l A :
  wf w -> store w !! l = Some A ->
  match morpho_align_ref models models_ref ns sm opts sk ka ik vk full w with
  | Ok _ w' => store w' !! l = Some A
  | Raise _ w' => store w' !! l = Some A
  end.
Proof.
  intros Hwf HA.
  assert (Hl : l < next_id w) by (apply Hwf; by rewrite HA).
  pose proof (morpho_align_ref_frame models models_ref ns sm opts sk ka ik vk full w) as H.
  unfold wp in H.
  destruct (morpho_align_ref _ _ _ _ _ _ _ _ _ _ w) as [r w'|e w'];
    destruct H as [_ H]; by rewrite H.
Qed.

(** C10.  In an iteration [i] of the pair loop of [morpho_align] that runs
    with a label key, the matrix handed to [BA_align] has one row per point
    of B, all rows are the same, and entry [(j, k)] is [1] when
    [catACode[k]] differs from [catBCode[i]] (the code of point number [i]
    of B, [i] being the index of the pair) and [0] when they are equal,
    whatever the row [j]. *)
Theorem C10_label_rows_use_pair_index opts sk ka ik vk lk ams i acc w acc' w' :
  align_pair opts sk ka ik vk (Some lk) ams i acc w = Ok acc' w' ->
  exists a b A B csA vsA csB vsB S res tl,
    ams !! i = Some a /\ ams !! (i + 1) = Some b /\
    store w !! a = Some A /\ store w !! b = Some B /\
    obs A !! lk = Some (CatCol csA vsA) /\ obs B !! lk = Some (CatCol csB vsB) /\
    trace w' = trace w ++ EvRegister a b "optimal_RnA" (Some S) res :: tl /\
    let catACode := fst (label_codes (union1d csA csB) vsA vsB) in
    let catBCode := snd (label_codes (union1d csA csB) vsA vsB) in
    shape S = (length catBCode, length catACode) /\
    (forall j j', j < length catBCode -> j' < length catBCode ->
                  mrows S !! j = mrows S !! j') /\
    forall j k ca, j < length catBCode -> catACode !! k = Some ca ->
      exists cb, catBCode !! i = Some cb /\
                 (entry S j k = Some 1%Z <-> ca <> cb) /\
                 (entry S j k = Some 0%Z <-> ca = cb).
Proof.
  intros Hrun.
  pose proof (wp_Ok _ _ _ _ _ _
    (align_pair_spec opts sk ka ik vk (Some lk) ams i acc w) Hrun)
    as (a & b & A & B & sim & out & fld & q & tout & Ha & Hb & HA & HB & Hsim & _ & _ & _ &
        _ & -> & _).
  destruct Hsim as (csA & vsA & csB & vsB & S & HcA & HcB & HS & ->).
  exists a, b, A, B, csA, vsA, csB, vsB, S, (inr out),
         [EvTransform fld q (inr tout); EvEmptyCache].
  do 6 (split; [done|]). split; [done|].
  set (cA := fst (label_codes (union1d csA csB) vsA vsB)) in *.
  set (cB := snd (label_codes (union1d csA csB) vsA vsB)) in *.
  simpl. split; [by eapply LabelSimMat_shape|].
  destruct (cB !! i) as [cb|] eqn:Hcb.
  - rewrite (LabelSimMat_value i cA cB cb Hcb) in HS. injection HS as <-. simpl.
    split.
    + intros j j' Hj Hj'. by rewrite !lookup_replicate_2.
    + intros j k ca Hj Hk. exists cb. split; [done|].
      unfold entry. simpl. rewrite lookup_replicate_2 by done. simpl.
      unfold not_equal_to. rewrite list_lookup_fmap, Hk. simpl.
      destruct (Z.eqb_spec ca cb); split; split; intros H; try done; by injection H.
  - assert (cB = []) as HcB0.
    { destruct cB as [|c cB']; [done|]. unfold LabelSimMat in HS.
      rewrite fill_columns_None in HS; done. }
    rewrite HcB0. simpl. split; intros; lia.
Qed.

(** * [morpho_align] returns when the primitives do *)

Lemma has_slot_seed_rel sk w0 w1 m :
  seed_rel sk w0 w1 -> has_slot sk w0 m -> has_slot sk w1 m.
Proof.
  intros Hrel (A & HA & Hsk). pose proof Hrel as (_ & _ & Hst).
  specialize (Hst m). rewrite HA in Hst.
  destruct (store w1 !! m) as [A1|] eqn:HA1; [|done].
  exists A1. split; [done|]. by rewrite (seed_rel_raw sk w0 w1 m A A1).
Qed.

Lemma seed_loop_returns key sk ls w0 w :
  seed_rel sk w0 w -> (forall m, m ∈ ls -> has_slot sk w0 m) ->
  exists w', for_each ls (seed_slot key sk) w = Ok tt w' /\ seed_rel sk w0 w'.
Proof.
  revert w. induction ls as [|m ls IH]; intros w Hrel Hall.
  - by exists w.
  - destruct (has_slot_seed_rel sk w0 w m Hrel) as (A & HA & [raw Hraw]).
    { apply Hall. by left. }
    simpl. unfold bind. rewrite (seed_once key sk m A raw w HA Hraw).
    apply IH.
    + eapply seed_rel_trans; [exact Hrel|]. by apply seed_rel_step.
    + intros m' Hm'. apply Hall. by right.
Qed.

Lemma seed_models_returns models sk ka w :
  (forall m, m ∈ models -> has_slot sk w m) ->
  exists w', seed_models models sk ka w = Ok tt w' /\ seed_rel sk w w'.
Proof.
  intros Hall. unfold seed_models, bind.
  destruct (seed_loop_returns ka sk models w w (seed_rel_refl sk w) Hall)
    as (w1 & -> & R1).
  destruct (seed_loop_returns "Rigid_3d_align_spatial" sk models w w1 R1 Hall)
    as (w2 & -> & R2).
  destruct (seed_loop_returns "Coarse_alignment" sk models w w2 R2 Hall)
    as (w3 & -> & R3).
  destruct (seed_loop_returns "optimal_RnA" sk models w w3 R3 Hall)
    as (w4 & -> & R4).
  by exists w4.
Qed.

Lemma copies_return ls w :
  (forall m, m ∈ ls -> is_Some (store w !! m)) ->
  exists ams w', map_M copy ls w = Ok ams w'.
Proof.
  revert w. induction ls as [|m ls IH]; intros w Hall.
  - by exists [], w.
  - destruct (Hall m) as [A HA]; [by left|].
    simpl. unfold bind, copy at 1. rewrite HA.
    edestruct IH as (ams & w' & ->).
    + intros m' Hm'. simpl. apply lookup_insert_is_Some'. right. apply Hall. by right.
    + by eexists _, _.
Qed.

Lemma align_pair_returns opts sk ka ik key ams i acc w a b A B :
  (forall o s X Y sim, exists out, Register o s X Y sim = inr out) ->
  (forall f q, exists out, Transform f q = inr out) ->
  ams !! i = Some a -> ams !! (i + 1) = Some b ->
  store w !! a = Some A -> store w !! b = Some B ->
  is_Some (obsm B !! sk) ->
  exists acc' w', align_pair opts sk ka ik (Some key) None ams i acc w = Ok acc' w'.
Proof.
  intros Hreg Htf Ha Hb HA HB [q0 Hq0].
  destruct (Hreg opts "optimal_RnA" A B None) as [out Hout].
  assert (Hfld : exists fld,
             uns (registered B ka ik (Some key) (next_id w) out) !! key = Some fld).
  { unfold registered. destruct ik as [k'|]; simpl.
    - apply lookup_insert_is_Some'. right. apply lookup_insert_is_Some'. by left.
    - apply lookup_insert_is_Some'. by left. }
  destruct Hfld as [fld Hfld].
  assert (Hq : exists q, obsm (registered B ka ik (Some key) (next_id w) out) !! sk = Some q).
  { rewrite obsm_registered. apply lookup_insert_is_Some'. right. by exists q0. }
  destruct Hq as [q Hq].
  destruct (Htf (oval fld) q) as [tout Htout].
  unfold align_pair, list_get. rewrite Ha, Hb.
  unfold bind at 1. unfold ret at 1. unfold bind at 1. unfold ret at 1.
  unfold bind at 1. unfold ret at 1.
  unfold bind at 1. unfold BA_align.
  unfold bind at 1. unfold deref at 1. rewrite HA.
  unfold bind at 1. unfold deref at 1. rewrite HB. rewrite Hout.
  unfold bind at 1. unfold log at 1. unfold bind at 1. unfold fresh at 1.
  unfold bind at 1. unfold fresh at 1. unfold bind at 1. unfold assign at 1.
  unfold ret at 1. cbn [store next_id trace].
  unfold bind at 1. unfold uns_get. unfold bind at 1. unfold deref at 1.
  cbn [store next_id trace]. rewrite lookup_insert_eq.
  fold (registered B ka ik (Some key) (next_id w) out).
  cbn [mbind option_bind]. rewrite Hfld. unfold ret at 1.
  unfold bind at 1. unfold obsm_get. unfold bind at 1. unfold deref at 1.
  cbn [store next_id trace]. rewrite lookup_insert_eq. rewrite Hq. unfold ret at 1.
  unfold bind at 1. unfold BA_transform. rewrite Htout.
  unfold bind at 1. unfold log at 1. unfold ret at 1.
  unfold bind at 1. unfold obsm_set. unfold bind at 1. unfold deref at 1.
  cbn [store next_id trace]. rewrite lookup_insert_eq. unfold assign at 1.
  unfold bind at 1. unfold empty_cache, log. unfold ret.
  by eexists _, _.
Qed.

Lemma align_chain_returns opts sk ka ik key ams n w :
  (forall o s X Y sim, exists out, Register o s X Y sim = inr out) ->
  (forall f q, exists out, Transform f q = inr out) ->
  n <= length ams - 1 ->
  (forall c, c ∈ ams -> has_slot sk w c) ->
  wp (align_chain opts sk ka ik (Some key) None ams n)
     (fun _ _ => True) (fun _ _ => False) w.
Proof.
  intros Hreg Htf Hn Hall. unfold align_chain.
  eapply wp_mono;
    [apply (for_loop_wp (fun _ _ w1 => forall c, c ∈ ams -> has_slot sk w1 c)
                        (fun _ _ => False)) | done | done].
  - done.
  - intros i s1 w1 Hi Hinv.
    assert (Hai : is_Some (ams !! i)) by (apply lookup_lt_is_Some_2; lia).
    assert (Hbi : is_Some (ams !! (i + 1))) by (apply lookup_lt_is_Some_2; lia).
    destruct Hai as [a Ha], Hbi as [b Hb].
    destruct (Hinv a) as (A & HA & _); [by eapply list_elem_of_lookup_2|].
    destruct (Hinv b) as (B & HB & HBsk); [by eapply list_elem_of_lookup_2|].
    destruct (align_pair_returns opts sk ka ik key ams i s1 w1 a b A B
                Hreg Htf Ha Hb HA HB HBsk) as (acc' & w2 & Hrun).
    pose proof (wp_Ok _ _ _ _ _ _
      (align_pair_spec opts sk ka ik (Some key) None ams i s1 w1) Hrun)
      as (a' & b' & A' & B' & sim & out & fld & q & tout & Ha' & Hb' & HA' & HB' & _ & _ &
          _ & _ & _ & Hw2 & _).
    unfold wp. rewrite Hrun. simplify_eq.
    intros c Hc. destruct (decide (c = b)) as [->|Hne].
    + eexists. simpl. rewrite lookup_insert_eq. split; [done|].
      simpl. apply lookup_insert_is_Some'. right.
      rewrite obsm_registered. apply lookup_insert_is_Some'. by right.
    + destruct (Hinv c Hc) as (C & HC & HCsk). exists C. simpl.
      by rewrite lookup_insert_ne.
Qed.

(** [morpho_align] returns on every list of samples that all have the
    [spatial_key] slot, called without a label key and with a field key,
    when [BA_align] and [BA_transform] do not fail. *)
Lemma morpho_align_returns models opts sk ka ik key w :
  wf w ->
  (forall o s X Y sim, exists out, Register o s X Y sim = inr out) ->
  (forall f q, exists out, Transform f q = inr out) ->
  (forall m, m ∈ models -> has_slot sk w m) ->
  exists ams ps ss w',
    morpho_align models opts sk ka ik (Some key) None w = Ok (ams, ps, ss) w'.
Proof.
  intros Hwf Hreg Htf Hall. unfold morpho_align, bind.
  destruct (seed_models_returns models sk ka w Hall) as (w1 & -> & Hrel).
  destruct (copies_return models w1) as (ams & w2 & Hcopy).
  { intros m Hm. destruct (has_slot_seed_rel sk w w1 m Hrel (Hall m Hm)) as (A & -> & _).
    done. }
  rewrite Hcopy.
  pose proof (wp_Ok _ _ _ _ _ _ (copies_spec models w1) Hcopy)
    as (_ & _ & _ & _ & _ & Hcs).
  pose proof (align_chain_returns opts sk ka ik key ams (length ams - 1) w2
                Hreg Htf (le_n _)) as Hchain.
  unfold wp in Hchain.
  destruct (align_chain opts sk ka ik (Some key) None ams (length ams - 1) w2)
    as [r w3|e w3].
  - by eexists _, _, _, _.
  - exfalso. apply Hchain. intros c Hc.
    apply list_elem_of_lookup in Hc as [k Hk].
    destruct (Hcs k c Hk) as [_ (m & A & base & Hm & Hst & Hold)].
    exists (copy_value base A). split; [done|]. simpl.
    assert (Hin : m ∈ models) by (by eapply list_elem_of_lookup_2).
    destruct (Hall m Hin) as (A0 & HA0 & _).
    destruct (has_slot_seed_rel sk w w1 m Hrel (Hall m Hin)) as (A1 & HA1 & Hsk).
    destruct Hrel as (Hn & _).
    assert (Hlt : m < next_id w1) by (rewrite Hn; apply Hwf; by rewrite HA0).
    specialize (Hold Hlt). rewrite HA1 in Hold. by injection Hold as <-.
Qed.

(** C3.  When [morpho_align] returns on [N] samples it returns [N] sample
    objects, all created during the call, [N - 1] assignment matrices and
    [N - 1] variance estimates.  On a single sample that has the
    [spatial_key] slot it does return: the result lists are empty, no
    primitive is called, and the returned object is a copy of the seeded
    sample.  On any list of samples that have the [spatial_key] slot it
    returns when it is called without a label key and with a field key and
    [BA_align] and [BA_transform] do not fail. *)
Theorem C3_morpho_align_counts models opts sk ka ik vk lk w :
  (forall ams ps ss w',
     morpho_align models opts sk ka ik vk lk w = Ok (ams, ps, ss) w' ->
     length ams = length models /\
     length ps = length models - 1 /\
     length ss = length models - 1 /\
     NoDup ams /\
     forall k c, ams !! k = Some c -> next_id w <= c /\ is_Some (store w' !! c)) /\
  (forall m A raw,
     models = [m] -> store w !! m = Some A -> obsm A !! sk = Some raw ->
     let seeded :=
       with_obsm (with_obsm (with_obsm (with_obsm A ka raw)
                    "Rigid_3d_align_spatial" raw) "Coarse_alignment" raw)
                 "optimal_RnA" raw in
     exists w',
       morpho_align models opts sk ka ik vk lk w = Ok ([next_id w], [], []) w' /\
       trace w' = trace w /\
       store w' !! next_id w = Some (copy_value (S (next_id w)) seeded)) /\
  (forall key,
     vk = Some key -> lk = None -> wf w ->
     (forall o s X Y sim, exists out, Register o s X Y sim = inr out) ->
     (forall f q, exists out, Transform f q = inr out) ->
     (forall m, m ∈ models -> has_slot sk w m) ->
     exists ams ps ss w',
       morpho_align models opts sk ka ik vk lk w = Ok (ams, ps, ss) w').
Proof.
  split; [|split].
  - intros ams ps ss w' Hrun.
    apply morpho_align_Ok in Hrun as (w1 & w2 & r & Hseed & Hcopy & Hchain & -> & ->).
    pose proof (wp_Ok _ _ _ _ _ _ (seed_models_spec models sk ka w) Hseed) as [Hrel _].
    pose proof (wp_Ok _ _ _ _ _ _ (copies_spec models w1) Hcopy) as Hc.
    pose proof (copies_NoDup _ _ _ _ Hc) as Hnd.
    pose proof (wp_Ok _ _ _ _ _ _
      (align_chain_spec opts sk ka ik vk lk ams (length ams - 1) w2 Hnd) Hchain)
      as (logs & evs & Hlen & Hp & Hs & _ & _ & _ & Hn2 & Hfr & Hlogs).
    destruct Hc as (Hlen' & _ & _ & _ & _ & Hcs).
    rewrite Hp, Hs, !length_map, Hlen, Hlen'. repeat split; try done.
    + destruct (Hcs k c H) as [? _]. destruct Hrel as (Hn & _). lia.
    + destruct (Hcs k c H) as [_ (m & A & base & _ & Hst & _)].
      destruct k as [|k].
      * rewrite Hfr; [by rewrite Hst|].
        intros j _ Hj. pose proof (NoDup_lookup _ _ _ _ Hnd H Hj). lia.
      * destruct (decide (k < length logs)) as [Hk|Hk].
        -- destruct (lookup_lt_is_Some_2 logs k Hk) as [lg Hlg].
           destruct (Hlogs k lg Hlg) as (_ & Hb & _ & C & _ & HCw & _).
           rewrite H in Hb. injection Hb as ->. by rewrite HCw.
        -- rewrite Hfr; [by rewrite Hst|].
           intros j Hj Hjc. pose proof (NoDup_lookup _ _ _ _ Hnd H Hjc). lia.
  - intros m A raw -> HA Hraw seeded.
    eexists. split; [by apply morpho_align_single|]. split; [done|].
    simpl. by rewrite lookup_insert_eq.
  - intros key -> -> Hwf Hreg Htf Hall. by apply morpho_align_returns.
Qed.

(** * The category codes in closed form *)

Lemma insert_unique_elem s x l : x ∈ insert_unique s l <-> x = s \/ x ∈ l.
Proof.
  induction l as [|a t IH]; simpl.
  - rewrite list_elem_of_singleton, elem_of_nil. tauto.
  - destruct (String.compare s a) eqn:Hc.
    + apply String.compare_eq_iff in Hc as ->. rewrite elem_of_cons. tauto.
    + rewrite !elem_of_cons. tauto.
    + rewrite !elem_of_cons, IH. tauto.
Qed.

Lemma union1d_elem x l1 l2 : x ∈ union1d l1 l2 <-> x ∈ l1 \/ x ∈ l2.
Proof.
  unfold union1d. rewrite <- elem_of_app.
  induction (l1 ++ l2) as [|a t IH]; simpl.
  - done.
  - rewrite insert_unique_elem, IH, elem_of_cons. tauto.
Qed.

Lemma compare_lt_trans a b c :
  String.compare a b = Lt -> String.compare b c = Lt -> String.compare a c = Lt.
Proof.
  exact (@RelationClasses.StrictOrder_Transitive _ _
           OrdersEx.String_as_OT.lt_strorder a b c).
Qed.

Lemma compare_lt_irrefl a : String.compare a a <> Lt.
Proof.
  exact (@RelationClasses.StrictOrder_Irreflexive _ _
           OrdersEx.String_as_OT.lt_strorder a).
Qed.

Lemma increasing_cons x l :
  increasing (x :: l) <->
  (forall y, y ∈ l -> String.compare x y = Lt) /\ increasing l.
Proof.
  split.
  - intros H. split.
    + intros y Hy. apply list_elem_of_lookup in Hy as [j Hj].
      apply (H 0 (S j) x y); [lia|done|done].
    + intros i j a b Hij Ha Hb. apply (H (S i) (S j) a b); [lia|done|done].
  - intros [Hx Hl] i j a b Hij Ha Hb.
    destruct j as [|j]; [lia|]. simpl in Hb.
    destruct i as [|i]; simpl in Ha.
    + injection Ha as <-. apply Hx. by eapply list_elem_of_lookup_2.
    + apply (Hl i j a b); [lia|done|done].
Qed.

Lemma insert_unique_increasing s l : increasing l -> increasing (insert_unique s l).
Proof.
  induction l as [|a t IH]; intros Hl; simpl.
  - intros i j x y Hij Hx Hy. destruct j as [|j]; [lia|]. done.
  - apply increasing_cons in Hl as [Ha Ht].
    destruct (String.compare s a) eqn:Hc.
    + apply increasing_cons. done.
    + apply increasing_cons. split; [|by apply increasing_cons].
      intros y Hy. apply elem_of_cons in Hy as [->|Hy]; [done|].
      eapply compare_lt_trans; [exact Hc|]. by apply Ha.
    + apply increasing_cons. split; [|by apply IH].
      intros y Hy. apply insert_unique_elem in Hy as [->|Hy]; [|by apply Ha].
      rewrite String.compare_antisym, Hc. done.
Qed.

Lemma union1d_increasing l1 l2 : increasing (union1d l1 l2).
Proof.
  unfold union1d. induction (l1 ++ l2) as [|a t IH]; simpl.
  - intros i j x y _ Hx. done.
  - by apply insert_unique_increasing.
Qed.

Lemma increasing_NoDup l : increasing l -> NoDup l.
Proof.
  induction l as [|a t IH]; intros Hl; [constructor|].
  apply increasing_cons in Hl as [Ha Ht]. constructor; [|by apply IH].
  intros Hin. by apply (compare_lt_irrefl a), Ha.
Qed.

Lemma index_of_Some c l n : index_of c l = Some n -> l !! n = Some c.
Proof.
  revert n. induction l as [|x t IH]; intros n; simpl; [done|].
  destruct (decide (x = c)) as [->|Hne].
  - by intros [= <-].
  - destruct (index_of c t) as [m|]; simpl; [|done].
    intros [= <-]. simpl. by apply IH.
Qed.

Lemma index_of_None c l : index_of c l = None <-> c ∉ l.
Proof.
  induction l as [|x t IH]; simpl.
  - split; [intros _; apply not_elem_of_nil | done].
  - rewrite not_elem_of_cons. destruct (decide (x = c)) as [->|Hne].
    + split; [done | intros [? _]; done].
    + destruct (index_of c t) as [m|]; simpl.
      * split; [done|]. intros [_ Hc]. by apply IH in Hc.
      * split; [|done]. intros _. split; [done | by apply IH].
Qed.

Lemma index_of_lookup c l n : NoDup l -> l !! n = Some c -> index_of c l = Some n.
Proof.
  intros Hnd Hn. destruct (index_of c l) as [m|] eqn:Hm.
  - apply index_of_Some in Hm. by rewrite (NoDup_lookup _ _ _ _ Hnd Hm Hn).
  - apply index_of_None in Hm. exfalso. apply Hm. by eapply list_elem_of_lookup_2.
Qed.

Lemma index_of_snoc_new c l : c ∉ l -> index_of c (l ++ [c]) = Some (length l).
Proof.
  induction l as [|x t IH]; intros Hc; simpl.
  - by rewrite decide_True.
  - apply not_elem_of_cons in Hc as [Hne Hc].
    rewrite decide_False by done. by rewrite IH.
Qed.

Lemma index_of_snoc_other c d l : d <> c -> index_of d (l ++ [c]) = index_of d l.
Proof.
  intros Hne. induction l as [|x t IH]; simpl.
  - by rewrite decide_False.
  - destruct (decide (x = d)); [done|]. by rewrite IH.
Qed.

Lemma enumerate_snoc {A} (l : list A) (x : A) :
  enumerate (l ++ [x]) = enumerate l ++ [(Z.of_nat (length l), x)].
Proof.
  unfold enumerate. rewrite length_app. simpl.
  rewrite seq_app, map_app. simpl.
  rewrite zip_with_app; [done|]. by rewrite length_map, length_seq.
Qed.

Lemma assign_where_map (g : option string -> Z) values cat code :
  assign_where values cat code (map g values) =
  map (fun v => if decide (v = Some cat) then code else g v) values.
Proof.
  unfold assign_where. induction values as [|v t IH]; simpl; [done|].
  by rewrite IH.
Qed.

Lemma category_code_snoc U c v :
  c ∉ U ->
  category_code (U ++ [c]) v =
  if decide (v = Some c)
  then (if String.eqb c "unknown" then (-1)%Z else Z.of_nat (length U))
  else category_code U v.
Proof.
  intros Hc. destruct v as [d|]; simpl; [|done].
  destruct (decide (Some d = Some c)) as [[= ->]|Hne].
  - by rewrite index_of_snoc_new.
  - rewrite index_of_snoc_other; [done|]. by intros ->.
Qed.

(** Lines 77-82 in closed form: the masked assignments, category by
    category, give every point the code of its own label. *)
Lemma label_codes_closed U vsA vsB :
  NoDup U ->
  label_codes U vsA vsB = (map (category_code U) vsA, map (category_code U) vsB).
Proof.
  unfold label_codes. induction U as [|c U IH] using rev_ind; intros Hnd.
  - simpl. f_equal.
    + induction vsA as [|v t IHt]; simpl; [done|]. rewrite IHt. by destruct v.
    + induction vsB as [|v t IHt]; simpl; [done|]. rewrite IHt. by destruct v.
  - apply NoDup_app in Hnd as (HU & Hdisj & _).
    assert (Hc : c ∉ U).
    { intros Hin. apply (Hdisj c Hin). by left. }
    rewrite enumerate_snoc, fold_left_app, IH by done. simpl.
    rewrite !assign_where_map. f_equal; apply map_ext; intros v;
      by rewrite category_code_snoc.
Qed.

Lemma category_code_inj U a b :
  a ∈ U -> b ∈ U -> category_code U (Some a) = category_code U (Some b) -> a = b.
Proof.
  intros Ha Hb. simpl.
  destruct (index_of a U) as [n|] eqn:Hn; [|by apply index_of_None in Hn].
  destruct (index_of b U) as [m|] eqn:Hm; [|by apply index_of_None in Hm].
  apply index_of_Some in Hn, Hm.
  destruct (String.eqb_spec a "unknown") as [->|Hua],
           (String.eqb_spec b "unknown") as [->|Hub]; try done; try lia.
  intros Heq. apply Nat2Z.inj in Heq as ->. congruence.
Qed.

(** X1.  The code arrays of lines 76-82 in closed form: over the sorted
    union of the two category lists, a point gets the position of its
    label in the union, [-1] if its label is "unknown", and keeps the
    initial [0] if its label is missing.  So a point of A and a point of B
    that both carry a label get the same code exactly when their labels
    are the same, while a point without a label gets the code of the first
    category of the union whenever that category is not "unknown". *)
Theorem X1_label_codes_by_category csA vsA csB vsB :
  let U := union1d csA csB in
  let codes := label_codes U vsA vsB in
  codes = (map (category_code U) vsA, map (category_code U) vsB) /\
  length (fst codes) = length vsA /\ length (snd codes) = length vsB /\
  (forall k j a b ca cb,
     vsA !! k = Some (Some a) -> vsB !! j = Some (Some b) ->
     a ∈ csA -> b ∈ csB ->
     fst codes !! k = Some ca -> snd codes !! j = Some cb ->
     (ca = cb <-> a = b)) /\
  (forall k c, vsA !! k = Some (Some c) -> c ∈ csA ->
     fst codes !! k = Some (-1)%Z <-> c = "unknown") /\
  (forall k, vsA !! k = Some None -> fst codes !! k = Some 0%Z) /\
  (forall j, vsB !! j = Some None -> snd codes !! j = Some 0%Z) /\
  (forall j c0, U !! 0 = Some c0 -> c0 <> "unknown" ->
     vsB !! j = Some (Some c0) -> snd codes !! j = Some 0%Z).
Proof.
  intros U codes.
  assert (Hnd : NoDup U) by apply increasing_NoDup, union1d_increasing.
  assert (Hcodes : codes = (map (category_code U) vsA, map (category_code U) vsB))
    by (by apply label_codes_closed).
  rewrite Hcodes. simpl. split; [done|].
  rewrite !length_map. do 2 (split; [done|]).
  split; [|split; [|split; [|split]]].
  - intros k j a b ca cb Hk Hj Ha Hb.
    rewrite !list_lookup_fmap, Hk, Hj. intros [= <-] [= <-].
    split; [|by intros ->].
    apply category_code_inj; apply union1d_elem; auto.
  - intros k c Hk Hc. rewrite list_lookup_fmap, Hk. simpl.
    assert (HcU : c ∈ U) by (apply union1d_elem; auto).
    destruct (index_of c U) as [n|] eqn:Hn; [|by apply index_of_None in Hn].
    destruct (String.eqb_spec c "unknown") as [->|Hne].
    + done.
    + split; [|done]. intros [= Hz]. lia.
  - intros k Hk. by rewrite list_lookup_fmap, Hk.
  - intros j Hj. by rewrite list_lookup_fmap, Hj.
  - intros j c0 H0 Hne Hj. rewrite list_lookup_fmap, Hj. simpl.
    rewrite (index_of_lookup c0 U 0 Hnd H0).
    by destruct (String.eqb_spec c0 "unknown").
Qed.

(** * The label matrix and the pair index *)

Lemma obs_get_Ok m k w A col :
  store w !! m = Some A -> obs A !! k = Some col -> obs_get m k w = Ok col w.
Proof. intros HA Hk. unfold obs_get, bind, deref. by rewrite HA, Hk. Qed.

Lemma label_similarity_run i a b lk w A B csA vsA csB vsB :
  store w !! a = Some A -> store w !! b = Some B ->
  obs A !! lk = Some (CatCol csA vsA) -> obs B !! lk = Some (CatCol csB vsB) ->
  label_similarity i a b lk w =
  match LabelSimMat i (map (category_code (union1d csA csB)) vsA)
                      (map (category_code (union1d csA csB)) vsB) with
  | Some mat => Ok mat w
  | None => Raise IndexError w
  end.
Proof.
  intros HA HB HcA HcB. unfold label_similarity, bind.
  rewrite (obs_get_Ok a lk w A _ HA HcA), (obs_get_Ok b lk w B _ HB HcB). simpl.
  rewrite label_codes_closed by apply increasing_NoDup, union1d_increasing.
  simpl. by destruct (LabelSimMat _ _ _).
Qed.

Lemma align_pair_index_error opts sk ka ik vk lk ams i acc w
    a b A B csA vsA csB vsB :
  ams !! i = Some a -> ams !! (i + 1) = Some b ->
  store w !! a = Some A -> store w !! b = Some B ->
  obs A !! lk = Some (CatCol csA vsA) -> obs B !! lk = Some (CatCol csB vsB) ->
  0 < length vsB <= i ->
  label_similarity i a b lk w = Raise IndexError w /\
  align_pair opts sk ka ik vk (Some lk) ams i acc w = Raise IndexError w.
Proof.
  intros Ha Hb HA HB HcA HcB [Hpos Hle].
  pose proof (label_similarity_run i a b lk w A B csA vsA csB vsB HA HB HcA HcB) as Hrun.
  assert (Hnone : LabelSimMat i (map (category_code (union1d csA csB)) vsA)
                              (map (category_code (union1d csA csB)) vsB) = None).
  { unfold LabelSimMat. rewrite fill_columns_None; [done| |].
    - apply lookup_ge_None. rewrite length_map. lia.
    - rewrite length_map. destruct (length vsB) eqn:E; [lia|done]. }
  rewrite Hnone in Hrun. split; [done|].
  unfold align_pair, list_get. rewrite Ha, Hb.
  unfold bind at 1. unfold ret at 1. unfold bind at 1. unfold ret at 1.
  unfold bind at 1. unfold bind at 1. by rewrite Hrun.
Qed.

(** X2.  Line 85 indexes [catBCode] with the index [i] of the pair.  With a
    label key, iteration [i] of the pair loop of [morpho_align] therefore
    raises [IndexError], before [BA_align] is called and leaving everything
    as it was, when sample B has at least one point and at most [i]; when B
    has no point the loop over [index] does not run and the matrix is the
    empty [0 x a] array; when B has more than [i] points the matrix is
    built, [b x a]. *)
Theorem X2_pair_index_bounds_label_matrix opts sk ka ik vk lk ams i acc w
    a b A B csA vsA csB vsB :
  ams !! i = Some a -> ams !! (i + 1) = Some b ->
  store w !! a = Some A -> store w !! b = Some B ->
  obs A !! lk = Some (CatCol csA vsA) -> obs B !! lk = Some (CatCol csB vsB) ->
  (0 < length vsB <= i ->
     label_similarity i a b lk w = Raise IndexError w /\
     align_pair opts sk ka ik vk (Some lk) ams i acc w = Raise IndexError w) /\
  (length vsB = 0 ->
     label_similarity i a b lk w = Ok (mkMatrix 0 (length vsA) []) w) /\
  (i < length vsB ->
     exists mat, label_similarity i a b lk w = Ok mat w /\
                 shape mat = (length vsB, length vsA)).
Proof.
  intros Ha Hb HA HB HcA HcB.
  pose proof (label_similarity_run i a b lk w A B csA vsA csB vsB HA HB HcA HcB) as Hrun.
  set (cA := map (category_code (union1d csA csB)) vsA) in *.
  set (cB := map (category_code (union1d csA csB)) vsB) in *.
  assert (HlA : length cA = length vsA) by apply length_map.
  assert (HlB : length cB = length vsB) by apply length_map.
  split; [|split].
  - intros Hrange. by eapply align_pair_index_error.
  - intros H0. rewrite Hrun.
    assert (HcB0 : cB = []) by (apply length_zero_iff_nil; lia).
    rewrite HcB0. unfold LabelSimMat. simpl. by rewrite HlA.
  - intros Hi.
    destruct (lookup_lt_is_Some_2 cB i) as [c Hc]; [lia|].
    rewrite (LabelSimMat_value i cA cB c Hc) in Hrun.
    eexists. split; [exact Hrun|]. unfold shape. simpl. by rewrite HlA, HlB.
Qed.

(** * What [morpho_align] may change on the caller's objects *)

Lemma seed_footprint_refl models sk keys w : seed_footprint models sk keys w w.
Proof. split; [done|]. intros l A0 HA. exists A0. by repeat split. Qed.

Lemma seed_footprint_trans models sk keys w0 w1 w2 :
  seed_footprint models sk keys w0 w1 -> seed_footprint models sk keys w1 w2 ->
  seed_footprint models sk keys w0 w2.
Proof.
  intros [Ho1 Hi1] [Ho2 Hi2]. split.
  - intros l Hl. by rewrite Ho2, Ho1.
  - intros l A0 HA0.
    destruct (Hi1 l A0 HA0) as (A1 & HA1 & HX1 & Hobs1 & Huns1 & Hsk1 & Hk1).
    destruct (Hi2 l A1 HA1) as (A2 & HA2 & HX2 & Hobs2 & Huns2 & Hsk2 & Hk2).
    exists A2. repeat split; try congruence.
    intros k Hk. by rewrite Hk2, Hk1.
Qed.

Lemma seed_footprint_step models sk keys key m A c w :
  m ∈ models -> key ∈ keys ->
  store w !! m = Some A -> obsm A !! sk = Some c ->
  seed_footprint models sk keys w
    (mkWorld (<[m := with_obsm A key c]> (store w)) (next_id w) (trace w)).
Proof.
  intros Hm Hkey HA Hc. split; simpl.
  - intros l Hl. rewrite lookup_insert_ne; [done|]. by intros ->.
  - intros l A0 HA0. destruct (decide (m = l)) as [->|Hne].
    + rewrite lookup_insert_eq. rewrite HA in HA0. injection HA0 as <-.
      eexists. split; [done|]. simpl. repeat split; try done.
      * destruct (decide (key = sk)) as [->|Hk].
        -- by rewrite lookup_insert_eq.
        -- by rewrite lookup_insert_ne.
      * intros k Hk. rewrite lookup_insert_ne; [done|]. by intros ->.
    + rewrite lookup_insert_ne by done. exists A0. by repeat split.
Qed.

Lemma seed_loop_footprint models sk keys key ls w0 w :
  (forall m, m ∈ ls -> m ∈ models) -> key ∈ keys ->
  seed_footprint models sk keys w0 w ->
  wp (for_each ls (seed_slot key sk))
     (fun _ w' => seed_footprint models sk keys w0 w')
     (fun _ w' => seed_footprint models sk keys w0 w') w.
Proof.
  intros Hsub Hkey H0.
  apply (for_each_wp (fun _ w1 => seed_footprint models sk keys w0 w1)
                     (fun _ w' => seed_footprint models sk keys w0 w')).
  - done.
  - intros pre x w1 [post Hls] HI. apply wp_seed_slot; [|done].
    intros A c HA Hc. eapply seed_footprint_trans; [exact HI|].
    apply seed_footprint_step; try done.
    apply Hsub. rewrite Hls. apply elem_of_app. right. by left.
Qed.

Lemma seed_models_footprint models sk ka w :
  wp (seed_models models sk ka)
     (fun _ w' => seed_footprint models sk (seeded_slots ka) w w')
     (fun _ w' => seed_footprint models sk (seeded_slots ka) w w') w.
Proof.
  unfold seed_models.
  assert (Hk : forall key, key ∈ seeded_slots ka ->
            forall w1, seed_footprint models sk (seeded_slots ka) w w1 ->
              wp (for_each models (seed_slot key sk))
                 (fun _ w' => seed_footprint models sk (seeded_slots ka) w w')
                 (fun _ w' => seed_footprint models sk (seeded_slots ka) w w') w1).
  { intros key Hkey w1 H1. by apply seed_loop_footprint. }
  unfold seeded_slots in Hk.
  apply wp_bind. eapply wp_mono; [apply Hk; [|apply seed_footprint_refl]| |done].
  { by left. }
  intros [] w1 H1. simpl.
  apply wp_bind. eapply wp_mono; [apply Hk; [|exact H1]| |done].
  { right. by left. }
  intros [] w2 H2. simpl.
  apply wp_bind. eapply wp_mono; [apply Hk; [|exact H2]| |done].
  { right. right. by left. }
  intros [] w3 H3. simpl.
  apply Hk; [|exact H3]. right. right. right. by left.
Qed.

Ltac touched_in :=
  simpl;
  repeat (apply touched_only_insert; [eapply list_elem_of_lookup_2; eassumption|]);
  first [apply touched_only_refl | apply touched_only_world; simpl; lia].

(** An iteration of the pair loop writes to sample B only, whether it
    completes or raises. *)
Lemma align_pair_touched opts sk ka ik vk lk ams i acc w :
  wp (align_pair opts sk ka ik vk lk ams i acc)
     (fun _ w' => touched_only ams w w')
     (fun _ w' => touched_only ams w w') w.
Proof.
  unfold align_pair.
  apply wp_bind, wp_list_get; [|intros; touched_in]. intros a Ha.
  apply wp_bind, wp_list_get; [|intros; touched_in]. intros b Hb.
  apply wp_bind.
  apply (wp_mono _ (fun _ w1 => w1 = w) _ (fun _ w1 => w1 = w)
                   (fun _ w' => touched_only ams w w')).
  { destruct lk as [l|].
    - apply wp_bind, wp_label_similarity; [|done]. intros. by apply wp_ret.
    - by apply wp_ret. }
  2:{ intros _ w1 ->. touched_in. }
  intros sim w1 ->.
  apply wp_bind, wp_BA_align; [|intros; touched_in|intros; touched_in].
  intros A B out HA HB HR.
  apply wp_bind, wp_uns_get; [|intros; touched_in].
  simpl. intros B1 key fld HB1 -> Hfld.
  apply wp_bind, wp_obsm_get; [|intros; touched_in].
  simpl. intros B2 q HB2 Hq.
  apply wp_bind, wp_BA_transform; [|intros; touched_in].
  simpl. intros tout HT.
  apply wp_bind, wp_obsm_set; [|intros; touched_in].
  simpl. intros B3 HB3.
  apply wp_bind, wp_empty_cache. apply wp_ret. touched_in.
Qed.

Lemma align_chain_touched opts sk ka ik vk lk ams n w :
  wp (align_chain opts sk ka ik vk lk ams n)
     (fun _ w' => touched_only ams w w')
     (fun _ w' => touched_only ams w w') w.
Proof.
  unfold align_chain.
  apply (for_loop_wp (fun _ _ w1 => touched_only ams w w1)
                     (fun _ w' => touched_only ams w w')).
  - apply touched_only_refl.
  - intros i s1 w1 _ Ht.
    eapply wp_mono; [apply align_pair_touched| |];
      intros ? w2 Ht2; by eapply touched_only_trans.
Qed.

(** A run of [morpho_align], returned or raised: the seeding, then steps
    that leave the objects of the caller alone. *)
Lemma morpho_align_stages models opts sk ka ik vk lk w :
  wp (morpho_align models opts sk ka ik vk lk)
     (fun _ w' => exists w1, seed_rel sk w w1 /\
                             seed_footprint models sk (seeded_slots ka) w w1 /\
                             frame (next_id w) w1 w')
     (fun _ w' => exists w1, seed_rel sk w w1 /\
                             seed_footprint models sk (seeded_slots ka) w w1 /\
                             frame (next_id w) w1 w') w.
Proof.
  unfold morpho_align.
  apply wp_bind.
  eapply wp_mono;
    [apply (wp_and _ _ _ _ _ _ (seed_models_spec models sk ka w)
                               (seed_models_footprint models sk ka w)) | |].
  2:{ intros e w1 [Hrel Hfp]. exists w1. split; [done|]. split; [done|].
      destruct Hrel as (Hn & _). rewrite <- Hn. apply frame_refl. }
  intros [] w1 [[Hrel _] Hfp]. simpl.
  pose proof Hrel as (Hn & _).
  apply wp_bind. eapply wp_mono; [apply copies_spec| |].
  2:{ intros e w2 [_ Hf]. exists w1. rewrite <- Hn. do 2 (split; [done|]). done. }
  intros ams w2 (_ & _ & Hf2 & _ & _ & Hcs). simpl.
  apply wp_bind. eapply wp_mono; [apply align_chain_touched| |].
  - intros r w3 Ht. apply wp_ret. exists w1. do 2 (split; [done|]).
    rewrite <- Hn. eapply frame_trans; [exact Hf2|].
    eapply touched_frame; [|exact Ht].
    intros c Hc. apply list_elem_of_lookup in Hc as [k Hk].
    destruct (Hcs k c Hk) as [? _]. lia.
  - intros e w3 Ht. exists w1. do 2 (split; [done|]).
    rewrite <- Hn. eapply frame_trans; [exact Hf2|].
    eapply touched_frame; [|exact Ht].
    intros c Hc. apply list_elem_of_lookup in Hc as [k Hk].
    destruct (Hcs k c Hk) as [? _]. lia.
Qed.

(** X3.  What [morpho_align] does to an object [l] that existed before the
    call, whether the call returns or raises: the object is still there,
    its [.X], [.obs] and [.uns] are as they were, and in [.obsm] only the
    four slots lines 57-64 name can differ, each holding either what it
    held or the raw coordinates of the [spatial_key] slot.  An object that
    is not in [models] is exactly as it was. *)
Theorem X3_morpho_align_footprint models opts sk ka ik vk lk w l A :
  wf w -> store w !! l = Some A ->
  exists A',
    store (final_world (morpho_align models opts sk ka ik vk lk w)) !! l = Some A' /\
    X A' = X A /\ obs A' = obs A /\ uns A' = uns A /\
    (l ∉ models -> A' = A) /\
    (forall k, k ∉ seeded_slots ka -> obsm A' !! k = obsm A !! k) /\
    (forall k, obsm A' !! k = obsm A !! k \/ obsm A' !! k = obsm A !! sk).
Proof.
  intros Hwf HA.
  assert (Hl : l < next_id w) by (apply Hwf; by rewrite HA).
  pose proof (morpho_align_stages models opts sk ka ik vk lk w) as H.
  unfold wp in H.
  assert (Hfin : exists w1, seed_rel sk w w1 /\
                   seed_footprint models sk (seeded_slots ka) w w1 /\
                   frame (next_id w)
                     w1 (final_world (morpho_align models opts sk ka ik vk lk w))).
  { by destruct (morpho_align models opts sk ka ik vk lk w). }
  clear H. destruct Hfin as (w1 & Hrel & [Hout Hin] & [_ Hfr]).
  rewrite (Hfr l Hl).
  destruct (Hin l A HA) as (A1 & HA1 & HX & Hobs & Huns & _ & Hk).
  exists A1. do 4 (split; [done|]). split; [|split].
  - intros Hnot. rewrite (Hout l Hnot), HA in HA1. by injection HA1.
  - exact Hk.
  - intros k. destruct Hrel as (_ & _ & Hst). specialize (Hst l).
    rewrite HA, HA1 in Hst. destruct Hst as (_ & _ & _ & Hst).
    destruct (Hst k) as [?|[? _]]; auto.
Qed.

(** * A sample without the [spatial_key] slot *)

Lemma seed_slot_missing key sk m A w :
  store w !! m = Some A -> obsm A !! sk = None ->
  seed_slot key sk m w = Raise (KeyError (Some sk)) w.
Proof.
  intros HA Hsk. unfold seed_slot, obsm_get, bind, deref. by rewrite HA, Hsk.
Qed.

Lemma seed_loop_missing key sk ls w0 w m A :
  seed_rel sk w0 w -> (forall x, x ∈ ls -> is_Some (store w0 !! x)) ->
  m ∈ ls -> store w0 !! m = Some A -> obsm A !! sk = None ->
  exists w', for_each ls (seed_slot key sk) w = Raise (KeyError (Some sk)) w' /\
             seed_rel sk w0 w'.
Proof.
  intros Hrel Hall Hm HA Hsk. revert w Hrel Hall Hm.
  induction ls as [|x t IH]; intros w Hrel Hall Hm.
  - by apply elem_of_nil in Hm.
  - destruct (Hall x) as [A0 HA0]; [by left|].
    assert (HAx : exists Ax, store w !! x = Some Ax /\ obsm Ax !! sk = obsm A0 !! sk).
    { pose proof Hrel as (_ & _ & Hst). specialize (Hst x). rewrite HA0 in Hst.
      destruct (store w !! x) as [Ax|] eqn:HAx; [|done].
      exists Ax. split; [done|]. by eapply seed_rel_raw. }
    destruct HAx as (Ax & HAx & Hraw).
    simpl. unfold bind.
    destruct (obsm A0 !! sk) as [raw|] eqn:Hx.
    + rewrite (seed_once key sk x Ax raw w HAx Hraw).
      apply IH.
      * eapply seed_rel_trans; [exact Hrel|]. by apply seed_rel_step.
      * intros y Hy. apply Hall. by right.
      * apply elem_of_cons in Hm as [->|Hm]; [|done]. congruence.
    + rewrite (seed_slot_missing key sk x Ax w HAx Hraw). by exists w.
Qed.

(** X4.  When a sample of [models] has no [spatial_key] slot, [morpho_align]
    raises [KeyError] for that key in its first seeding loop: no copy has
    been made and no primitive called.  The samples that come before the
    faulty one in the list have by then received their [key_added] slot;
    nothing else has changed on any object. *)
Theorem X4_morpho_align_missing_spatial_key models opts sk ka ik vk lk w m A :
  (forall x, x ∈ models -> is_Some (store w !! x)) ->
  m ∈ models -> store w !! m = Some A -> obsm A !! sk = None ->
  exists w',
    morpho_align models opts sk ka ik vk lk w = Raise (KeyError (Some sk)) w' /\
    trace w' = trace w /\ next_id w' = next_id w /\
    forall l A0, store w !! l = Some A0 ->
      exists A1, store w' !! l = Some A1 /\
                 X A1 = X A0 /\ obs A1 = obs A0 /\ uns A1 = uns A0 /\
                 forall k, k <> ka -> obsm A1 !! k = obsm A0 !! k.
Proof.
  intros Hall Hm HA Hsk.
  destruct (seed_loop_missing ka sk models w w m A (seed_rel_refl sk w) Hall Hm HA Hsk)
    as (w' & Hrun & Hrel).
  exists w'. split.
  { unfold morpho_align, seed_models. unfold bind at 1. unfold bind at 1.
    by rewrite Hrun. }
  pose proof Hrel as (Hn & Htr & _). do 2 (split; [done|]).
  pose proof (wp_Raise _ _ _ _ _ _
    (seed_loop_footprint models sk [ka] ka models w w (fun _ H => H)
       ltac:(by left) (seed_footprint_refl _ _ _ _)) Hrun) as [_ Hin].
  intros l A0 HA0.
  destruct (Hin l A0 HA0) as (A1 & HA1 & HX & Hobs & Huns & _ & Hk).
  exists A1. do 4 (split; [done|]).
  intros k Hk'. apply Hk. intros Hin'. apply list_elem_of_singleton in Hin'. done.
Qed.

(** * The empty list *)

Lemma bind_not_returned {A B} (m : M A) (f : A -> M B) w :
  returned (m w) = false -> returned (bind m f w) = false.
Proof. unfold bind. by destruct (m w). Qed.

Lemma bind_never_returns {A B} (m : M A) (f : A -> M B) w :
  (forall a w1, returned (f a w1) = false) -> returned (bind m f w) = false.
Proof. intros Hf. unfold bind. destruct (m w); [apply Hf | done]. Qed.

Lemma ref_setup_empty given sk ka w : returned (ref_setup [] given sk ka w) = false.
Proof.
  unfold ref_setup. simpl. unfold bind at 1. unfold ret at 1.
  apply bind_never_returns. intros refs w1.
  apply bind_never_returns. intros [] w2. done.
Qed.

(** X5.  On an empty list of samples [morpho_align] returns three empty
    lists and changes nothing (the pair loop runs over [_iteration(n=-1)],
    an empty range), while [morpho_align_ref] never returns: with nothing
    to copy, [align_models[0]] at line 186 raises [IndexError], unless the
    making of the reference list has raised before.  Called with an empty
    reference list it raises that [IndexError] in the world it was called
    in. *)
Theorem X5_empty_list opts sk ka ik vk lk ns sm full w :
  morpho_align [] opts sk ka ik vk lk w = Ok ([], [], []) w /\
  (forall models_ref,
     returned (morpho_align_ref [] models_ref ns sm opts sk ka ik vk full w) = false) /\
  morpho_align_ref [] (Some []) ns sm opts sk ka ik vk full w = Raise IndexError w.
Proof.
  split; [reflexivity|]. split; [|reflexivity].
  intros models_ref. unfold morpho_align_ref.
  apply bind_never_returns. intros given w1.
  apply bind_not_returned, ref_setup_empty.
Qed.

(** * The calls of a run of [morpho_align] *)

Lemma align_chain_rounds opts sk ka ik vk lk ams n w0 :
  wp (align_chain opts sk ka ik vk lk ams n)
     (fun r w' =>
        exists logs : list PairLog,
          length logs = n /\
          trace w' = trace w0 ++ concat (map pair_events logs) /\
          forall j lg, logs !! j = Some lg ->
            ams !! j = Some (pl_a lg) /\ ams !! S j = Some (pl_b lg) /\
            (lk = None <-> pl_sim lg = None))
     (fun _ _ => True) w0.
Proof.
  unfold align_chain.
  apply (for_loop_wp
           (fun t (_ : Results) w' =>
              exists logs : list PairLog,
                length logs = t /\
                trace w' = trace w0 ++ concat (map pair_events logs) /\
                forall j lg, logs !! j = Some lg ->
                  ams !! j = Some (pl_a lg) /\ ams !! S j = Some (pl_b lg) /\
                  (lk = None <-> pl_sim lg = None))
           (fun _ _ => True)).
  - exists []. simpl. by rewrite app_nil_r.
  - intros i s1 w1 Hi (logs & Hlen & Htr & Hlogs).
    eapply wp_mono; [apply align_pair_spec | |done].
    intros s2 w2 (a & b & A & B & sim & out & fld & q & tout & Ha & Hb & _ & _ & Hsim &
                  _ & _ & _ & _ & -> & _).
    exists (logs ++ [mkPairLog a b sim out fld q tout (next_id w1)]).
    rewrite length_app, map_app, concat_app. simpl.
    split; [lia|]. split; [by rewrite Htr, <- app_assoc|].
    intros j lg Hj. apply lookup_snoc_Some in Hj as [[Hj1 Hj2]|[Hj1 Hj2]].
    + by apply Hlogs.
    + subst lg. simpl. rewrite Hj1, Hlen.
      replace (i + 1) with (S i) in Hb by lia.
      do 2 (split; [done|]).
      destruct lk as [l|].
      * destruct Hsim as (? & ? & ? & ? & S0 & _ & _ & _ & ->). by split.
      * by split.
Qed.

(** X6.  The calls a returning run of [morpho_align] on [N] samples makes,
    all of them: for each of the [N - 1] pairs in order one call of
    [BA_align] on (sample k, sample k+1) that reads the slot "optimal_RnA",
    one call of [BA_transform] and one call of [empty_cache], none of them
    failing.  [downsampling] and [BA_transform_and_assignment] are never
    called, and [BA_align] is given a label matrix exactly when a label key
    is. *)
Theorem X6_morpho_align_calls models opts sk ka ik vk lk w ams ps ss w' :
  morpho_align models opts sk ka ik vk lk w = Ok (ams, ps, ss) w' ->
  exists logs : list PairLog,
    length logs = length models - 1 /\
    trace w' = trace w ++ concat (map pair_events logs) /\
    assignments (trace w') = assignments (trace w) /\
    length (transforms (trace w')) = length (transforms (trace w)) + (length models - 1) /\
    forall j lg, logs !! j = Some lg ->
      ams !! j = Some (pl_a lg) /\ ams !! S j = Some (pl_b lg) /\
      (lk = None <-> pl_sim lg = None).
Proof.
  intros Hrun.
  apply morpho_align_Ok in Hrun as (w1 & w2 & r & Hseed & Hcopy & Hchain & -> & ->).
  pose proof (wp_Ok _ _ _ _ _ _ (seed_models_spec models sk ka w) Hseed)
    as [(_ & Htr1 & _) _].
  pose proof (wp_Ok _ _ _ _ _ _ (copies_spec models w1) Hcopy) as (Hlen & Htr2 & _).
  pose proof (wp_Ok _ _ _ _ _ _
    (align_chain_rounds opts sk ka ik vk lk ams (length ams - 1) w2) Hchain)
    as (logs & Hlogs & Htr & Hpairs).
  exists logs. rewrite <- Hlen, <- Htr1, <- Htr2.
  split; [done|]. split; [done|]. rewrite Htr.
  rewrite assignments_app, transforms_app, length_app.
  assert (Hshape : assignments (concat (map pair_events logs)) = [] /\
                   length (transforms (concat (map pair_events logs))) = length logs).
  { clear. induction logs as [|lg logs [IH1 IH2]]; [done|].
    simpl. by rewrite IH1, IH2. }
  destruct Hshape as [-> ->]. rewrite app_nil_r, Hlogs. done.
Qed.

(** * The anchor of the chain *)

(** X7.  The first sample is the fixed end of the chain of [morpho_align]:
    no iteration of the pair loop writes to its copy.  When the call
    returns, the first object of the result is still a copy of the caller's
    first sample as the seeding left it, with the raw coordinates of the
    [spatial_key] slot in all four seeded slots, [key_added] among them. *)
Theorem X7_morpho_align_anchor models opts sk ka ik vk lk w ams ps ss w' m A :
  wf w ->
  morpho_align models opts sk ka ik vk lk w = Ok (ams, ps, ss) w' ->
  models !! 0 = Some m -> store w !! m = Some A ->
  exists c base A1 raw,
    ams !! 0 = Some c /\
    store w' !! m = Some A1 /\
    store w' !! c = Some (copy_value base A1) /\
    obsm A !! sk = Some raw /\
    X A1 = X A /\ obs A1 = obs A /\ uns A1 = uns A /\
    obsm A1 !! sk = Some raw /\
    (forall key, key ∈ seeded_slots ka -> obsm A1 !! key = Some raw) /\
    (forall b, b ∈ map (fun c => snd (fst c)) (registrations (trace w')) ->
               b ∈ map (fun c => snd (fst c)) (registrations (trace w)) \/ b <> c).
Proof.
  intros Hwf Hrun Hm HA.
  apply morpho_align_Ok in Hrun as (w1 & w2 & r & Hseed & Hcopy & Hchain & -> & ->).
  destruct (seeded_copies models sk ka w w1 ams w2 Hwf Hseed Hcopy)
    as (Htr2 & Hnd & Hlen & Hge & _ & Hall).
  destruct (Hall 0 m Hm)
    as (A' & raw & A1 & c & base & HA' & Hraw & _ & HA1 & Hobs & HX & Huns & Hc & HC &
        Hsk & Hkeys).
  rewrite HA in HA'. injection HA' as <-.
  pose proof (wp_Ok _ _ _ _ _ _
    (align_chain_spec opts sk ka ik vk lk ams (length ams - 1) w2 Hnd) Hchain)
    as (logs & evs & Hlogs & _ & _ & Htr & Hreg & _ & _ & Hfr & Hlg).
  assert (Hml : m < next_id w) by (apply Hwf; by rewrite HA).
  exists c, base, A1, raw. split; [done|]. split.
  { rewrite Hfr; [done|]. intros j _ Hj. apply Hge in Hj. lia. }
  split.
  { rewrite Hfr; [done|]. intros j _ Hj.
    pose proof (NoDup_lookup _ _ _ _ Hnd Hc Hj). lia. }
  do 6 (split; [done|]).
  intros b Hb. rewrite Htr, Htr2, registrations_app, map_app, Hreg in Hb.
  apply elem_of_app in Hb as [Hb|Hb]; [by left|]. right.
  rewrite map_map in Hb. simpl in Hb.
  apply list_elem_of_fmap in Hb as (lg & -> & Hin).
  apply list_elem_of_lookup in Hin as [j Hj].
  destruct (Hlg j lg Hj) as (_ & Hbj & _).
  intros Heq. rewrite Heq in Hbj.
  pose proof (NoDup_lookup _ _ _ _ Hnd Hc Hbj). lia.
Qed.

(** * The field key *)

(** X8.  Both aligners read the fitted field back from [.uns] under
    [vecfld_key_added] (lines 109 and 215), so with [vecfld_key_added=None],
    under which [BA_align] stores nothing, neither of them returns on two
    samples or more; the samples' [.uns] holds string keys only. *)
Theorem X8_field_key_required models models_ref ns sm opts sk ka ik lk full w :
  2 <= length models ->
  returned (morpho_align models opts sk ka ik None lk w) = false /\
  returned (morpho_align_ref models models_ref ns sm opts sk ka ik None full w) = false.
Proof.
  intros Hlen. split.
  - destruct (morpho_align models opts sk ka ik None lk w)
      as [[[ams ps] ss] w'|e w'] eqn:Hrun; [|done].
    exfalso.
    apply morpho_align_Ok in Hrun as (w1 & w2 & r & Hseed & Hcopy & Hchain & _).
    pose proof (wp_Ok _ _ _ _ _ _ (copies_spec models w1) Hcopy) as Hc.
    pose proof (copies_NoDup _ _ _ _ Hc) as Hnd.
    destruct Hc as (Hlen' & _).
    pose proof (wp_Ok _ _ _ _ _ _
      (align_chain_spec opts sk ka ik None lk ams (length ams - 1) w2 Hnd) Hchain)
      as (logs & evs & Hlogs & _ & _ & _ & _ & _ & _ & _ & Hlg).
    destruct (lookup_lt_is_Some_2 logs 0) as [lg Hlg0]; [lia|].
    destruct (Hlg 0 lg Hlg0) as (_ & _ & _ & C & _ & _ & Hfld & _). done.
  - destruct (morpho_align_ref models models_ref ns sm opts sk ka ik None full w)
      as [[[[[ams refs] ps] psr] ss] w'|e w'] eqn:Hrun; [|done].
    exfalso.
    apply morpho_align_ref_Ok in Hrun
      as (given & wd & refs0 & w1 & r & _ & Hsetup & Hchain & _).
    pose proof (wp_Ok _ _ _ _ _ _ (ref_setup_spec models given sk ka wd) Hsetup)
      as (Hlen' & _ & _ & _ & _ & Hnd & _). simpl in *.
    pose proof (wp_Ok _ _ _ _ _ _
      (ref_chain_spec opts sk ka ik None full ams refs0 (length ams - 1) w1 Hnd) Hchain)
      as (logs & Hlogs & _ & _ & _ & _ & _ & _ & _ & Hlg).
    destruct (lookup_lt_is_Some_2 logs 0) as [lg Hlg0]; [lia|].
    destruct (Hlg 0 lg Hlg0)
      as (_ & _ & _ & _ & Cref & C & key & B' & w2 & _ & _ & Hvk & _). done.
Qed.

(** * [morpho_align_ref] and the objects around it *)

(** X9.  [morpho_align_ref] copies before it writes (lines 173, 182-183):
    whether it returns or raises, every object that existed when it was
    called is afterwards exactly what it was, the samples of [models] and
    of [models_ref] included. *)
Theorem X9_morpho_align_ref_keeps_callers_objects models models_ref ns sm opts
    sk ka ik vk full w l A :
  wf w -> store w !! l = Some A ->
  store (final_world
           (morpho_align_ref models models_ref ns sm opts sk ka ik vk full w)) !! l
    = Some A.
Proof.
  intros Hwf HA.
  assert (Hl : l < next_id w) by (apply Hwf; by rewrite HA).
  pose proof (morpho_align_ref_frame models models_ref ns sm opts sk ka ik vk full w) as H.
  unfold wp in H.
  destruct (morpho_align_ref _ _ _ _ _ _ _ _ _ _ w) as [r w'|e w'];
    destruct H as [_ H]; simpl; by rewrite H.
Qed.

(** X10.  The two lists [morpho_align_ref] returns hold objects made during
    the call: they are pairwise distinct, across the two lists as well,
    none of them is an object that existed before, and each is in the store
    when the call returns.  This holds also when the caller's lists share
    samples or repeat one. *)
Theorem X10_morpho_align_ref_results_are_new models models_ref ns sm opts
    sk ka ik vk full w ams refs ps psr ss w' :
  morpho_align_ref models models_ref ns sm opts sk ka ik vk full w
    = Ok (ams, refs, ps, psr, ss) w' ->
  NoDup (ams ++ refs) /\
  forall c, c ∈ ams ++ refs ->
    next_id w <= c < next_id w' /\ is_Some (store w' !! c).
Proof.
  intros Hrun.
  apply morpho_align_ref_Ok in Hrun
    as (given & wd & refs0 & w1 & r & Hg & Hsetup & Hchain & -> & _).
  pose proof (wp_Ok _ _ _ _ _ _ (reference_models_spec models models_ref ns sm sk w) Hg)
    as ([Hnd0 _] & _).
  pose proof (wp_Ok _ _ _ _ _ _ (ref_setup_spec models given sk ka wd) Hsetup)
    as (_ & _ & _ & _ & _ & Hnd & Hrange & Hams & Hrefs). simpl in *.
  pose proof (wp_Ok _ _ _ _ _ _
    (ref_chain_spec opts sk ka ik vk full ams refs0 (length ams - 1) w1 Hnd) Hchain)
    as (logs & Hlogs & -> & _ & _ & _ & _ & Hn & Hfr & Hlg).
  split; [done|]. intros c Hc. split.
  { apply Hrange in Hc. lia. }
  assert (Hw1 : is_Some (store w1 !! c)).
  { apply elem_of_app in Hc as [Hc|Hc]; apply list_elem_of_lookup in Hc as [k Hk].
    - destruct (Hams k c Hk) as (m & A & base & _ & _ & Hst).
      destruct (decide (k = 0)); [destruct Hst as (raw & _ & ->)|rewrite Hst]; done.
    - destruct (Hrefs k c Hk) as (m & A & base & raw & _ & _ & _ & ->). done. }
  pose proof Hnd as Hnd'. apply NoDup_app in Hnd' as (Hnda & _ & Hndr).
  apply elem_of_app in Hc as [Hc|Hc]; apply list_elem_of_lookup in Hc as [k Hk].
  - destruct k as [|j].
    + rewrite Hfr; [done|]. intros j Hj. split; intros Hjc.
      * pose proof (NoDup_lookup _ _ _ _ Hnda Hk Hjc). lia.
      * by apply (NoDup_app_disjoint ams refs0 0 (S j) c c Hnd Hk Hjc).
    + pose proof (lookup_lt_Some _ _ _ Hk) as Hlt.
      destruct (lookup_lt_is_Some_2 logs j) as [lg Hlgj]; [lia|].
      destruct (Hlg j lg Hlgj)
        as (_ & _ & _ & Hb & Cref & C & key & B' & w2 & _ & _ & _ & _ & _ & Hsb & _).
      rewrite Hk in Hb. injection Hb as ->. by rewrite Hsb.
  - destruct k as [|j].
    + rewrite Hfr; [done|]. intros j Hj. split; intros Hjc.
      * by apply (NoDup_app_disjoint ams refs0 (S j) 0 c c Hnd Hjc Hk).
      * pose proof (NoDup_lookup _ _ _ _ Hndr Hk Hjc). lia.
    + destruct (decide (j < length logs)) as [Hj|Hj].
      * destruct (lookup_lt_is_Some_2 logs j Hj) as [lg Hlgj].
        destruct (Hlg j lg Hlgj)
          as (_ & Hbref & _ & _ & Cref & C & key & B' & w2 & _ & _ & _ & _ & Hsr & _).
        rewrite Hk in Hbref. injection Hbref as ->. by rewrite Hsr.
      * rewrite Hfr; [done|]. intros j' Hj'. split; intros Hjc.
        -- by apply (NoDup_app_disjoint ams refs0 (S j') (S j) c c Hnd Hjc Hk).
        -- pose proof (NoDup_lookup _ _ _ _ Hndr Hk Hjc). lia.
Qed.

(** X11.  The pair loop of [morpho_align_ref] runs once per pair of
    [models] and indexes the reference list with the same index (lines
    189-190), and nothing checks the length of a reference list the caller
    supplies.  So a call on two samples or more returns only if the
    reference list is at least as long as [models]; with a shorter one it
    raises. *)
Theorem X11_reference_list_not_shorter models models_ref ns sm opts sk ka ik vk
    full w ams refs ps psr ss w' :
  morpho_align_ref models models_ref ns sm opts sk ka ik vk full w
    = Ok (ams, refs, ps, psr, ss) w' ->
  2 <= length models ->
  length models <= length refs /\
  forall g, models_ref = Some g -> length models <= length g.
Proof.
  intros Hrun Hlen.
  apply morpho_align_ref_Ok in Hrun
    as (given & wd & refs0 & w1 & r & Hg & Hsetup & Hchain & -> & _).
  pose proof (wp_Ok _ _ _ _ _ _ (reference_models_spec models models_ref ns sm sk w) Hg)
    as (_ & _ & _ & Hgiven).
  pose proof (wp_Ok _ _ _ _ _ _ (ref_setup_spec models given sk ka wd) Hsetup)
    as (Hla & Hlr & _ & _ & _ & Hnd & _). simpl in *.
  pose proof (wp_Ok _ _ _ _ _ _
    (ref_chain_spec opts sk ka ik vk full ams refs0 (length ams - 1) w1 Hnd) Hchain)
    as (logs & Hlogs & -> & _ & _ & _ & _ & _ & _ & Hlg).
  destruct (lookup_lt_is_Some_2 logs (length ams - 2)) as [lg Hlgj]; [lia|].
  destruct (Hlg _ lg Hlgj) as (_ & Hbref & _).
  apply lookup_lt_Some in Hbref.
  split; [lia|]. intros g ->. destruct Hgiven as [-> _]. lia.
Qed.

(** * The calls of a run of [morpho_align_ref] *)

Lemma reference_models_trace models ns sm sk w given w' :
  reference_models models None ns sm sk w = Ok given w' ->
  exists copies,
    trace w' = trace w ++ [EvDownsampling copies] /\
    length copies = length models /\
    forall c, c ∈ copies -> next_id w <= c.
Proof.
  unfold reference_models. intros Hrun.
  apply bind_Ok in Hrun as (ms & w1 & Hcopy & Hdown).
  pose proof (wp_Ok _ _ _ _ _ _ (copies_spec models w) Hcopy)
    as (Hlen & Htr & _ & _ & _ & Hcs).
  unfold downsampling in Hdown.
  apply bind_Ok in Hdown as (vals & w2 & Hvals & Hdown).
  pose proof (wp_Ok _ _ _ _ _ _ (deref_all_spec ms w1) Hvals) as [-> _].
  apply bind_Ok in Hdown as ([] & w3 & Hlog & Hdown).
  unfold log in Hlog. injection Hlog as <-.
  destruct (Downsample ns sm sk vals) as [err|reduced]; [done|].
  pose proof (wp_Ok _ _ _ _ _ _ (new_objects_spec reduced _) Hdown) as (_ & Htr3 & _).
  exists ms. split; [by rewrite Htr3, <- Htr|]. split; [done|].
  intros c Hc. apply list_elem_of_lookup in Hc as [k Hk].
  by destruct (Hcs k c Hk) as [[? _] _].
Qed.

(** X12.  The calls a returning run of [morpho_align_ref] on [N] samples
    makes, all of them.  Without a reference list from the caller it starts
    with the one call of [downsampling], on [N] copies made for it, never
    on the caller's objects; with a reference list there is no such call.
    Then follow, for each of the [N - 1] pairs in order, one call of
    [BA_align] on reference samples [k] and [k+1], reading the slot
    [key_added] and given no label matrix, and one back-projection call on
    full-resolution samples [k+1] and [k]: [BA_transform_and_assignment]
    if [return_full_assignment], [BA_transform] otherwise.  [empty_cache]
    is never called. *)
Theorem X12_morpho_align_ref_calls models models_ref ns sm opts sk ka ik vk full
    w ams refs ps psr ss w' :
  morpho_align_ref models models_ref ns sm opts sk ka ik vk full w
    = Ok (ams, refs, ps, psr, ss) w' ->
  exists (pre : list Event) (logs : list RefLog),
    trace w' = trace w ++ pre ++ concat (map (ref_events ka) logs) /\
    length logs = length models - 1 /\
    match models_ref with
    | Some _ => pre = []
    | None => exists copies, pre = [EvDownsampling copies] /\
                             length copies = length models /\
                             forall c, c ∈ copies -> next_id w <= c
    end /\
    Forall (back_event_of full) logs /\
    forall j lg, logs !! j = Some lg ->
      refs !! j = Some (rl_aref lg) /\ refs !! S j = Some (rl_bref lg) /\
      ams !! j = Some (rl_a lg) /\ ams !! S j = Some (rl_b lg).
Proof.
  intros Hrun.
  apply morpho_align_ref_Ok in Hrun
    as (given & wd & refs0 & w1 & r & Hg & Hsetup & Hchain & -> & _).
  pose proof (wp_Ok _ _ _ _ _ _ (ref_setup_spec models given sk ka wd) Hsetup)
    as (Hla & _ & Htr1 & _ & _ & Hnd & _). simpl in *.
  pose proof (wp_Ok _ _ _ _ _ _
    (ref_chain_spec opts sk ka ik vk full ams refs0 (length ams - 1) w1 Hnd) Hchain)
    as (logs & Hlogs & -> & _ & _ & _ & Htr & _ & _ & Hlg).
  assert (Hpre : exists pre,
            trace wd = trace w ++ pre /\
            match models_ref with
            | Some _ => pre = []
            | None => exists copies, pre = [EvDownsampling copies] /\
                                     length copies = length models /\
                                     forall c, c ∈ copies -> next_id w <= c
            end).
  { destruct models_ref as [g|].
    - unfold reference_models, ret in Hg. injection Hg as _ <-.
      exists []. by rewrite app_nil_r.
    - apply reference_models_trace in Hg as (copies & Htr0 & Hlen & Hge).
      exists [EvDownsampling copies]. split; [done|]. by exists copies. }
  destruct Hpre as (pre & Htrd & Hpre).
  exists pre, logs. rewrite Htr, Htr1, Htrd, <- app_assoc.
  split; [done|]. split; [lia|]. split; [done|].
  split; [by eapply ref_logs_events|].
  intros j lg Hj. destruct (Hlg j lg Hj) as (? & ? & ? & ? & _). done.
Qed.

(** * A reference sample without the [spatial_key] slot *)

Lemma copies_of_in_store models w ams w' c :
  copies_of models w ams w' -> c ∈ ams -> is_Some (store w' !! c).
Proof.
  intros (_ & _ & _ & _ & _ & Hcs) Hc. apply list_elem_of_lookup in Hc as [k Hk].
  destruct (Hcs k c Hk) as [_ (m & A & base & _ & -> & _)]. done.
Qed.

Lemma copies_of_source models w ams w' k m A :
  wf w -> copies_of models w ams w' ->
  models !! k = Some m -> store w !! m = Some A ->
  exists c base, ams !! k = Some c /\ store w' !! c = Some (copy_value base A).
Proof.
  intros Hwf (Hlen & _ & _ & _ & _ & Hcs) Hm HA.
  destruct (lookup_lt_is_Some_2 ams k) as [c Hc].
  { rewrite Hlen. by eapply lookup_lt_Some. }
  destruct (Hcs k c Hc) as [_ (m' & A' & base & Hm' & Hst & Hold)].
  rewrite Hm in Hm'. injection Hm' as <-.
  assert (Hlt : m < next_id w) by (apply Hwf; by rewrite HA).
  specialize (Hold Hlt). rewrite HA in Hold. injection Hold as <-.
  by exists c, base.
Qed.

(** X13.  When the caller's reference list holds a sample without the
    [spatial_key] slot, [morpho_align_ref] raises [KeyError] for that key
    while seeding the reference copies (line 185): the copies have been
    made, no primitive has been called, and no object of the caller has
    been touched. *)
Theorem X13_reference_sample_missing_spatial_key models g ns sm opts sk ka ik vk
    full w m A :
  wf w ->
  (forall x, x ∈ models ++ g -> is_Some (store w !! x)) ->
  m ∈ g -> store w !! m = Some A -> obsm A !! sk = None ->
  exists w',
    morpho_align_ref models (Some g) ns sm opts sk ka ik vk full w
      = Raise (KeyError (Some sk)) w' /\
    trace w' = trace w /\
    forall l B, store w !! l = Some B -> store w' !! l = Some B.
Proof.
  intros Hwf Hall Hm HA Hsk.
  destruct (copies_return models w) as (ams & wa & Hcopy1).
  { intros x Hx. apply Hall, elem_of_app. by left. }
  pose proof (wp_Ok _ _ _ _ _ _ (copies_spec models w) Hcopy1) as Hca.
  pose proof Hca as (_ & Htra & [Hna Hfra] & Hwfa & _).
  assert (Hkeep : forall l B, store w !! l = Some B -> store wa !! l = Some B).
  { intros l B HB. rewrite Hfra; [done|]. apply Hwf. by rewrite HB. }
  destruct (copies_return g wa) as (refs & wb & Hcopy2).
  { intros x Hx. destruct (Hall x) as [B HB]; [apply elem_of_app; by right|].
    by rewrite (Hkeep x B HB). }
  pose proof (wp_Ok _ _ _ _ _ _ (copies_spec g wa) Hcopy2) as Hcb.
  pose proof Hcb as (_ & Htrb & [Hnb Hfrb] & _ & _ & Hcsb).
  apply list_elem_of_lookup in Hm as [k Hk].
  destruct (copies_of_source g wa refs wb k m A (Hwfa Hwf) Hcb Hk (Hkeep m A HA))
    as (c & base & Hc & HC).
  destruct (seed_loop_missing ka sk refs wb wb c (copy_value base A)
              (seed_rel_refl sk wb)) as (w' & Hloop & Hrel); try done.
  { intros x Hx. by eapply copies_of_in_store. }
  { by eapply list_elem_of_lookup_2. }
  exists w'. split.
  { unfold morpho_align_ref, reference_models, ref_setup.
    unfold bind at 1. unfold ret at 1. unfold bind at 1. unfold bind at 1.
    rewrite Hcopy1. unfold bind at 1. rewrite Hcopy2. unfold bind at 1.
    by rewrite Hloop. }
  pose proof Hrel as (Hn & Htr & _). split; [congruence|].
  intros l B HB.
  assert (Hl : l < next_id w) by (apply Hwf; by rewrite HB).
  pose proof (wp_Raise _ _ _ _ _ _
    (seed_loop_exact ka sk refs wb (copies_NoDup _ _ _ _ Hcb)) Hloop) as [_ Hout].
  rewrite Hout.
  - rewrite Hfrb by lia. by apply Hkeep.
  - intros Hin. apply list_elem_of_lookup in Hin as [j Hj].
    destruct (Hcsb j l Hj) as [[? _] _]. lia.
Qed.

(** X14.  In [morpho_align_ref] the first sample of either chain is never
    sample B of a pair: when the call returns, the first full-resolution
    object and the first reference object of the result are copies of the
    caller's first samples, with the raw coordinates of the [spatial_key]
    slot seeded under [key_added] and nothing else added. *)
Theorem X14_morpho_align_ref_anchors models g ns sm opts sk ka ik vk full
    w ams refs ps psr ss w' m A mr Ar :
  wf w ->
  morpho_align_ref models (Some g) ns sm opts sk ka ik vk full w
    = Ok (ams, refs, ps, psr, ss) w' ->
  models !! 0 = Some m -> store w !! m = Some A ->
  g !! 0 = Some mr -> store w !! mr = Some Ar ->
  exists c cr base baser raw rawr,
    ams !! 0 = Some c /\ refs !! 0 = Some cr /\
    obsm A !! sk = Some raw /\ obsm Ar !! sk = Some rawr /\
    store w' !! c = Some (with_obsm (copy_value base A) ka raw) /\
    store w' !! cr = Some (with_obsm (copy_value baser Ar) ka rawr).
Proof.
  intros Hwf Hrun Hm HA Hmr HAr.
  apply morpho_align_ref_Ok in Hrun
    as (given & wd & refs0 & w1 & r & Hg & Hsetup & Hchain & -> & _).
  unfold reference_models, ret in Hg. injection Hg as <- <-.
  pose proof (wp_Ok _ _ _ _ _ _ (ref_setup_spec models g sk ka w) Hsetup)
    as (Hla & Hlr & _ & _ & _ & Hnd & _ & Hams & Hrefs). simpl in *.
  pose proof (wp_Ok _ _ _ _ _ _
    (ref_chain_spec opts sk ka ik vk full ams refs0 (length ams - 1) w1 Hnd) Hchain)
    as (logs & Hlogs & -> & _ & _ & _ & _ & _ & Hfr & _).
  pose proof Hnd as Hnd'. apply NoDup_app in Hnd' as (Hnda & _ & Hndr).
  destruct (lookup_lt_is_Some_2 ams 0) as [c Hc].
  { rewrite Hla. by eapply lookup_lt_Some. }
  destruct (lookup_lt_is_Some_2 refs0 0) as [cr Hcr].
  { rewrite Hlr. by eapply lookup_lt_Some. }
  destruct (Hams 0 c Hc) as (m' & A' & base & Hm' & Hold & Hst).
  rewrite Hm in Hm'. injection Hm' as <-.
  rewrite decide_True in Hst by done. destruct Hst as (raw & Hraw & Hst).
  rewrite HA in Hold. assert (A' = A) as ->.
  { assert (Hlt : m < next_id w) by (apply Hwf; by rewrite HA).
    specialize (Hold Hlt). by injection Hold. }
  destruct (Hrefs 0 cr Hcr) as (mr' & Ar' & baser & rawr & Hmr' & Holdr & Hrawr & Hstr).
  rewrite Hmr in Hmr'. injection Hmr' as <-.
  rewrite HAr in Holdr. assert (Ar' = Ar) as ->.
  { assert (Hlt : mr < next_id w) by (apply Hwf; by rewrite HAr).
    specialize (Holdr Hlt). by injection Holdr. }
  exists c, cr, base, baser, raw, rawr. do 4 (split; [done|]). split.
  - rewrite Hfr; [done|]. intros j Hj. split; intros Hjc.
    + pose proof (NoDup_lookup _ _ _ _ Hnda Hc Hjc). lia.
    + by apply (NoDup_app_disjoint ams refs0 0 (S j) c c Hnd Hc Hjc).
  - rewrite Hfr; [done|]. intros j Hj. split; intros Hjc.
    + by apply (NoDup_app_disjoint ams refs0 (S j) 0 cr cr Hnd Hjc Hcr).
    + pose proof (NoDup_lookup _ _ _ _ Hndr Hcr Hjc). lia.
Qed.

(** * [morpho_align_ref] returns when the primitives do *)

Lemma grows_refl w : grows w w.
Proof. intros l A HA. by exists A. Qed.

Lemma grows_trans w0 w1 w2 : grows w0 w1 -> grows w1 w2 -> grows w0 w2.
Proof.
  intros H1 H2 l A HA.
  destruct (H1 l A HA) as (A1 & HA1 & Ho1 & Hu1).
  destruct (H2 l A1 HA1) as (A2 & HA2 & Ho2 & Hu2).
  exists A2. split; [done|]. split; auto.
Qed.

Lemma grows_same w n tr : grows w (mkWorld (store w) n tr).
Proof. intros l A HA. by exists A. Qed.

Lemma grows_insert w l A A' n tr :
  store w !! l = Some A ->
  (forall k, is_Some (obsm A !! k) -> is_Some (obsm A' !! k)) ->
  (forall k, is_Some (uns A !! k) -> is_Some (uns A' !! k)) ->
  grows w (mkWorld (<[l := A']> (store w)) n tr).
Proof.
  intros HA Ho Hu l' B HB. simpl. destruct (decide (l = l')) as [<-|Hne].
  - rewrite lookup_insert_eq. rewrite HA in HB. injection HB as <-. by exists A'.
  - rewrite lookup_insert_ne by done. by exists B.
Qed.

Lemma grows_in_store w w' l : grows w w' -> is_Some (store w !! l) -> is_Some (store w' !! l).
Proof. intros Hg [A HA]. destruct (Hg l A HA) as (A' & -> & _). done. Qed.

Lemma grows_has_slot sk w w' m : grows w w' -> has_slot sk w m -> has_slot sk w' m.
Proof.
  intros Hg (A & HA & Hsk). destruct (Hg m A HA) as (A' & HA' & Ho & _).
  exists A'. auto.
Qed.

Lemma grows_has_field key w w' m : grows w w' -> has_field key w m -> has_field key w' m.
Proof.
  intros Hg (A & HA & Hk). destruct (Hg m A HA) as (A' & HA' & _ & Hu).
  exists A'. auto.
Qed.

Lemma safe_list_get {A} (l : list A) i x (E : Exn -> World -> Prop) w :
  l !! i = Some x -> wp (list_get l i) (fun y w' => y = x /\ w' = w) E w.
Proof. intros Hx. unfold wp, list_get. by rewrite Hx. Qed.

Lemma safe_BA_align opts a b sk0 ka ik key sim (E : Exn -> World -> Prop) w :
  (forall o s X Y sim, exists out, Register o s X Y sim = inr out) ->
  is_Some (store w !! a) -> is_Some (store w !! b) ->
  wp (BA_align opts a b sk0 ka ik (Some key) sim)
     (fun _ w' => grows w w' /\ has_field key w' b) E w.
Proof.
  intros Htot [A HA] [B HB]. destruct (Htot opts sk0 A B sim) as [out Hout].
  unfold wp, BA_align, bind, deref. rewrite HA, HB. cbv zeta. rewrite Hout.
  unfold log, fresh, assign, ret. cbn [store next_id trace].
  fold (registered B ka ik (Some key) (next_id w) out).
  split.
  - apply (grows_insert w b B); [done| |].
    + intros k Hk. rewrite obsm_registered. apply lookup_insert_is_Some'. by right.
    + intros k Hk. unfold registered. destruct ik as [k'|]; simpl;
        repeat (apply lookup_insert_is_Some'; right); done.
  - eexists. simpl. rewrite lookup_insert_eq. split; [done|].
    unfold registered. destruct ik as [k'|]; simpl.
    + apply lookup_insert_is_Some'. right. apply lookup_insert_is_Some'. by left.
    + apply lookup_insert_is_Some'. by left.
Qed.

Lemma safe_uns_get m key (E : Exn -> World -> Prop) w :
  has_field key w m -> wp (uns_get m (Some key)) (fun _ w' => w' = w) E w.
Proof.
  intros (A & HA & [r Hr]). unfold wp, uns_get, bind, deref. rewrite HA. simpl.
  by rewrite Hr.
Qed.

Lemma safe_uns_set m key r (E : Exn -> World -> Prop) w :
  is_Some (store w !! m) ->
  wp (uns_set m key r) (fun _ w' => grows w w' /\ has_field key w' m) E w.
Proof.
  intros [A HA]. unfold wp, uns_set, bind, deref, assign. rewrite HA. split.
  - apply (grows_insert w m A); [done|done|].
    intros k Hk. simpl. apply lookup_insert_is_Some'. by right.
  - eexists. simpl. rewrite lookup_insert_eq. split; [done|].
    simpl. apply lookup_insert_is_Some'. by left.
Qed.

Lemma safe_obsm_get m k (E : Exn -> World -> Prop) w :
  has_slot k w m -> wp (obsm_get m k) (fun _ w' => w' = w) E w.
Proof.
  intros (A & HA & [c Hc]). unfold wp, obsm_get, bind, deref. rewrite HA.
  by rewrite Hc.
Qed.

Lemma safe_obsm_set m k c (E : Exn -> World -> Prop) w :
  is_Some (store w !! m) -> wp (obsm_set m k c) (fun _ w' => grows w w') E w.
Proof.
  intros [A HA]. unfold wp, obsm_set, bind, deref, assign. rewrite HA.
  apply (grows_insert w m A); [done| |done].
  intros k' Hk. simpl. apply lookup_insert_is_Some'. by right.
Qed.

Lemma safe_BA_transform fld q (E : Exn -> World -> Prop) w :
  (forall f q, exists out, Transform f q = inr out) ->
  wp (BA_transform fld q) (fun _ w' => grows w w') E w.
Proof.
  intros Htot. destruct (Htot (oval fld) q) as [out Hout].
  unfold wp, BA_transform, bind. cbv zeta. rewrite Hout.
  unfold log, ret. apply grows_same.
Qed.

Lemma safe_BA_transform_and_assignment opts b a fld sk (E : Exn -> World -> Prop) w :
  (forall o X Y f s, exists out, TransformAndAssign o X Y f s = inr out) ->
  is_Some (store w !! b) -> is_Some (store w !! a) ->
  wp (BA_transform_and_assignment opts b a fld sk) (fun _ w' => grows w w') E w.
Proof.
  intros Htot [B HB] [A HA]. destruct (Htot opts B A (oval fld) sk) as [out Hout].
  unfold wp, BA_transform_and_assignment, bind, deref. rewrite HB, HA.
  cbv zeta. rewrite Hout. unfold log, ret. apply grows_same.
Qed.

Lemma wp_bind_safe {A B} (m : M A) (f : A -> M B) (Q0 : A -> World -> Prop)
    (Q : B -> World -> Prop) w :
  wp m Q0 (fun _ _ => False) w ->
  (forall a w1, Q0 a w1 -> wp (f a) Q (fun _ _ => False) w1) ->
  wp (bind m f) Q (fun _ _ => False) w.
Proof. intros Hm Hf. apply wp_bind. eapply wp_mono; [exact Hm | exact Hf | done]. Qed.

Lemma has_slot_in_store sk w m : has_slot sk w m -> is_Some (store w !! m).
Proof. intros (A & -> & _). done. Qed.

(** An iteration of the pair loop of [morpho_align_ref] completes when its
    four samples are there, sample B has the [spatial_key] slot and the
    primitives it calls do not fail. *)
Lemma align_ref_pair_safe opts sk ka ik key full ams i acc w aref bref a b :
  (forall o s X Y sim, exists out, Register o s X Y sim = inr out) ->
  back_projection_total full ->
  r_align_models_ref acc !! i = Some aref ->
  r_align_models_ref acc !! (i + 1) = Some bref ->
  ams !! i = Some a -> ams !! (i + 1) = Some b ->
  is_Some (store w !! aref) -> is_Some (store w !! bref) ->
  is_Some (store w !! a) -> has_slot sk w b ->
  wp (align_ref_pair opts sk ka ik (Some key) full ams i acc)
     (fun acc' w' => r_align_models_ref acc' = r_align_models_ref acc /\ grows w w')
     (fun _ _ => False) w.
Proof.
  intros Hreg Hback Haref Hbref Ha Hb Sar Sbr Sa Sb.
  unfold align_ref_pair.
  eapply wp_bind_safe; [by apply safe_list_get|]. intros ? ? [-> ->].
  eapply wp_bind_safe; [by apply safe_list_get|]. intros ? ? [-> ->].
  eapply wp_bind_safe; [by apply safe_BA_align|]. intros r w1 [G1 F1].
  cbv zeta.
  eapply wp_bind_safe; [by apply safe_list_get|]. intros ? ? [-> ->].
  eapply wp_bind_safe; [by apply safe_list_get|]. intros ? ? [-> ->].
  eapply wp_bind_safe; [by apply safe_uns_get|]. intros shared ? ->.
  eapply wp_bind_safe.
  { apply safe_uns_set. eapply grows_in_store; [exact G1|].
    by eapply has_slot_in_store. }
  intros [] w2 [G2 F2].
  assert (G02 : grows w w2) by (by eapply grows_trans).
  apply (wp_bind_safe _ _ (fun _ w' => grows w2 w')).
  { unfold back_project. unfold back_projection_total in Hback. destruct full.
    - eapply wp_bind_safe.
      { apply safe_uns_get. eapply grows_has_field; [exact G2 | exact F1]. }
      intros fld ? ->.
      eapply wp_bind_safe.
      { apply safe_BA_transform_and_assignment; [done| |].
        - eapply grows_in_store; [exact G02|]. by eapply has_slot_in_store.
        - by eapply grows_in_store. }
      intros out w3 G3. cbv beta in G3.
      eapply wp_bind_safe.
      { apply safe_obsm_set. eapply grows_in_store; [exact G3|].
        eapply grows_in_store; [exact G02|]. by eapply has_slot_in_store. }
      intros [] w4 G4. cbv beta in G4. apply wp_ret. by eapply grows_trans.
    - eapply wp_bind_safe.
      { apply safe_uns_get. eapply grows_has_field; [exact G2 | exact F1]. }
      intros fld ? ->.
      eapply wp_bind_safe.
      { apply safe_obsm_get. by eapply grows_has_slot. }
      intros q ? ->.
      eapply wp_bind_safe; [by apply safe_BA_transform|].
      intros out w3 G3. cbv beta in G3.
      eapply wp_bind_safe.
      { apply safe_obsm_set. eapply grows_in_store; [exact G3|].
        eapply grows_in_store; [exact G02|]. by eapply has_slot_in_store. }
      intros [] w4 G4. cbv beta in G4.
      eapply wp_bind_safe.
      { apply safe_obsm_set. eapply grows_in_store; [exact G4|].
        eapply grows_in_store; [exact G3|].
        eapply grows_in_store; [exact G02|]. by eapply has_slot_in_store. }
      intros [] w5 G5. cbv beta in G5. apply wp_ret.
      eapply grows_trans; [exact G3|]. by eapply grows_trans. }
  intros P w3 G3. cbv beta in G3. apply wp_ret. simpl. split.
  - by apply list_insert_id.
  - by eapply grows_trans.
Qed.

Lemma ref_chain_safe opts sk ka ik key full ams refs n w :
  (forall o s X Y sim, exists out, Register o s X Y sim = inr out) ->
  back_projection_total full ->
  n <= length ams - 1 -> n <= length refs - 1 ->
  (forall c, c ∈ refs -> is_Some (store w !! c)) ->
  (forall c, c ∈ ams -> has_slot sk w c) ->
  wp (ref_chain opts sk ka ik (Some key) full ams refs n)
     (fun _ w' => grows w w') (fun _ _ => False) w.
Proof.
  intros Hreg Hback Hn Hn' Hrefs Hams. unfold ref_chain.
  eapply wp_mono;
    [apply (for_loop_wp
              (fun _ acc w1 => r_align_models_ref acc = refs /\ grows w w1)
              (fun _ _ => False))
    | by intros r w' [_ ?] | done].
  - split; [done | apply grows_refl].
  - intros i acc w1 Hi [Hacc G].
    destruct (lookup_lt_is_Some_2 refs i) as [aref Haref]; [lia|].
    destruct (lookup_lt_is_Some_2 refs (i + 1)) as [bref Hbref]; [lia|].
    destruct (lookup_lt_is_Some_2 ams i) as [a Ha]; [lia|].
    destruct (lookup_lt_is_Some_2 ams (i + 1)) as [b Hb]; [lia|].
    eapply wp_mono;
      [apply (align_ref_pair_safe opts sk ka ik key full ams i acc w1 aref bref a b)
      | | done]; try done; try (by rewrite Hacc).
    + eapply grows_in_store; [exact G|]. apply Hrefs. by eapply list_elem_of_lookup_2.
    + eapply grows_in_store; [exact G|]. apply Hrefs. by eapply list_elem_of_lookup_2.
    + eapply grows_in_store; [exact G|]. eapply has_slot_in_store, Hams.
      by eapply list_elem_of_lookup_2.
    + eapply grows_has_slot; [exact G|]. apply Hams. by eapply list_elem_of_lookup_2.
    + intros acc' w2 [Hacc' G2]. split; [congruence | by eapply grows_trans].
Qed.

Lemma ref_setup_returns models given sk ka w :
  wf w -> models <> [] ->
  (forall m, m ∈ models ++ given -> has_slot sk w m) ->
  exists ams refs w1,
    ref_setup models given sk ka w = Ok (ams, refs) w1 /\
    length ams = length models /\ length refs = length given /\
    (forall c, c ∈ refs -> is_Some (store w1 !! c)) /\
    (forall c, c ∈ ams -> has_slot sk w1 c).
Proof.
  intros Hwf Hne Hall.
  destruct (copies_return models w) as (ams & wa & Hcopy1).
  { intros x Hx. eapply has_slot_in_store, Hall, elem_of_app. by left. }
  pose proof (wp_Ok _ _ _ _ _ _ (copies_spec models w) Hcopy1) as Hca.
  pose proof Hca as (Hlena & _ & [Hna Hfra] & Hwfa & _ & Hcsa).
  assert (Hkeep : forall m, has_slot sk w m -> has_slot sk wa m).
  { intros m (A & HA & Hsk). exists A. split; [|done].
    rewrite Hfra; [done|]. apply Hwf. by rewrite HA. }
  destruct (copies_return given wa) as (refs & wb & Hcopy2).
  { intros x Hx. eapply has_slot_in_store, Hkeep, Hall, elem_of_app. by right. }
  pose proof (wp_Ok _ _ _ _ _ _ (copies_spec given wa) Hcopy2) as Hcb.
  pose proof Hcb as (Hlenb & _ & [Hnb Hfrb] & _ & _ & Hcsb).
  assert (Hrefs : forall c, c ∈ refs -> has_slot sk wb c).
  { intros c Hc. apply list_elem_of_lookup in Hc as [k Hk].
    destruct (Hcsb k c Hk) as [_ (m & A & base & Hm & Hst & Hold)].
    destruct (Hkeep m) as (A0 & HA0 & Hsk).
    { apply Hall, elem_of_app. right. by eapply list_elem_of_lookup_2. }
    assert (Hlt : m < next_id wa) by (apply (Hwfa Hwf); by rewrite HA0).
    specialize (Hold Hlt). rewrite HA0 in Hold. injection Hold as <-.
    by exists (copy_value base A0). }
  assert (Hams : forall c, c ∈ ams -> has_slot sk wb c).
  { intros c Hc. apply list_elem_of_lookup in Hc as [k Hk].
    destruct (Hcsa k c Hk) as [[_ Hcl] (m & A & base & Hm & Hst & Hold)].
    destruct (Hall m) as (A0 & HA0 & Hsk).
    { apply elem_of_app. left. by eapply list_elem_of_lookup_2. }
    assert (Hlt : m < next_id w) by (apply Hwf; by rewrite HA0).
    specialize (Hold Hlt). rewrite HA0 in Hold. injection Hold as <-.
    exists (copy_value base A0). split; [|done]. by rewrite Hfrb. }
  destruct (seed_loop_returns ka sk refs wb wb (seed_rel_refl sk wb) Hrefs)
    as (wc & Hseed & Hrel).
  destruct (lookup_lt_is_Some_2 ams 0) as [first Hfirst].
  { rewrite Hlena. destruct models; [done | simpl; lia]. }
  destruct (has_slot_seed_rel sk wb wc first Hrel) as (A1 & HA1 & [raw Hraw]).
  { apply Hams. by eapply list_elem_of_lookup_2. }
  exists ams, refs. eexists. split.
  { unfold ref_setup. unfold bind at 1. rewrite Hcopy1.
    unfold bind at 1. rewrite Hcopy2. unfold bind at 1. rewrite Hseed.
    unfold bind at 1. unfold list_get. rewrite Hfirst. unfold ret at 1.
    unfold bind at 1. rewrite (seed_once ka sk first A1 raw wc HA1 Hraw).
    reflexivity. }
  do 2 (split; [done|]).
  assert (G : grows wc (mkWorld (<[first := with_obsm A1 ka raw]> (store wc))
                                (next_id wc) (trace wc))).
  { apply (grows_insert wc first A1); [done| |done].
    intros k Hk. simpl. apply lookup_insert_is_Some'. by right. }
  split.
  - intros c Hc. eapply grows_in_store; [exact G|].
    eapply has_slot_in_store, has_slot_seed_rel; [exact Hrel|]. by apply Hrefs.
  - intros c Hc. eapply grows_has_slot; [exact G|].
    eapply has_slot_seed_rel; [exact Hrel|]. by apply Hams.
Qed.

Lemma deref_all_returns sk ms w :
  (forall c, c ∈ ms -> has_slot sk w c) ->
  exists vals, map_M deref ms w = Ok vals w /\
               Forall (fun a => is_Some (obsm a !! sk)) vals.
Proof.
  induction ms as [|c ms IH]; intros Hall.
  - by exists [].
  - destruct (Hall c) as (A & HA & Hsk); [by left|].
    destruct IH as (vals & Hvals & Hslots); [intros x Hx; apply Hall; by right|].
    exists (A :: vals). split; [|by constructor].
    simpl. unfold bind at 1. unfold deref at 1. rewrite HA.
    unfold bind at 1. by rewrite Hvals.
Qed.

Lemma new_objects_returns reduced w :
  exists given w',
    map_M new_object reduced w = Ok given w' /\
    forall k c, given !! k = Some c ->
      exists a, reduced !! k = Some a /\ store w' !! c = Some a.
Proof.
  revert w. induction reduced as [|a t IH]; intros w.
  - exists [], w. split; [done|]. intros k c Hk. done.
  - set (w1 := mkWorld (<[next_id w := a]> (store w)) (S (next_id w)) (trace w)).
    destruct (IH w1) as (given & w' & Hrun & Hcontent).
    exists (next_id w :: given), w'. split.
    { simpl. unfold bind at 1. unfold new_object at 1, bind, fresh, assign, ret.
      cbn [store next_id trace]. fold w1. by rewrite Hrun. }
    pose proof (wp_Ok _ _ _ _ _ _ (new_objects_spec t w1) Hrun)
      as (_ & _ & [_ Hfr] & _).
    intros [|k] c Hk; simpl in Hk.
    + injection Hk as <-. exists a. split; [done|].
      rewrite Hfr by (simpl; lia). simpl. by rewrite lookup_insert_eq.
    + by apply Hcontent.
Qed.

Lemma reference_models_returns models ns sm sk w :
  wf w ->
  (forall m, m ∈ models -> has_slot sk w m) ->
  (forall vals, Forall (fun a => is_Some (obsm a !! sk)) vals ->
     exists reduced,
       Downsample ns sm sk vals = inr reduced /\
       length vals <= length reduced /\
       Forall (fun a => is_Some (obsm a !! sk)) reduced) ->
  exists given wd,
    reference_models models None ns sm sk w = Ok given wd /\
    wf wd /\ length models <= length given /\
    forall m, m ∈ models ++ given -> has_slot sk wd m.
Proof.
  intros Hwf Hall Hdown.
  destruct (copies_return models w) as (ms & w1 & Hcopy).
  { intros x Hx. by eapply has_slot_in_store, Hall. }
  pose proof (wp_Ok _ _ _ _ _ _ (copies_spec models w) Hcopy) as Hc.
  pose proof Hc as (Hlenms & _ & _ & _ & _ & Hcs).
  destruct (deref_all_returns sk ms w1) as (vals & Hvals & Hvslots).
  { intros c Hc'. apply list_elem_of_lookup in Hc' as [k Hk].
    destruct (Hcs k c Hk) as [_ (m & A & base & Hm & Hst & Hold)].
    destruct (Hall m) as (A0 & HA0 & Hsk); [by eapply list_elem_of_lookup_2|].
    assert (Hlt : m < next_id w) by (apply Hwf; by rewrite HA0).
    specialize (Hold Hlt). rewrite HA0 in Hold. injection Hold as <-.
    by exists (copy_value base A0). }
  pose proof (wp_Ok _ _ _ _ _ _ (deref_all_spec ms w1) Hvals) as [_ Hlenv].
  destruct (Hdown vals Hvslots) as (reduced & HD & Hlen & Hslots).
  destruct (new_objects_returns reduced
              (mkWorld (store w1) (next_id w1) (trace w1 ++ [EvDownsampling ms])))
    as (given & wd & Hnew & Hcontent).
  assert (Hrun : reference_models models None ns sm sk w = Ok given wd).
  { unfold reference_models. unfold bind at 1. rewrite Hcopy.
    unfold downsampling. unfold bind at 1. rewrite Hvals.
    unfold bind at 1. unfold log at 1. by rewrite HD. }
  exists given, wd. split; [done|].
  pose proof (wp_Ok _ _ _ _ _ _ (reference_models_spec models None ns sm sk w) Hrun)
    as ([_ Hfr] & Hwfd & _).
  pose proof (wp_Ok _ _ _ _ _ _ (new_objects_spec reduced _) Hnew) as (Hlg & _).
  split; [by apply Hwfd|]. split; [lia|].
  intros m Hm. apply elem_of_app in Hm as [Hm|Hm].
  - destruct (Hall m Hm) as (A & HA & Hsk). exists A. split; [|done].
    rewrite Hfr; [done|]. apply Hwf. by rewrite HA.
  - apply list_elem_of_lookup in Hm as [k Hk].
    destruct (Hcontent k m Hk) as (a & Ha & Hst).
    exists a. split; [done|].
    rewrite Forall_forall in Hslots. apply Hslots.
    by eapply list_elem_of_lookup_2.
Qed.

Lemma ref_pipeline_returns models given opts sk ka ik key full wd :
  wf wd -> models <> [] ->
  (forall o s X Y sim, exists out, Register o s X Y sim = inr out) ->
  back_projection_total full ->
  length models <= length given \/ length models = 1 ->
  (forall m, m ∈ models ++ given -> has_slot sk wd m) ->
  exists ams refs w1 r w',
    ref_setup models given sk ka wd = Ok (ams, refs) w1 /\
    ref_chain opts sk ka ik (Some key) full ams refs (length ams - 1) w1 = Ok r w'.
Proof.
  intros Hwf Hne Hreg Hback Hlen Hall.
  destruct (ref_setup_returns models given sk ka wd Hwf Hne Hall)
    as (ams & refs & w1 & Hsetup & Hla & Hlr & Hrefs & Hams).
  pose proof (ref_chain_safe opts sk ka ik key full ams refs (length ams - 1) w1
                Hreg Hback (le_n _)) as Hchain.
  unfold wp in Hchain.
  destruct (ref_chain opts sk ka ik (Some key) full ams refs (length ams - 1) w1)
    as [r w'|e w'] eqn:Hrun.
  - by exists ams, refs, w1, r, w'.
  - exfalso. apply Hchain; [lia|done|done].
Qed.

(** X15.  [morpho_align_ref] returns on every non-empty list of samples
    that all have the [spatial_key] slot, when it is called with a field
    key, [BA_align] and the back-projection primitive of the chosen mode do
    not fail, and the reference list is fit: one the caller supplies holds
    samples with the [spatial_key] slot and is at least as long as [models]
    (any length will do for a single sample); without one, [downsampling],
    given samples that have the [spatial_key] slot, returns at least as
    many samples, each with that slot. *)
Theorem X15_morpho_align_ref_returns models models_ref ns sm opts sk ka ik key
    full w :
  wf w -> models <> [] ->
  (forall o s X Y sim, exists out, Register o s X Y sim = inr out) ->
  back_projection_total full ->
  (forall m, m ∈ models -> has_slot sk w m) ->
  match models_ref with
  | Some g =>
      (length models <= length g \/ length models = 1) /\
      forall m, m ∈ g -> has_slot sk w m
  | None =>
      forall vals, Forall (fun a => is_Some (obsm a !! sk)) vals ->
        exists reduced,
          Downsample ns sm sk vals = inr reduced /\
          length vals <= length reduced /\
          Forall (fun a => is_Some (obsm a !! sk)) reduced
  end ->
  exists ams refs ps psr ss w',
    morpho_align_ref models models_ref ns sm opts sk ka ik (Some key) full w
      = Ok (ams, refs, ps, psr, ss) w'.
Proof.
  intros Hwf Hne Hreg Hback Hall Href.
  assert (Hgiven : exists given wd,
            reference_models models models_ref ns sm sk w = Ok given wd /\
            wf wd /\ (length models <= length given \/ length models = 1) /\
            forall m, m ∈ models ++ given -> has_slot sk wd m).
  { destruct models_ref as [g|].
    - destruct Href as [Hlen Hg]. exists g, w. split; [done|]. split; [done|].
      split; [done|]. intros m Hm. apply elem_of_app in Hm as [Hm|Hm]; auto.
    - destruct (reference_models_returns models ns sm sk w Hwf Hall Href)
        as (given & wd & Hrun & Hwfd & Hlen & Hslots).
      exists given, wd. auto. }
  destruct Hgiven as (given & wd & Hrun & Hwfd & Hlen & Hslots).
  destruct (ref_pipeline_returns models given opts sk ka ik key full wd
              Hwfd Hne Hreg Hback Hlen Hslots)
    as (ams & refs & w1 & r & w' & Hsetup & Hchain).
  exists ams, (r_align_models_ref r), (r_pis r), (r_pis_ref r), (r_sigma2s r), w'.
  unfold morpho_align_ref. unfold bind at 1. rewrite Hrun.
  unfold bind at 1. rewrite Hsetup. unfold bind at 1. simpl. by rewrite Hchain.
Qed.

(** * The reference chain is aligned progressively *)

Lemma ref_chain_linked_spec opts sk ka ik vk full ams refs n w0 :
  NoDup (ams ++ refs) ->
  wp (ref_chain opts sk ka ik vk full ams refs n)
     (fun _ w' =>
        exists calls,
          length calls = n /\
          registrations (trace w') = registrations (trace w0) ++ map reg_of calls /\
          chain_linked opts ka refs w0 calls)
     (fun _ _ => True) w0.
Proof.
  intros Hnd. unfold ref_chain.
  eapply wp_mono;
    [apply (for_loop_wp
              (fun t acc w =>
                 r_align_models_ref acc = refs /\
                 exists calls,
                   length calls = t /\
                   registrations (trace w) = registrations (trace w0) ++ map reg_of calls /\
                   chain_linked opts ka refs w0 calls /\
                   (forall l, (forall j, j < t -> ams !! S j <> Some l /\
                                                  refs !! S j <> Some l) ->
                              store w !! l = store w0 !! l) /\
                   (forall c, last calls = Some c ->
                      exists Bt, store w !! rc_b c = Some Bt /\
                                 obsm Bt !! ka = Some (reg_coords (rc_out c))))
              (fun _ _ => True))
    | | done].
  - split; [done|]. exists []. simpl. rewrite app_nil_r. repeat split; done.
  - intros t acc w Ht (Hacc & calls & Hlen & Hreg & Hlink & Hfr & Hlast).
    eapply wp_mono; [apply align_ref_pair_spec | | done].
    intros acc' w'
      (aref & bref & Aref & Bref & out & a & b & B & key & fld & ev & P & B' &
       Haref & Hbref & HAref & HBref & HR & Ha & Hb & -> & Hfld & HB & Hback & -> & ->).
    rewrite Hacc in Haref, Hbref.
    replace (t + 1) with (S t) in Hb, Hbref by lia.
    pose proof Hnd as Hnd'. apply NoDup_app in Hnd' as (Hnda & _ & Hndr).
    assert (Hbne : b <> bref) by (by eapply NoDup_app_disjoint).
    assert (Hfresh_r : forall j, j < t -> ams !! S j <> Some bref /\
                                          refs !! S j <> Some bref).
    { intros j Hj. split.
      - intros Hjb. by eapply (NoDup_app_disjoint ams refs (S j) (S t) bref bref).
      - intros Hjb. pose proof (NoDup_lookup _ _ _ _ Hndr Hjb Hbref). lia. }
    assert (HBref0 : store w0 !! bref = Some Bref) by (rewrite <- Hfr; done).
    assert (Hev : registrations [ev] = []).
    { unfold back_projected in Hback. destruct full.
      - by destruct Hback as (? & ? & _ & _ & -> & _).
      - by destruct Hback as (? & ? & _ & _ & -> & _). }
    simpl. split; [done|].
    exists (calls ++ [mkRegCall aref bref Aref Bref out]).
    rewrite length_app, map_app. simpl. split; [lia|]. split.
    { change [EvRegister aref bref ka None (inr out); ev]
        with ([EvRegister aref bref ka None (inr out)] ++ [ev]).
      rewrite !registrations_app, Hreg, Hev, app_nil_r, <- app_assoc. done. }
    split; [|split].
    + intros j c Hj. apply lookup_snoc_Some in Hj as [[Hj1 Hj2]|[Hj1 Hj2]].
      * destruct (Hlink j c Hj2) as (H1 & H2 & H3 & H4 & H5).
        do 4 (split; [done|]). destruct j as [|j']; [done|].
        destruct H5 as (c' & Hc' & Hka). exists c'. split; [|done].
        by apply lookup_app_l_Some.
      * subst c. simpl. rewrite Hj1, Hlen. do 4 (split; [done|]).
        destruct t as [|t'].
        -- rewrite <- Hfr; [done|]. intros j0 Hj0. lia.
        -- destruct (lookup_lt_is_Some_2 calls t') as [c' Hc']; [lia|].
           exists c'. split; [by apply lookup_app_l_Some|].
           destruct (Hlast c') as (Bt & HBt & Hka).
           { rewrite last_lookup, Hlen. done. }
           destruct (Hlink t' c' Hc') as (_ & Hb' & _).
           rewrite Haref in Hb'. injection Hb' as Heq. rewrite <- Heq in HBt.
           rewrite HAref in HBt. by injection HBt as <-.
    + intros l Hl. destruct (Hl t) as [Hl1 Hl2]; [lia|].
      rewrite !lookup_insert_ne by congruence.
      apply Hfr. intros j0 Hj0. apply Hl. lia.
    + intros c Hc. rewrite last_snoc in Hc. injection Hc as <-. simpl.
      rewrite lookup_insert_ne by done. rewrite lookup_insert_eq.
      eexists. split; [done|]. rewrite obsm_registered. by rewrite lookup_insert_eq.
  - intros r w' (_ & calls & Hlen & Hreg & Hlink & _). by exists calls.
Qed.

(** X16.  The reference chain of [morpho_align_ref] is aligned
    progressively.  In a returning run, the call of [BA_align] for pair [j]
    is made on reference samples [j] and [j+1] and reads their [key_added]
    slot: sample B still holds its raw coordinates there, and sample A
    holds the coordinates that the call for pair [j-1] returned, or its raw
    coordinates for the first pair. *)
Theorem X16_reference_chain_is_progressive models models_ref ns sm opts sk ka ik vk
    full w ams refs ps psr ss w' :
  morpho_align_ref models models_ref ns sm opts sk ka ik vk full w
    = Ok (ams, refs, ps, psr, ss) w' ->
  exists calls : list RegCall,
    length calls = length models - 1 /\
    registrations (trace w') = registrations (trace w) ++ map reg_of calls /\
    forall j c, calls !! j = Some c ->
      refs !! j = Some (rc_a c) /\ refs !! S j = Some (rc_b c) /\
      Register opts ka (rc_A c) (rc_B c) None = inr (rc_out c) /\
      (exists raw, obsm (rc_B c) !! sk = Some raw /\ obsm (rc_B c) !! ka = Some raw) /\
      match j with
      | 0 => exists raw, obsm (rc_A c) !! sk = Some raw /\
                         obsm (rc_A c) !! ka = Some raw
      | S j' => exists c', calls !! j' = Some c' /\
                           obsm (rc_A c) !! ka = Some (reg_coords (rc_out c'))
      end.
Proof.
  intros Hrun.
  apply morpho_align_ref_Ok in Hrun
    as (given & wd & refs0 & w1 & r & Hg & Hsetup & Hchain & -> & _).
  pose proof (wp_Ok _ _ _ _ _ _ (reference_models_spec models models_ref ns sm sk w) Hg)
    as (_ & _ & (pre & Htrd & Hpre & _) & _).
  pose proof (wp_Ok _ _ _ _ _ _ (ref_setup_spec models given sk ka wd) Hsetup)
    as (Hla & _ & Htr1 & _ & _ & Hnd & _ & _ & Hrefs). simpl in *.
  pose proof (wp_Ok _ _ _ _ _ _
    (ref_chain_spec opts sk ka ik vk full ams refs0 (length ams - 1) w1 Hnd) Hchain)
    as (_ & _ & -> & _).
  pose proof (wp_Ok _ _ _ _ _ _
    (ref_chain_linked_spec opts sk ka ik vk full ams refs0 (length ams - 1) w1 Hnd) Hchain)
    as (calls & Hlen & Hreg & Hlink).
  assert (Hseeded : forall k c C, refs0 !! k = Some c -> store w1 !! c = Some C ->
            exists raw, obsm C !! sk = Some raw /\ obsm C !! ka = Some raw).
  { intros k c C Hk HC.
    destruct (Hrefs k c Hk) as (m & A & base & raw & _ & _ & Hraw & Hst).
    rewrite Hst in HC. injection HC as <-. exists raw. simpl. split.
    - destruct (decide (ka = sk)) as [->|Hne].
      + by rewrite lookup_insert_eq.
      + by rewrite lookup_insert_ne.
    - by rewrite lookup_insert_eq. }
  exists calls. split; [lia|]. split.
  { rewrite Hreg, Htr1, Htrd, registrations_app, Hpre, app_nil_r. done. }
  intros j c Hc. destruct (Hlink j c Hc) as (Ha & Hb & HR & HB & HA).
  do 3 (split; [done|]). split; [exact (Hseeded _ _ _ Hb HB)|].
  destruct j as [|j']; [exact (Hseeded _ _ _ Ha HA) | done].
Qed.

(** * A sample with too few points, and the label key *)

(** X17.  The slip of line 85 at the level of the whole call: with a label
    key, [morpho_align] never returns on a list in which sample [i+1] has
    at least one point and at most [i] points, the two samples of pair [i]
    carrying the categorical label column: if the run gets as far as pair
    [i], [catBCode[i]] raises [IndexError] there. *)
Theorem X17_label_key_needs_enough_points models opts sk ka ik vk lk w i
    ma mb A B csA vsA csB vsB :
  wf w -> S i < length models ->
  models !! i = Some ma -> models !! S i = Some mb ->
  store w !! ma = Some A -> store w !! mb = Some B ->
  obs A !! lk = Some (CatCol csA vsA) -> obs B !! lk = Some (CatCol csB vsB) ->
  0 < length vsB <= i ->
  returned (morpho_align models opts sk ka ik vk (Some lk) w) = false.
Proof.
  intros Hwf Hi Hma Hmb HA HB HcA HcB Hrange.
  destruct (morpho_align models opts sk ka ik vk (Some lk) w)
    as [[[ams ps] ss] w'|e w'] eqn:Hrun; [|done].
  exfalso.
  apply morpho_align_Ok in Hrun as (w1 & w2 & r & Hseed & Hcopy & Hchain & -> & ->).
  destruct (seeded_copies models sk ka w w1 ams w2 Hwf Hseed Hcopy)
    as (Htr & Hnd & Hlen & _ & _ & Hall).
  unfold align_chain in Hchain.
  replace (length ams - 1) with (i + S (length ams - 2 - i)) in Hchain by lia.
  rewrite for_loop_split in Hchain.
  pose proof (align_chain_spec opts sk ka ik vk (Some lk) ams i w2 Hnd) as Hpre.
  unfold wp, align_chain in Hpre.
  destruct (for_loop (_iteration i) _ _ w2) as [ri wi|ei wi]; [|done].
  simpl in Hchain. unfold bind in Hchain.
  destruct (Hall i ma Hma)
    as (Aa & _ & Aa1 & ca & basea & HAa & _ & _ & _ & Hobsa & _ & _ & Hca & Hsta & _).
  destruct (Hall (S i) mb Hmb)
    as (Ab & _ & Ab1 & cb & baseb & HAb & _ & _ & _ & Hobsb & _ & _ & Hcb & Hstb & _).
  rewrite HA in HAa. injection HAa as <-. rewrite HB in HAb. injection HAb as <-.
  destruct (chain_done_obs _ _ _ _ _ _ _ _ _ _ Hnd Hpre i ca _ Hca Hsta)
    as (Ba & HBa & HobsBa).
  destruct (chain_done_obs _ _ _ _ _ _ _ _ _ _ Hnd Hpre (S i) cb _ Hcb Hstb)
    as (Bb & HBb & HobsBb).
  simpl in HobsBa, HobsBb.
  destruct (align_pair_index_error opts sk ka ik vk lk ams i ri wi ca cb Ba Bb
              csA vsA csB vsB) as [_ Hpair]; try done.
  - by replace (i + 1) with (S i) by lia.
  - by rewrite HobsBa, Hobsa.
  - by rewrite HobsBb, Hobsb.
  - by rewrite Hpair in Hchain.
Qed.

(** * What back-projection leaves on a full-resolution sample *)

(** X18.  The state of full-resolution sample [k+1] when [morpho_align_ref]
    returns, against the caller's sample [M] it was copied from: [.X] and
    [.obs] are those of [M]; [.uns] is the copy's with the shared field
    added under [vecfld_key_added]; and [.obsm] is that of [M] with, in
    full-assignment mode, only [key_added] set, to the points
    [BA_transform_and_assignment] returned for the raw copy carrying the
    field, and otherwise [key_added] and "Rigid_align_spatial" set to the
    two outputs of [BA_transform] applied to the raw [spatial_key]
    coordinates of [M]. *)
Theorem X18_back_projected_sample models models_ref ns sm opts sk ka ik vk full
    w ams refs ps psr ss w' k m M :
  wf w ->
  morpho_align_ref models models_ref ns sm opts sk ka ik vk full w
    = Ok (ams, refs, ps, psr, ss) w' ->
  models !! S k = Some m -> store w !! m = Some M ->
  exists b base key fld B',
    ams !! S k = Some b /\ vk = Some key /\ store w' !! b = Some B' /\
    X B' = X M /\ obs B' = obs M /\
    uns B' = <[key := fld]> (uns (copy_value base M)) /\
    if full then
      exists A2 out2,
        TransformAndAssign opts (with_uns (copy_value base M) key fld) A2 (oval fld) sk
          = inr out2 /\
        obsm B' = <[ka := snd out2]> (obsm M)
    else
      exists q tout,
        obsm M !! sk = Some q /\ Transform (oval fld) q = inr tout /\
        obsm B' = <["Rigid_align_spatial" := tr_rigid tout]>
                    (<[ka := tr_nonrigid tout]> (obsm M)).
Proof.
  intros Hwf Hrun Hm HM.
  apply morpho_align_ref_Ok in Hrun
    as (given & wd & refs0 & w1 & r & Hg & Hsetup & Hchain & -> & _).
  pose proof (wp_Ok _ _ _ _ _ _ (reference_models_spec models models_ref ns sm sk w) Hg)
    as ([Hnd0 Hfrd] & _).
  pose proof (wp_Ok _ _ _ _ _ _ (ref_setup_spec models given sk ka wd) Hsetup)
    as (Hla & _ & _ & _ & _ & Hnd & _ & Hams & _). simpl in *.
  pose proof (wp_Ok _ _ _ _ _ _
    (ref_chain_spec opts sk ka ik vk full ams refs0 (length ams - 1) w1 Hnd) Hchain)
    as (logs & Hlogs & _ & _ & _ & _ & _ & _ & _ & Hlg).
  pose proof (lookup_lt_Some _ _ _ Hm) as Hlt.
  destruct (lookup_lt_is_Some_2 logs k) as [lg Hlgk]; [lia|].
  destruct (Hlg k lg Hlgk)
    as (_ & _ & _ & Hb & Cref & C & key & B' & w2 & _ & HC & Hvk & _ & _ & HB' & Hback).
  destruct (Hams (S k) (rl_b lg) Hb) as (m' & A & base & Hm' & Hold & Hst).
  rewrite Hm in Hm'. injection Hm' as <-.
  rewrite decide_False in Hst by done.
  assert (HmM : store wd !! m = Some M).
  { rewrite Hfrd; [done|]. apply Hwf. by rewrite HM. }
  assert (A = M) as ->.
  { assert (Hl : m < next_id wd).
    { assert (m < next_id w) by (apply Hwf; by rewrite HM). lia. }
    specialize (Hold Hl). rewrite HmM in Hold. by injection Hold. }
  rewrite Hst in HC. injection HC as <-.
  exists (rl_b lg), base, key, (rl_fld lg), B'.
  do 3 (split; [done|]).
  unfold back_projected in Hback. destruct full.
  - destruct Hback as (A2 & out2 & _ & HT & _ & _ & ->). simpl.
    do 3 (split; [done|]). by exists A2, out2.
  - destruct Hback as (q & tout & Hq & HT & _ & _ & ->). simpl.
    do 3 (split; [done|]). by exists q, tout.
Qed.

End Pipeline.

Arguments Ok {_ _ _ _ _ _ _} a w.
Arguments Raise {_ _ _ _ _ _ _} e w.

(** * Concrete runs

    The primitives are replaced by small total functions on integers:
    coordinates, fields, assignment matrices and variances are numbers.
    Three samples are in the store when the aligners are called; the third
    has no label column. *)

Definition Sample : Type := @AnnData Z unit Z.
Definition DemoWorld : Type := @World Z unit Z Z Z unit.
Definition DemoRes (A : Type) : Type := @Res Z unit Z Z Z unit A.

Definition demo_register (opts : unit) (sk : string) (A B : Sample)
    (sim : option Matrix) : unit + @RegisterOut Z Z Z Z :=
  inr (mkRegisterOut (default 0%Z (obsm B !! sk) + 100)%Z 7%Z 3%Z 55%Z 66%Z).

Definition demo_transform (f q : Z) : unit + @TransformOut Z :=
  inr (mkTransformOut (q + f)%Z q (q + 1000)%Z).

Definition demo_transform_assign (opts : unit) (B A : Sample) (f : Z) (sk : string)
  : unit + Z * Z :=
  inr (9%Z, (default 0%Z (obsm B !! sk) + f)%Z).

Definition demo_downsample (n : option nat) (method sk : string) (l : list Sample)
  : unit + list Sample := inr l.

Definition sample0 : Sample :=
  mkAnnData tt {["label" := CatCol ["a"] [Some "a"]]} {["spatial" := 1%Z]} ∅.

Definition sample1 : Sample :=
  mkAnnData tt {["label" := CatCol ["a"; "b"] [Some "a"; Some "b"]]}
            {["spatial" := 2%Z]} ∅.

Definition sample2 : Sample := mkAnnData tt ∅ {["spatial" := 3%Z]} ∅.

Definition demo_world : DemoWorld :=
  mkWorld (<[0 := sample0]> (<[1 := sample1]> (<[2 := sample2]> ∅))) 3 [].

(** The first two samples as the seeding leaves them, for a single
    iteration of the pair loop. *)
Definition seeded0 : Sample :=
  with_obsm sample0 "optimal_RnA" 1%Z.

Definition seeded1 : Sample :=
  with_obsm sample1 "optimal_RnA" 2%Z.

Definition demo_pair_world : DemoWorld :=
  mkWorld (<[0 := seeded0]> (<[1 := seeded1]> ∅)) 2 [].

(** [morpho_align] with its default keys. *)
Definition demo_align (models : list nat) (label_key : option string)
  : DemoRes (list nat * list Z * list Z) :=
  morpho_align demo_register demo_transform models tt "spatial" "align_spatial"
               (Some "iter_spatial") (Some "VecFld_morpho") label_key demo_world.

(** [morpho_align_ref] with its default keys. *)
Definition demo_align_ref (models : list nat) (models_ref : option (list nat))
    (full : bool) : DemoRes (list nat * list nat * list Z * list Z * list Z) :=
  morpho_align_ref demo_register demo_transform demo_transform_assign demo_downsample
                   models models_ref (Some 2000) "trn" tt "spatial" "align_spatial"
                   (Some "iter_spatial") (Some "VecFld_morpho") full demo_world.


(** The lengths of the two chains a run of [morpho_align_ref] returns. *)
Definition chain_lengths
    (r : DemoRes (list nat * list nat * list Z * list Z * list Z)) : option (nat * nat) :=
  match r with
  | Ok (ams, refs, _, _, _) _ => Some (length ams, length refs)
  | Raise _ _ => None
  end.

Lemma returned_Ok {A} (r : DemoRes A) :
  returned r = true -> exists a w, r = Ok a w.
Proof. destruct r; [eauto | discriminate]. Qed.


Lemma chain_lengths_Some r n m :
  chain_lengths r = Some (n, m) ->
  exists ams refs ps psr ss w',
    r = Ok (ams, refs, ps, psr, ss) w' /\ length ams = n /\ length refs = m.
Proof.
  destruct r as [[[[[ams refs] ps] psr] ss] w'|e w']; [|discriminate].
  intros [= <- <-]. by exists ams, refs, ps, psr, ss, w'.
Qed.

Lemma demo_world_wf : wf demo_world.
Proof.
  intros l [A Hl]. unfold demo_world in *. simpl in *.
  repeat (apply lookup_insert_Some in Hl as [[<- _]|[_ Hl]]; [lia|]).
  by rewrite lookup_empty in Hl.
Qed.

(** C2, where it fails.  Pair 0; sample A has one point labelled "a",
    sample B two points labelled "a" and "b".  The codes are [[0]] and
    [[0; 1]], and entry (1, 0) of the matrix is 0 although the code of point
    0 of A differs from the code of point 1 of B: every row compares with
    [catBCode[0]]. *)
Theorem C2_entry_ignores_point_label :
  let codes := label_codes (union1d ["a"] ["a"; "b"]) [Some "a"] [Some "a"; Some "b"] in
  codes = ([0], [0; 1])%Z /\
  exists S, LabelSimMat 0 (fst codes) (snd codes) = Some S /\
            shape S = (2, 1) /\
            fst codes !! 0 <> snd codes !! 1 /\
            entry S 1 0 = Some 0%Z.
Proof.
  simpl. split; [reflexivity|]. eexists. split; [reflexivity|].
  repeat split. discriminate.
Qed.

Lemma C3_witness :
  (exists ams ps ss w',
     demo_align [0; 1] None = Ok (ams, ps, ss) w' /\
     length ams = 2 /\ length ps = 1 /\ length ss = 1) /\
  (exists w', demo_align [2] None = Ok ([3], [], []) w' /\ trace w' = []) /\
  (exists ams ps ss w', demo_align [0; 1; 2] None = Ok (ams, ps, ss) w').
Proof.
  split; [|split].
  - assert (Hok : returned (demo_align [0; 1] None) = true) by (vm_compute; reflexivity).
    destruct (returned_Ok _ Hok) as ([[ams ps] ss] & w' & Hrun); clear Hok.
    unfold demo_align in *.
    exists ams, ps, ss, w'. split; [exact Hrun|].
    destruct (proj1 (C3_morpho_align_counts demo_register demo_transform [0; 1] tt
                "spatial" "align_spatial" (Some "iter_spatial") (Some "VecFld_morpho")
                None demo_world) _ _ _ _ Hrun) as (H1 & H2 & H3 & _).
    auto.
  - assert (HA : store demo_world !! 2 = Some sample2) by (vm_compute; reflexivity).
    assert (Hraw : obsm sample2 !! "spatial" = Some 3%Z) by (vm_compute; reflexivity).
    destruct (proj1 (proj2 (C3_morpho_align_counts demo_register demo_transform [2] tt
                "spatial" "align_spatial" (Some "iter_spatial") (Some "VecFld_morpho")
                None demo_world)) 2 sample2 3%Z eq_refl HA Hraw)
      as (w' & Hrun & Htr & _).
    exists w'. split; [exact Hrun | exact Htr].
  - assert (H0 : has_slot "spatial" demo_world 0).
    { exists sample0. split; [vm_compute; reflexivity|].
      exists 1%Z. vm_compute. reflexivity. }
    assert (H1 : has_slot "spatial" demo_world 1).
    { exists sample1. split; [vm_compute; reflexivity|].
      exists 2%Z. vm_compute. reflexivity. }
    assert (H2 : has_slot "spatial" demo_world 2).
    { exists sample2. split; [vm_compute; reflexivity|].
      exists 3%Z. vm_compute. reflexivity. }
    apply (proj2 (proj2 (C3_morpho_align_counts demo_register demo_transform [0; 1; 2]
                tt "spatial" "align_spatial" (Some "iter_spatial")
                (Some "VecFld_morpho") None demo_world))
             "VecFld_morpho" eq_refl eq_refl demo_world_wf).
    + intros o s X Y sim. eexists. reflexivity.
    + intros f q. eexists. reflexivity.
    + intros m Hm.
      repeat (apply elem_of_cons in Hm as [->|Hm]; [assumption|]).
      by apply elem_of_nil in Hm.
Defined.



Lemma C5_witness :
  exists w1 ams w2,
    seed_models [0; 1] "spatial" "align_spatial" demo_world = Ok tt w1 /\
    map_M copy [0; 1] w1 = Ok ams w2 /\
    trace w2 = trace demo_world.
Proof.
  assert (Hok : returned (bind (seed_models [0; 1] "spatial" "align_spatial")
                               (fun _ => map_M copy [0; 1]) demo_world) = true)
    by (vm_compute; reflexivity).
  destruct (returned_Ok _ Hok) as (ams & w2 & Hrun); clear Hok.
  apply bind_Ok in Hrun as ([] & w1 & Hseed & Hcopy).
  exists w1, ams, w2. split; [exact Hseed|]. split; [exact Hcopy|].
  exact (proj1 (C5_seeded_slots_equal_raw [0; 1] "spatial" "align_spatial"
                  demo_world _ _ _ demo_world_wf Hseed Hcopy)).
Defined.


(** The claim C7 makes about the lengths, on a caller's reference list
    longer than the list of samples: the chains would be equally long. *)
Lemma C7_counterexample :
  exists ams refs ps psr ss w',
    demo_align_ref [0] (Some [1; 2]) true = Ok (ams, refs, ps, psr, ss) w' /\
    length ams = 1 /\ length refs = 2.
Proof.
  apply chain_lengths_Some. vm_compute. reflexivity.
Qed.

Lemma C7_witness :
  exists ams refs ps psr ss w',
    demo_align_ref [0; 1] None true = Ok (ams, refs, ps, psr, ss) w' /\
    length ams = 2 /\ length refs = 2.
Proof.
  assert (Hok : returned (demo_align_ref [0; 1] None true) = true) by (vm_compute; reflexivity).
  destruct (returned_Ok _ Hok) as ([[[[ams refs] ps] psr] ss] & w' & Hrun); clear Hok.
  unfold demo_align, demo_align_ref in *.
  exists ams, refs, ps, psr, ss, w'. split; [exact Hrun|].
  destruct (C7_shared_field demo_register demo_transform demo_transform_assign
              demo_downsample [0; 1] None (Some 2000) "trn" tt "spatial" "align_spatial"
              (Some "iter_spatial") (Some "VecFld_morpho") true demo_world
              _ _ _ _ _ _ Hrun) as (Hams & _ & Hrefs & _).
  split; [exact Hams|].
  apply Hrefs; [reflexivity|]. intros vals reduced Hd. by injection Hd as <-.
Defined.

Lemma C8_witness :
  exists e w',
    demo_align [0; 1; 2] (Some "label") = Raise e w' /\
    length (registrations (trace w')) <= 1.
Proof.
  assert (HA : store demo_world !! 2 = Some sample2) by (vm_compute; reflexivity).
  assert (Hmiss : forall cs vs, obs sample2 !! "label" <> Some (CatCol cs vs))
    by (intros cs vs; vm_compute; discriminate).
  destruct (C8_missing_label_fails demo_register demo_transform [0; 1; 2] tt
              "spatial" "align_spatial" (Some "iter_spatial") (Some "VecFld_morpho")
              "label" demo_world 1 2 sample2 demo_world_wf
              ltac:(simpl; lia) (or_intror eq_refl) HA Hmiss)
    as (e & w' & Hrun & Hle).
  exists e, w'. split; [exact Hrun | exact Hle].
Defined.

Lemma C9_witness :
  (exists ams ps ss w' calls,
     demo_align [0; 1; 2] None = Ok (ams, ps, ss) w' /\
     length calls = 2 /\
     ps = map (fun c : nat * nat * @RegisterOut Z Z Z Z => reg_P (snd c)) calls /\
     ss = map (fun c : nat * nat * @RegisterOut Z Z Z Z => reg_sigma2 (snd c)) calls) /\
  (exists ams refs ps psr ss w' calls,
     demo_align_ref [0; 1; 2] None false = Ok (ams, refs, ps, psr, ss) w' /\
     length calls = 2 /\
     psr = map (fun c : nat * nat * @RegisterOut Z Z Z Z => reg_P (snd c)) calls /\
     ps = psr).
Proof.
  split.
  - assert (Hok : returned (demo_align [0; 1; 2] None) = true) by (vm_compute; reflexivity).
  destruct (returned_Ok _ Hok) as ([[ams ps] ss] & w' & Hrun); clear Hok.
  unfold demo_align, demo_align_ref in *.
    destruct (proj1 (@C9_results_in_pair_order Z unit Z Z Z unit unit
                       demo_register demo_transform demo_transform_assign
                       demo_downsample) _ _ _ _ _ _ _ _ _ _ _ _ Hrun)
      as (calls & _ & Hlen & Hps & Hss & _).
    exists ams, ps, ss, w', calls.
    split; [exact Hrun|]. split; [exact Hlen|]. split; [exact Hps | exact Hss].
  - assert (Hok : returned (demo_align_ref [0; 1; 2] None false) = true) by (vm_compute; reflexivity).
  destruct (returned_Ok _ Hok) as ([[[[ams refs] ps] psr] ss] & w' & Hrun); clear Hok.
  unfold demo_align, demo_align_ref in *.
    destruct (proj2 (@C9_results_in_pair_order Z unit Z Z Z unit unit
                       demo_register demo_transform demo_transform_assign
                       demo_downsample) _ _ _ _ _ _ _ _ _ _ _ _ _ _ _ _ _ Hrun)
      as (calls & _ & Hlen & Hpsr & _ & _ & _ & Hps).
    exists ams, refs, ps, psr, ss, w', calls.
    split; [exact Hrun|]. split; [exact Hlen|]. split; [exact Hpsr | exact Hps].
Defined.

Lemma C10_witness :
  exists acc' w' S res tl,
    align_pair demo_register demo_transform tt "spatial" "align_spatial"
               (Some "iter_spatial") (Some "VecFld_morpho") (Some "label")
               [0; 1] 0 (mkResults [] []) demo_pair_world = Ok acc' w' /\
    trace w' = EvRegister 0 1 "optimal_RnA" (Some S) res :: tl /\
    shape S = (2, 1) /\ mrows S !! 0 = mrows S !! 1.
Proof.
  assert (Hok : returned (align_pair demo_register demo_transform tt "spatial" "align_spatial"
                 (Some "iter_spatial") (Some "VecFld_morpho") (Some "label")
                 [0; 1] 0 (mkResults [] []) demo_pair_world) = true) by (vm_compute; reflexivity).
  destruct (returned_Ok _ Hok) as (acc' & w' & Hrun); clear Hok.
  unfold demo_align, demo_align_ref in *.
  destruct (C10_label_rows_use_pair_index demo_register demo_transform tt
              "spatial" "align_spatial" (Some "iter_spatial") (Some "VecFld_morpho")
              "label" [0; 1] 0 (mkResults [] []) demo_pair_world _ _ Hrun)
    as (a & b & A & B & csA & vsA & csB & vsB & S & res & tl &
        Ha & Hb & HA & HB & HcA & HcB & Htr & Hshape & Hrows & _).
  injection Ha as <-. injection Hb as <-.
  change (store demo_pair_world !! 0) with (Some seeded0) in HA.
  change (store demo_pair_world !! 1) with (Some seeded1) in HB.
  injection HA as <-. injection HB as <-.
  change (obs seeded0 !! "label") with (Some (CatCol ["a"] [Some "a"])) in HcA.
  change (obs seeded1 !! "label")
    with (Some (CatCol ["a"; "b"] [Some "a"; Some "b"])) in HcB.
  injection HcA as <- <-. injection HcB as <- <-.
  exists acc', w', S, res, tl. split; [exact Hrun|]. split; [exact Htr|].
  split; [exact Hshape|]. apply Hrows; simpl; lia.
Defined.

(** ** Runs for the further properties *)

Lemma X1_witness :
  label_codes (union1d ["a"] ["a"; "b"]) [Some "a"] [Some "a"; Some "b"]
    = ([0], [0; 1])%Z /\
  ((0 = 1)%Z <-> "a" = "b").
Proof.
  destruct (X1_label_codes_by_category ["a"] [Some "a"] ["a"; "b"] [Some "a"; Some "b"])
    as (Hcodes & _ & _ & Hagree & _).
  split; [exact Hcodes|].
  apply (Hagree 0 1 "a" "b" 0%Z 1%Z); try reflexivity.
  - apply elem_of_cons. by left.
  - apply elem_of_cons. right. apply elem_of_cons. by left.
Defined.

Lemma X2_witness :
  align_pair demo_register demo_transform tt "spatial" "align_spatial"
             (Some "iter_spatial") (Some "VecFld_morpho") (Some "label")
             [0; 1; 0; 1] 2 (mkResults [] []) demo_pair_world
    = Raise IndexError demo_pair_world.
Proof.
  refine (proj2 (proj1 (X2_pair_index_bounds_label_matrix demo_register demo_transform
            tt "spatial" "align_spatial" (Some "iter_spatial") (Some "VecFld_morpho")
            "label" [0; 1; 0; 1] 2 (mkResults [] []) demo_pair_world
            0 1 seeded0 seeded1 ["a"] [Some "a"] ["a"; "b"] [Some "a"; Some "b"]
            _ _ _ _ _ _) _)); try reflexivity.
  simpl. lia.
Defined.

Lemma X3_witness :
  exists A',
    store (final_world (demo_align [0; 1] None)) !! 2 = Some A' /\ A' = sample2.
Proof.
  assert (HA : store demo_world !! 2 = Some sample2) by reflexivity.
  unfold demo_align.
  destruct (X3_morpho_align_footprint demo_register demo_transform [0; 1] tt
              "spatial" "align_spatial" (Some "iter_spatial") (Some "VecFld_morpho")
              None demo_world 2 sample2 demo_world_wf HA)
    as (A' & HA' & _ & _ & _ & Hsame & _).
  exists A'. split; [exact HA'|]. apply Hsame.
  intros Hin. apply elem_of_cons in Hin as [Hin|Hin]; [discriminate|].
  apply elem_of_cons in Hin as [Hin|Hin]; [discriminate|].
  by apply elem_of_nil in Hin.
Defined.

Lemma X4_witness :
  exists w',
    morpho_align demo_register demo_transform [0; 1] tt "nowhere" "align_spatial"
                 (Some "iter_spatial") (Some "VecFld_morpho") None demo_world
      = Raise (KeyError (Some "nowhere")) w' /\
    trace w' = [].
Proof.
  assert (HA : store demo_world !! 1 = Some sample1) by reflexivity.
  assert (Hsk : obsm sample1 !! "nowhere" = None) by reflexivity.
  assert (Hall : forall x, x ∈ [0; 1] -> is_Some (store demo_world !! x)).
  { intros x Hx. apply elem_of_cons in Hx as [->|Hx]; [by exists sample0|].
    apply elem_of_cons in Hx as [->|Hx]; [by exists sample1|].
    by apply elem_of_nil in Hx. }
  destruct (X4_morpho_align_missing_spatial_key demo_register demo_transform [0; 1] tt
              "nowhere" "align_spatial" (Some "iter_spatial") (Some "VecFld_morpho")
              None demo_world 1 sample1 Hall
              ltac:(apply elem_of_cons; right; apply elem_of_cons; by left) HA Hsk)
    as (w' & Hrun & Htr & _).
  exists w'. split; [exact Hrun | exact Htr].
Defined.

Lemma X6_witness :
  exists ams ps ss w' logs,
    demo_align [0; 1; 2] None = Ok (ams, ps, ss) w' /\
    length logs = 2 /\
    trace w' = concat (map pair_events logs).
Proof.
  assert (Hok : returned (demo_align [0; 1; 2] None) = true) by (vm_compute; reflexivity).
  destruct (returned_Ok _ Hok) as ([[ams ps] ss] & w' & Hrun); clear Hok.
  unfold demo_align in *.
  destruct (X6_morpho_align_calls demo_register demo_transform [0; 1; 2] tt
              "spatial" "align_spatial" (Some "iter_spatial") (Some "VecFld_morpho")
              None demo_world _ _ _ _ Hrun) as (logs & Hlen & Htr & _).
  exists ams, ps, ss, w', logs. split; [exact Hrun|]. split; [exact Hlen | exact Htr].
Defined.

Lemma X7_witness :
  exists ams ps ss w' c base A1,
    demo_align [0; 1; 2] None = Ok (ams, ps, ss) w' /\
    ams !! 0 = Some c /\
    store w' !! c = Some (copy_value base A1) /\
    obsm A1 !! "align_spatial" = Some 1%Z.
Proof.
  assert (Hok : returned (demo_align [0; 1; 2] None) = true) by (vm_compute; reflexivity).
  destruct (returned_Ok _ Hok) as ([[ams ps] ss] & w' & Hrun); clear Hok.
  unfold demo_align in *.
  assert (HA : store demo_world !! 0 = Some sample0) by reflexivity.
  destruct (X7_morpho_align_anchor demo_register demo_transform [0; 1; 2] tt
              "spatial" "align_spatial" (Some "iter_spatial") (Some "VecFld_morpho")
              None demo_world _ _ _ _ 0 sample0 demo_world_wf Hrun eq_refl HA)
    as (c & base & A1 & raw & Hc & _ & HC & Hraw & _ & _ & _ & _ & Hkeys & _).
  exists ams, ps, ss, w', c, base, A1. split; [exact Hrun|]. split; [exact Hc|].
  split; [exact HC|].
  assert (Hr : raw = 1%Z).
  { change (obsm sample0 !! "spatial") with (Some 1%Z) in Hraw. by injection Hraw. }
  rewrite <- Hr. apply Hkeys. apply elem_of_cons. by left.
Defined.

Lemma X8_witness :
  returned (morpho_align demo_register demo_transform [0; 1] tt "spatial"
              "align_spatial" (Some "iter_spatial") None None demo_world) = false /\
  returned (morpho_align_ref demo_register demo_transform demo_transform_assign
              demo_downsample [0; 1] None (Some 2000) "trn" tt "spatial"
              "align_spatial" (Some "iter_spatial") None true demo_world) = false.
Proof.
  apply X8_field_key_required. simpl. lia.
Defined.

Lemma X9_witness :
  store (final_world (demo_align_ref [0; 1] None true)) !! 0 = Some sample0.
Proof.
  unfold demo_align_ref.
  apply X9_morpho_align_ref_keeps_callers_objects; [exact demo_world_wf | reflexivity].
Defined.

Lemma X10_witness :
  exists ams refs ps psr ss w',
    demo_align_ref [0; 1] (Some [1; 1]) true = Ok (ams, refs, ps, psr, ss) w' /\
    NoDup (ams ++ refs).
Proof.
  assert (Hok : returned (demo_align_ref [0; 1] (Some [1; 1]) true) = true)
    by (vm_compute; reflexivity).
  destruct (returned_Ok _ Hok) as ([[[[ams refs] ps] psr] ss] & w' & Hrun); clear Hok.
  unfold demo_align_ref in *.
  exists ams, refs, ps, psr, ss, w'. split; [exact Hrun|].
  exact (proj1 (X10_morpho_align_ref_results_are_new demo_register demo_transform
                  demo_transform_assign demo_downsample [0; 1] (Some [1; 1])
                  (Some 2000) "trn" tt "spatial" "align_spatial" (Some "iter_spatial")
                  (Some "VecFld_morpho") true demo_world _ _ _ _ _ _ Hrun)).
Defined.

Lemma X11_witness :
  exists ams refs ps psr ss w',
    demo_align_ref [0; 1] (Some [1; 2; 0]) true = Ok (ams, refs, ps, psr, ss) w' /\
    2 <= length refs.
Proof.
  assert (Hok : returned (demo_align_ref [0; 1] (Some [1; 2; 0]) true) = true)
    by (vm_compute; reflexivity).
  destruct (returned_Ok _ Hok) as ([[[[ams refs] ps] psr] ss] & w' & Hrun); clear Hok.
  unfold demo_align_ref in *.
  exists ams, refs, ps, psr, ss, w'. split; [exact Hrun|].
  exact (proj1 (X11_reference_list_not_shorter demo_register demo_transform
                  demo_transform_assign demo_downsample [0; 1] (Some [1; 2; 0])
                  (Some 2000) "trn" tt "spatial" "align_spatial" (Some "iter_spatial")
                  (Some "VecFld_morpho") true demo_world _ _ _ _ _ _ Hrun
                  ltac:(simpl; lia))).
Defined.

Lemma X12_witness :
  exists ams refs ps psr ss w' copies logs,
    demo_align_ref [0; 1; 2] None false = Ok (ams, refs, ps, psr, ss) w' /\
    trace w' = [EvDownsampling copies] ++ concat (map (ref_events "align_spatial") logs) /\
    length logs = 2.
Proof.
  assert (Hok : returned (demo_align_ref [0; 1; 2] None false) = true)
    by (vm_compute; reflexivity).
  destruct (returned_Ok _ Hok) as ([[[[ams refs] ps] psr] ss] & w' & Hrun); clear Hok.
  unfold demo_align_ref in *.
  destruct (X12_morpho_align_ref_calls demo_register demo_transform
              demo_transform_assign demo_downsample [0; 1; 2] None
              (Some 2000) "trn" tt "spatial" "align_spatial" (Some "iter_spatial")
              (Some "VecFld_morpho") false demo_world _ _ _ _ _ _ Hrun)
    as (pre & logs & Htr & Hlen & (copies & Hpre & _) & _).
  exists ams, refs, ps, psr, ss, w', copies, logs.
  split; [exact Hrun|]. split; [|exact Hlen]. rewrite <- Hpre. exact Htr.
Defined.

Lemma X13_witness :
  exists w',
    morpho_align_ref demo_register demo_transform demo_transform_assign demo_downsample
      [0] (Some [1; 2]) (Some 2000) "trn" tt "nowhere" "align_spatial"
      (Some "iter_spatial") (Some "VecFld_morpho") true demo_world
      = Raise (KeyError (Some "nowhere")) w' /\
    trace w' = [].
Proof.
  assert (HA : store demo_world !! 2 = Some sample2) by reflexivity.
  assert (Hsk : obsm sample2 !! "nowhere" = None) by reflexivity.
  assert (Hall : forall x, x ∈ [0] ++ [1; 2] -> is_Some (store demo_world !! x)).
  { intros x Hx. simpl in Hx.
    apply elem_of_cons in Hx as [->|Hx]; [by exists sample0|].
    apply elem_of_cons in Hx as [->|Hx]; [by exists sample1|].
    apply elem_of_cons in Hx as [->|Hx]; [by exists sample2|].
    by apply elem_of_nil in Hx. }
  destruct (X13_reference_sample_missing_spatial_key demo_register demo_transform
              demo_transform_assign demo_downsample [0] [1; 2] (Some 2000) "trn" tt
              "nowhere" "align_spatial" (Some "iter_spatial") (Some "VecFld_morpho")
              true demo_world 2 sample2 demo_world_wf Hall
              ltac:(apply elem_of_cons; right; apply elem_of_cons; by left) HA Hsk)
    as (w' & Hrun & Htr & _).
  exists w'. split; [exact Hrun | exact Htr].
Defined.

Lemma X14_witness :
  exists ams refs ps psr ss w' c cr base baser,
    demo_align_ref [0; 1] (Some [1; 2]) true = Ok (ams, refs, ps, psr, ss) w' /\
    ams !! 0 = Some c /\ refs !! 0 = Some cr /\
    store w' !! c = Some (with_obsm (copy_value base sample0) "align_spatial" 1%Z) /\
    store w' !! cr = Some (with_obsm (copy_value baser sample1) "align_spatial" 2%Z).
Proof.
  assert (Hok : returned (demo_align_ref [0; 1] (Some [1; 2]) true) = true)
    by (vm_compute; reflexivity).
  destruct (returned_Ok _ Hok) as ([[[[ams refs] ps] psr] ss] & w' & Hrun); clear Hok.
  unfold demo_align_ref in *.
  assert (HA : store demo_world !! 0 = Some sample0) by reflexivity.
  assert (HAr : store demo_world !! 1 = Some sample1) by reflexivity.
  destruct (X14_morpho_align_ref_anchors demo_register demo_transform
              demo_transform_assign demo_downsample [0; 1] [1; 2]
              (Some 2000) "trn" tt "spatial" "align_spatial" (Some "iter_spatial")
              (Some "VecFld_morpho") true demo_world _ _ _ _ _ _ 0 sample0 1 sample1
              demo_world_wf Hrun eq_refl HA eq_refl HAr)
    as (c & cr & base & baser & raw & rawr & Hc & Hcr & Hraw & Hrawr & HC & HCr).
  change (obsm sample0 !! "spatial") with (Some 1%Z) in Hraw.
  change (obsm sample1 !! "spatial") with (Some 2%Z) in Hrawr.
  injection Hraw as <-. injection Hrawr as <-.
  exists ams, refs, ps, psr, ss, w', c, cr, base, baser.
  split; [exact Hrun|]. split; [exact Hc|]. split; [exact Hcr|].
  split; [exact HC | exact HCr].
Defined.

Lemma X15_witness :
  (exists ams refs ps psr ss w',
     demo_align_ref [0; 1] (Some [1; 2]) true = Ok (ams, refs, ps, psr, ss) w') /\
  (exists ams refs ps psr ss w',
     demo_align_ref [0; 1; 2] None false = Ok (ams, refs, ps, psr, ss) w').
Proof.
  assert (H0 : has_slot "spatial" demo_world 0).
  { exists sample0. split; [reflexivity|]. by exists 1%Z. }
  assert (H1 : has_slot "spatial" demo_world 1).
  { exists sample1. split; [reflexivity|]. by exists 2%Z. }
  assert (H2 : has_slot "spatial" demo_world 2).
  { exists sample2. split; [reflexivity|]. by exists 3%Z. }
  unfold demo_align_ref. split.
  - apply (X15_morpho_align_ref_returns demo_register demo_transform
             demo_transform_assign demo_downsample [0; 1] (Some [1; 2])
             (Some 2000) "trn" tt "spatial" "align_spatial" (Some "iter_spatial")
             "VecFld_morpho" true demo_world demo_world_wf); try done.
    + intros o s X Y sim. eexists. reflexivity.
    + intros o X Y f s. eexists. reflexivity.
    + intros m Hm.
      repeat (apply elem_of_cons in Hm as [->|Hm]; [assumption|]).
      by apply elem_of_nil in Hm.
    + split; [left; simpl; lia|]. intros m Hm.
      repeat (apply elem_of_cons in Hm as [->|Hm]; [assumption|]).
      by apply elem_of_nil in Hm.
  - apply (X15_morpho_align_ref_returns demo_register demo_transform
             demo_transform_assign demo_downsample [0; 1; 2] None
             (Some 2000) "trn" tt "spatial" "align_spatial" (Some "iter_spatial")
             "VecFld_morpho" false demo_world demo_world_wf); try done.
    + intros o s X Y sim. eexists. reflexivity.
    + intros f q. eexists. reflexivity.
    + intros m Hm.
      repeat (apply elem_of_cons in Hm as [->|Hm]; [assumption|]).
      by apply elem_of_nil in Hm.
    + intros vals Hvals. exists vals. split; [reflexivity|]. split; [lia | exact Hvals].
Defined.

Lemma X16_witness :
  exists ams refs ps psr ss w' (calls : list (@RegCall Z unit Z Z Z)),
    demo_align_ref [0; 1; 2] None true = Ok (ams, refs, ps, psr, ss) w' /\
    length calls = 2 /\
    forall c c', calls !! 0 = Some c -> calls !! 1 = Some c' ->
      obsm (rc_A c') !! "align_spatial" = Some (reg_coords (rc_out c)).
Proof.
  assert (Hok : returned (demo_align_ref [0; 1; 2] None true) = true)
    by (vm_compute; reflexivity).
  destruct (returned_Ok _ Hok) as ([[[[ams refs] ps] psr] ss] & w' & Hrun); clear Hok.
  unfold demo_align_ref in *.
  destruct (X16_reference_chain_is_progressive demo_register demo_transform
              demo_transform_assign demo_downsample [0; 1; 2] None
              (Some 2000) "trn" tt "spatial" "align_spatial" (Some "iter_spatial")
              (Some "VecFld_morpho") true demo_world _ _ _ _ _ _ Hrun)
    as (calls & Hlen & _ & Hcalls).
  exists ams, refs, ps, psr, ss, w', calls.
  split; [exact Hrun|]. split; [exact Hlen|].
  intros c c' Hc Hc'.
  destruct (Hcalls 1 c' Hc') as (_ & _ & _ & _ & c0 & Hc0 & Hka).
  rewrite Hc in Hc0. injection Hc0 as <-. exact Hka.
Defined.

Lemma X17_witness :
  returned (demo_align [0; 1; 0] (Some "label")) = false.
Proof.
  unfold demo_align.
  apply (X17_label_key_needs_enough_points demo_register demo_transform [0; 1; 0] tt
           "spatial" "align_spatial" (Some "iter_spatial") (Some "VecFld_morpho")
           "label" demo_world 1 1 0 sample1 sample0
           ["a"; "b"] [Some "a"; Some "b"] ["a"] [Some "a"] demo_world_wf);
    try reflexivity; simpl; lia.
Defined.

Lemma X18_witness :
  exists ams refs ps psr ss w' b B',
    demo_align_ref [0; 1] None false = Ok (ams, refs, ps, psr, ss) w' /\
    ams !! 1 = Some b /\ store w' !! b = Some B' /\
    exists q tout,
      obsm sample1 !! "spatial" = Some q /\
      obsm B' = <["Rigid_align_spatial" := tr_rigid tout]>
                  (<["align_spatial" := tr_nonrigid tout]> (obsm sample1)).
Proof.
  assert (Hok : returned (demo_align_ref [0; 1] None false) = true)
    by (vm_compute; reflexivity).
  destruct (returned_Ok _ Hok) as ([[[[ams refs] ps] psr] ss] & w' & Hrun); clear Hok.
  unfold demo_align_ref in *.
  assert (HM : store demo_world !! 1 = Some sample1) by reflexivity.
  destruct (X18_back_projected_sample demo_register demo_transform
              demo_transform_assign demo_downsample [0; 1] None
              (Some 2000) "trn" tt "spatial" "align_spatial" (Some "iter_spatial")
              (Some "VecFld_morpho") false demo_world _ _ _ _ _ _ 0 1 sample1
              demo_world_wf Hrun eq_refl HM)
    as (b & base & key & fld & B' & Hb & _ & HB' & _ & _ & _ & q & tout & Hq & _ & Hobsm).
  exists ams, refs, ps, psr, ss, w', b, B'.
  split; [exact Hrun|]. split; [exact Hb|]. split; [exact HB'|].
  exists q, tout. split; [exact Hq | exact Hobsm].
Defined.
